(** * The memory engine of core-conversation (src/lib/memory.ts)

    A shallow embedding of the per-session memory store: identifier
    sanitisation, the deduplicating merge [applyMemoryUpdate], the record
    store ([readMemoryFile], [writeMemoryFile]), the per-key promise lock
    ([withMemoryLock]) and [updateMemory], together with the updater that
    src/app/api/analyze-answer/route.ts passes to [updateMemory].

    Conventions.
    - A JavaScript string is a [string]; a value of type
      [string | null | undefined] is an [option string] (the code only ever
      tests such values for truthiness or reads them through [??], and both
      treat [null] and [undefined] alike).
    - [String.prototype.toLowerCase] is a parameter of the merge (any
      function on strings); concrete runs use [toLowerCase_ascii], which
      agrees with JavaScript on ASCII text.
    - [randomUUID()] and [new Date().toISOString()] read a [World] that is
      threaded through the synchronous code. *)

From Stdlib Require Import Ascii String.
From stdpp Require Import base option list strings pretty gmap.

(** ** JavaScript strings *)
Module JS.

(** A string is truthy when it is not empty. *)
Definition nonempty (s : string) : bool :=
  match s with
  | EmptyString => false
  | String _ _ => true
  end.

(** [if (v) ...] on a [string | null | undefined]: the value, when the
    branch is taken. *)
Definition truthy (v : option string) : option string :=
  match v with
  | Some s => if nonempty s then Some s else None
  | None => None
  end.

Definition in_range (lo hi : nat) (c : ascii) : bool :=
  (lo <=? nat_of_ascii c)%nat && (nat_of_ascii c <=? hi)%nat.

(** ['A'..'Z'] are mapped to ['a'..'z'], every other ASCII character is
    left alone. *)
Definition lower_char (c : ascii) : ascii :=
  if in_range 65 90 c then ascii_of_nat (nat_of_ascii c + 32) else c.

Fixpoint toLowerCase_ascii (s : string) : string :=
  match s with
  | EmptyString => EmptyString
  | String c rest => String (lower_char c) (toLowerCase_ascii rest)
  end.

End JS.

(** ** IdentitySanitizer: [sanitizeSessionId] *)

(** The character class [[a-zA-Z0-9_-]] of the regular expression. *)
Definition safe_char (c : ascii) : bool :=
  JS.in_range 97 122 c || JS.in_range 65 90 c || JS.in_range 48 57 c
  || Ascii.eqb c "_" || Ascii.eqb c "-".

(** [sessionId.replace(/[^a-zA-Z0-9_-]/g, "")] *)
Fixpoint replace_unsafe (s : string) : string :=
  match s with
  | EmptyString => EmptyString
  | String c rest =>
      if safe_char c then String c (replace_unsafe rest) else replace_unsafe rest
  end.

Definition sanitizeSessionId (sessionId : string) : string :=
  let safe := replace_unsafe sessionId in
  if (0 <? String.length safe)%nat then safe else "anonymous".

(** The characters the specification allows in a storage key. *)
Definition allowed_chars : list ascii :=
  list_ascii_of_string
    "abcdefghijklmnopqrstuvwxyzABCDEFGHIJKLMNOPQRSTUVWXYZ0123456789_-".


(** ** Data model (the interfaces of src/lib/memory.ts) *)

Inductive PsychoLayer := leaves | branches | trunk | roots.

Inductive TranscriptRole := role_user | role_assistant.

(** A JavaScript number, carried around but never computed with: the bit
    pattern of the double. *)
Definition number : Type := N.

Record TranscriptEntry := {
  tr_role : TranscriptRole;
  tr_content : string;
  tr_timestamp : string
}.

Record PsychoTreeEntry := {
  pe_id : string;
  pe_layer : PsychoLayer;
  pe_question : option string;
  pe_answer : string;
  pe_evidence : option string;
  pe_tags : list string;
  pe_confidence : option number;
  pe_timestamp : string
}.

(** [SocialPost] and [SocialActivity] have the same fields; TypeScript types
    are structural, so they are one type. *)
Record SocialPost := {
  sp_id : string;
  sp_text : string;
  sp_date : option string;
  sp_url : option string
}.

Definition SocialActivity : Type := SocialPost.

Inductive FollowupAction := double_down | rephrase | continue_story | move_on.

(** [PsychoLayer | "none"] *)
Inductive TargetLayer := target (layer : PsychoLayer) | target_none.

Record FollowupSignal := {
  fs_action : FollowupAction;
  fs_targetLayer : TargetLayer;
  fs_rationale : option string;
  fs_suggestedPrompt : option string
}.

Record User := {
  user_id : string;
  user_name : option string;
  user_email : option string
}.

Record Instagram := {
  ig_handle : option string;
  ig_url : option string;
  ig_posts : list SocialPost
}.

Record Linkedin := {
  li_profileUrl : option string;
  li_activities : list SocialActivity
}.

Record Social := {
  instagram : Instagram;
  linkedin : Linkedin
}.

(** [Record<PsychoLayer, PsychoTreeEntry[]>] *)
Record PsychoTree := {
  pt_leaves : list PsychoTreeEntry;
  pt_branches : list PsychoTreeEntry;
  pt_trunk : list PsychoTreeEntry;
  pt_roots : list PsychoTreeEntry
}.

Record UserMemory := {
  user : User;
  social : Social;
  psychoTree : PsychoTree;
  transcript : list TranscriptEntry;
  lastFollowup : option FollowupSignal;
  createdAt : string;
  updatedAt : string
}.

(** [memory.psychoTree[layer]] *)
Definition layer_entries (layer : PsychoLayer) (t : PsychoTree) : list PsychoTreeEntry :=
  match layer with
  | leaves => pt_leaves t
  | branches => pt_branches t
  | trunk => pt_trunk t
  | roots => pt_roots t
  end.

Definition set_layer_entries (layer : PsychoLayer) (l : list PsychoTreeEntry)
    (t : PsychoTree) : PsychoTree :=
  match layer with
  | leaves => {| pt_leaves := l; pt_branches := pt_branches t;
                 pt_trunk := pt_trunk t; pt_roots := pt_roots t |}
  | branches => {| pt_leaves := pt_leaves t; pt_branches := l;
                   pt_trunk := pt_trunk t; pt_roots := pt_roots t |}
  | trunk => {| pt_leaves := pt_leaves t; pt_branches := pt_branches t;
                pt_trunk := l; pt_roots := pt_roots t |}
  | roots => {| pt_leaves := pt_leaves t; pt_branches := pt_branches t;
                pt_trunk := pt_trunk t; pt_roots := l |}
  end.

(** Field assignments on the record ([memory.user.name = ...] and so on). *)
Definition set_user (f : User → User) (m : UserMemory) : UserMemory :=
  {| user := f (user m); social := social m; psychoTree := psychoTree m;
     transcript := transcript m; lastFollowup := lastFollowup m;
     createdAt := createdAt m; updatedAt := updatedAt m |}.

Definition set_instagram (f : Instagram → Instagram) (m : UserMemory) : UserMemory :=
  {| user := user m;
     social := {| instagram := f (instagram (social m)); linkedin := linkedin (social m) |};
     psychoTree := psychoTree m;
     transcript := transcript m; lastFollowup := lastFollowup m;
     createdAt := createdAt m; updatedAt := updatedAt m |}.

Definition set_linkedin (f : Linkedin → Linkedin) (m : UserMemory) : UserMemory :=
  {| user := user m;
     social := {| instagram := instagram (social m); linkedin := f (linkedin (social m)) |};
     psychoTree := psychoTree m;
     transcript := transcript m; lastFollowup := lastFollowup m;
     createdAt := createdAt m; updatedAt := updatedAt m |}.

Definition set_psychoTree (f : PsychoTree → PsychoTree) (m : UserMemory) : UserMemory :=
  {| user := user m; social := social m; psychoTree := f (psychoTree m);
     transcript := transcript m; lastFollowup := lastFollowup m;
     createdAt := createdAt m; updatedAt := updatedAt m |}.

Definition set_transcript (l : list TranscriptEntry) (m : UserMemory) : UserMemory :=
  {| user := user m; social := social m; psychoTree := psychoTree m;
     transcript := l; lastFollowup := lastFollowup m;
     createdAt := createdAt m; updatedAt := updatedAt m |}.

Definition set_lastFollowup (f : option FollowupSignal) (m : UserMemory) : UserMemory :=
  {| user := user m; social := social m; psychoTree := psychoTree m;
     transcript := transcript m; lastFollowup := f;
     createdAt := createdAt m; updatedAt := updatedAt m |}.

Definition set_updatedAt (ts : string) (m : UserMemory) : UserMemory :=
  {| user := user m; social := social m; psychoTree := psychoTree m;
     transcript := transcript m; lastFollowup := lastFollowup m;
     createdAt := createdAt m; updatedAt := ts |}.

Definition set_user_name (v : option string) (u : User) : User :=
  {| user_id := user_id u; user_name := v; user_email := user_email u |}.

Definition set_user_email (v : option string) (u : User) : User :=
  {| user_id := user_id u; user_name := user_name u; user_email := v |}.

Definition set_ig_handle (v : option string) (i : Instagram) : Instagram :=
  {| ig_handle := v; ig_url := ig_url i; ig_posts := ig_posts i |}.

Definition set_ig_url (v : option string) (i : Instagram) : Instagram :=
  {| ig_handle := ig_handle i; ig_url := v; ig_posts := ig_posts i |}.

Definition set_ig_posts (l : list SocialPost) (i : Instagram) : Instagram :=
  {| ig_handle := ig_handle i; ig_url := ig_url i; ig_posts := l |}.

Definition set_li_profileUrl (v : option string) (l : Linkedin) : Linkedin :=
  {| li_profileUrl := v; li_activities := li_activities l |}.

Definition set_li_activities (a : list SocialActivity) (l : Linkedin) : Linkedin :=
  {| li_profileUrl := li_profileUrl l; li_activities := a |}.

(** The fragment [MemoryUpdate]: every field is optional. *)
Record UpdateUser := {
  uu_name : option string;
  uu_email : option string
}.

(** An incoming post or activity. *)
Record UpdateItem := {
  ui_text : option string;
  ui_date : option string;
  ui_url : option string
}.

Record UpdateInstagram := {
  uig_handle : option string;
  uig_url : option string;
  uig_posts : option (list UpdateItem)
}.

Record UpdateLinkedin := {
  uli_profileUrl : option string;
  uli_activities : option (list UpdateItem)
}.

Record UpdateSocial := {
  us_instagram : option UpdateInstagram;
  us_linkedin : option UpdateLinkedin
}.

Record UpdateEntry := {
  ue_question : option string;
  ue_answer : option string;
  ue_evidence : option string;
  ue_tags : option (list string);
  ue_confidence : option number
}.

(** [Partial<Record<PsychoLayer, Array<...>>>] *)
Record UpdateTree := {
  ut_leaves : option (list UpdateEntry);
  ut_branches : option (list UpdateEntry);
  ut_trunk : option (list UpdateEntry);
  ut_roots : option (list UpdateEntry)
}.

Record MemoryUpdate := {
  mu_user : option UpdateUser;
  mu_social : option UpdateSocial;
  mu_psychoTree : option UpdateTree;
  mu_hasPsychoTreeAnswer : option bool
}.

(** [update.psychoTree?.[layer]] *)
Definition update_layer (layer : PsychoLayer) (t : UpdateTree) : option (list UpdateEntry) :=
  match layer with
  | leaves => ut_leaves t
  | branches => ut_branches t
  | trunk => ut_trunk t
  | roots => ut_roots t
  end.

(** ** The world read by [randomUUID()] and [new Date()] *)

Record World := {
  uuid_source : nat → string;   (* the identifiers randomUUID() will return *)
  uuid_drawn : nat;             (* how many have been drawn *)
  clock_source : nat → string;  (* what each reading of the clock returns *)
  clock_reads : nat             (* how many readings were made *)
}.

(** Synchronous code that reads the world. *)
Definition sync (A : Type) : Type := World → A * World.

#[global] Instance sync_ret : MRet sync := λ A a w, (a, w).
#[global] Instance sync_bind : MBind sync :=
  λ A B f c w, let '(a, w') := c w in f a w'.

Definition randomUUID : sync string :=
  λ w, (uuid_source w (uuid_drawn w),
        {| uuid_source := uuid_source w; uuid_drawn := S (uuid_drawn w);
           clock_source := clock_source w; clock_reads := clock_reads w |}).

(** [new Date().toISOString()] *)
Definition now : sync string :=
  λ w, (clock_source w (clock_reads w),
        {| uuid_source := uuid_source w; uuid_drawn := uuid_drawn w;
           clock_source := clock_source w; clock_reads := S (clock_reads w) |}).

(** [array.forEach] with the mutated variables passed along as [s]. *)
Fixpoint forEach {A S : Type} (body : A → S → sync S) (l : list A) (s : S) : sync S :=
  match l with
  | [] => mret s
  | x :: rest => s' ← body x s; forEach body rest s'
  end.

(** ** MemoryMerger: [appendTranscriptEntry] and [applyMemoryUpdate] *)

Definition appendTranscriptEntry (memory : UserMemory) (entry : TranscriptEntry) : UserMemory :=
  set_transcript (transcript memory ++ [entry]) memory.

Section MemoryMerger.

(** [String.prototype.toLowerCase] *)
Variable toLowerCase : string → string.

(** The key of a stored post or activity: [post.text.toLowerCase()]. *)
Definition post_key (p : SocialPost) : string := toLowerCase (sp_text p).

(** The callback of [instagram.posts.forEach] (and of
    [linkedin.activities.forEach], which is the same code): [st] is the set
    [existing] and the list being pushed to. *)
Definition push_item (item : UpdateItem) (st : gset string * list SocialPost)
    : sync (gset string * list SocialPost) :=
  match JS.truthy (ui_text item) with
  | None => mret st
  | Some text =>
      let key := toLowerCase text in
      if bool_decide (key ∈ st.1) then mret st
      else
        id ← randomUUID;
        mret ({[ key ]} ∪ st.1,
              st.2 ++ [ {| sp_id := id; sp_text := text;
                           sp_date := ui_date item; sp_url := ui_url item |} ])
  end.

Definition merge_items (stored : list SocialPost) (incoming : list UpdateItem)
    : sync (list SocialPost) :=
  let existing : gset string := list_to_set (post_key <$> stored) in
  st ← forEach push_item incoming (existing, stored);
  mret st.2.

(** [`${question ?? ""}:${answer}`.toLowerCase()] *)
Definition entry_key (question : option string) (answer : string) : string :=
  toLowerCase (default "" question +:+ ":" +:+ answer).

Definition stored_key (e : PsychoTreeEntry) : string :=
  entry_key (pe_question e) (pe_answer e).

(** [Array.isArray(entry.tags) ? entry.tags.filter(Boolean) : []] *)
Definition coerce_tags (tags : option (list string)) : list string :=
  match tags with
  | Some l => List.filter JS.nonempty l
  | None => []
  end.

(** The callback of [entries.forEach]. *)
Definition push_entry (layer : PsychoLayer) (entry : UpdateEntry)
    (st : gset string * list PsychoTreeEntry)
    : sync (gset string * list PsychoTreeEntry) :=
  match JS.truthy (ue_answer entry) with
  | None => mret st
  | Some answer =>
      let key := entry_key (ue_question entry) answer in
      if bool_decide (key ∈ st.1) then mret st
      else
        id ← randomUUID;
        timestamp ← now;
        mret ({[ key ]} ∪ st.1,
              st.2 ++ [ {| pe_id := id; pe_layer := layer;
                           pe_question := ue_question entry;
                           pe_answer := answer;
                           pe_evidence := ue_evidence entry;
                           pe_tags := coerce_tags (ue_tags entry);
                           pe_confidence := ue_confidence entry;
                           pe_timestamp := timestamp |} ])
  end.

Definition merge_entries (layer : PsychoLayer) (stored : list PsychoTreeEntry)
    (entries : list UpdateEntry) : sync (list PsychoTreeEntry) :=
  let existingKeys : gset string := list_to_set (stored_key <$> stored) in
  st ← forEach (push_entry layer) entries (existingKeys, stored);
  mret st.2.

(** The callback of [layers.forEach]. *)
Definition merge_layer (tree : UpdateTree) (layer : PsychoLayer) (memory : UserMemory)
    : sync UserMemory :=
  match update_layer layer tree with
  | None | Some [] => mret memory
  | Some entries =>
      l ← merge_entries layer (layer_entries layer (psychoTree memory)) entries;
      mret (set_psychoTree (set_layer_entries layer l) memory)
  end.

(** [if (v) memory.field = v] *)
Definition assign_if_truthy (v : option string) (old : option string) : option string :=
  match JS.truthy v with
  | Some s => Some s
  | None => old
  end.

Definition applyMemoryUpdate (memory : UserMemory) (update : MemoryUpdate)
    : sync UserMemory :=
  let memory :=
    set_user (λ u, set_user_name
      (assign_if_truthy (mu_user update ≫= uu_name) (user_name u)) u) memory in
  let memory :=
    set_user (λ u, set_user_email
      (assign_if_truthy (mu_user update ≫= uu_email) (user_email u)) u) memory in
  memory ←
    match mu_social update ≫= us_instagram with
    | Some ig =>
        let memory :=
          set_instagram (λ i, set_ig_handle
            (assign_if_truthy (uig_handle ig) (ig_handle i)) i) memory in
        let memory :=
          set_instagram (λ i, set_ig_url
            (assign_if_truthy (uig_url ig) (ig_url i)) i) memory in
        match uig_posts ig with
        | Some posts =>
            l ← merge_items (ig_posts (instagram (social memory))) posts;
            mret (set_instagram (set_ig_posts l) memory)
        | None => mret memory
        end
    | None => mret memory
    end;
  memory ←
    match mu_social update ≫= us_linkedin with
    | Some li =>
        let memory :=
          set_linkedin (λ l, set_li_profileUrl
            (assign_if_truthy (uli_profileUrl li) (li_profileUrl l)) l) memory in
        match uli_activities li with
        | Some activities =>
            l ← merge_items (li_activities (linkedin (social memory))) activities;
            mret (set_linkedin (set_li_activities l) memory)
        | None => mret memory
        end
    | None => mret memory
    end;
  match mu_psychoTree update with
  | Some tree => forEach (merge_layer tree) [leaves; branches; trunk; roots] memory
  | None => mret memory
  end.

End MemoryMerger.

(** ** Errors and asynchronous code *)

Inductive error :=
| ErrnoException (code : string)   (* a failed fs call; [code] is its errno name *)
| SyntaxError                      (* thrown by JSON.parse *)
| Thrown (message : string).       (* anything an updater throws *)

(** [(error as NodeJS.ErrnoException).code] *)
Definition error_code (e : error) : option string :=
  match e with
  | ErrnoException code => Some code
  | SyntaxError | Thrown _ => None
  end.

Inductive result (A : Type) : Type :=
| Ok (a : A)
| Err (e : error).
Arguments Ok {A} a.
Arguments Err {A} e.

(** What a memory file holds, seen through [JSON.parse]: the record that
    [JSON.stringify] wrote, or text that does not parse. *)
Inductive raw :=
| Json (memory : UserMemory)
| Garbage (text : string).

Definition JSON_stringify (memory : UserMemory) : raw := Json memory.

Definition JSON_parse (r : raw) : result UserMemory :=
  match r with
  | Json memory => Ok memory
  | Garbage _ => Err SyntaxError
  end.

(** The argument of [updateMemory]: it returns the record to persist or
    throws. *)
Definition Updater : Type := UserMemory → sync (result UserMemory).

(** An [async] function: a tree of the operations it awaits. The files of
    [data/memory] are named by their [safeId]. *)
Inductive io (A : Type) : Type :=
| Ret (a : A)
| Throw (e : error)
| Mkdir (k : result unit → io A)
| ReadFile (safeId : string) (k : result raw → io A)
| WriteFile (safeId : string) (data : raw) (k : result unit → io A)
| Sync {B : Type} (c : sync B) (k : B → io A)
| Invoke (updater : Updater) (memory : UserMemory) (k : result UserMemory → io A).
Arguments Ret {A} a.
Arguments Throw {A} e.
Arguments Mkdir {A} k.
Arguments ReadFile {A} safeId k.
Arguments WriteFile {A} safeId data k.
Arguments Sync {A B} c k.
Arguments Invoke {A} updater memory k.

Fixpoint io_bind {A B : Type} (f : A → io B) (p : io A) : io B :=
  match p with
  | Ret a => f a
  | Throw e => Throw e
  | Mkdir k => Mkdir (λ r, io_bind f (k r))
  | ReadFile safeId k => ReadFile safeId (λ r, io_bind f (k r))
  | WriteFile safeId data k => WriteFile safeId data (λ r, io_bind f (k r))
  | Sync c k => Sync c (λ b, io_bind f (k b))
  | Invoke updater memory k => Invoke updater memory (λ r, io_bind f (k r))
  end.

#[global] Instance io_ret : MRet io := λ A a, Ret a.
#[global] Instance io_mbind : MBind io := λ A B f p, io_bind f p.

(** [try { p } catch (error) { handler(error) }] *)
Fixpoint try_catch {A : Type} (p : io A) (handler : error → io A) : io A :=
  match p with
  | Ret a => Ret a
  | Throw e => handler e
  | Mkdir k => Mkdir (λ r, try_catch (k r) handler)
  | ReadFile safeId k => ReadFile safeId (λ r, try_catch (k r) handler)
  | WriteFile safeId data k => WriteFile safeId data (λ r, try_catch (k r) handler)
  | Sync c k => Sync c (λ b, try_catch (k b) handler)
  | Invoke updater memory k => Invoke updater memory (λ r, try_catch (k r) handler)
  end.

(** An awaited promise settles: its value is returned or its error thrown. *)
Definition settle {A : Type} (r : result A) : io A :=
  match r with
  | Ok a => Ret a
  | Err e => Throw e
  end.

Definition fs_mkdir : io unit := Mkdir settle.
Definition fs_readFile (safeId : string) : io raw := ReadFile safeId settle.
Definition fs_writeFile (safeId : string) (data : raw) : io unit :=
  WriteFile safeId data settle.
Definition lift {A : Type} (c : sync A) : io A := Sync c Ret.
Definition invoke (updater : Updater) (memory : UserMemory) : io UserMemory :=
  Invoke updater memory settle.

(** ** RecordStore *)

Definition ensureMemoryDir : io unit := fs_mkdir.

Definition createEmptyMemory (sessionId : string) : sync UserMemory :=
  now' ← now;
  mret {| user := {| user_id := sessionId; user_name := None; user_email := None |};
          social := {| instagram := {| ig_handle := None; ig_url := None; ig_posts := [] |};
                       linkedin := {| li_profileUrl := None; li_activities := [] |} |};
          psychoTree := {| pt_leaves := []; pt_branches := [];
                           pt_trunk := []; pt_roots := [] |};
          transcript := [];
          lastFollowup := None;
          createdAt := now';
          updatedAt := now' |}.

Definition readMemoryFile (sessionId : string) : io UserMemory :=
  _ ← ensureMemoryDir;
  let safeId := sanitizeSessionId sessionId in
  try_catch
    (raw ← fs_readFile safeId;
     settle (JSON_parse raw))
    (λ error,
       if decide (error_code error ≠ Some "ENOENT") then Throw error
       else
         memory ← lift (createEmptyMemory safeId);
         _ ← fs_writeFile safeId (JSON_stringify memory);
         mret memory).

Definition writeMemoryFile (sessionId : string) (memory : UserMemory) : io unit :=
  _ ← ensureMemoryDir;
  let safeId := sanitizeSessionId sessionId in
  fs_writeFile safeId (JSON_stringify memory).

Definition getMemory (sessionId : string) : io UserMemory :=
  readMemoryFile sessionId.

(** The function [updateMemory] runs under the lock. *)
Definition updateMemory_fn (sessionId : string) (updater : Updater) : io UserMemory :=
  memory ← readMemoryFile sessionId;
  updated ← invoke updater memory;
  updatedAt' ← lift now;
  let updated := set_updatedAt updatedAt' updated in
  _ ← writeMemoryFile sessionId updated;
  mret updated.

(** *** The file system *)

(** The ways an fs call can fail other than on a missing file. *)
Inductive fault := EACCES | EISDIR | EMFILE | EIO | ENOSPC | EROFS.

Definition fault_code (f : fault) : string :=
  match f with
  | EACCES => "EACCES"
  | EISDIR => "EISDIR"
  | EMFILE => "EMFILE"
  | EIO => "EIO"
  | ENOSPC => "ENOSPC"
  | EROFS => "EROFS"
  end.

Definition fs_outcome {A : Type} (f : option fault) (ok : result A) : result A :=
  match f with
  | Some e => Err (ErrnoException (fault_code e))
  | None => ok
  end.

(** Reading a file whose content is [content] ([None]: there is no file). *)
Definition read_outcome (f : option fault) (content : option raw) : result raw :=
  fs_outcome f
    match content with
    | Some r => Ok r
    | None => Err (ErrnoException "ENOENT")
    end.

(** A write that fails leaves the file as it was. *)
Definition write_effect (f : option fault) (safeId : string) (data : raw)
    (files : gmap string raw) : gmap string raw :=
  match f with
  | Some _ => files
  | None => <[safeId := data]> files
  end.

(** One awaited operation of [p], under the fault [f] if it is an fs call:
    what [p] continues with, the files and the world. *)
Definition io_step {A : Type} (p : io A) (f : option fault)
    (files : gmap string raw) (w : World) : option (io A * gmap string raw * World) :=
  match p with
  | Ret _ | Throw _ => None
  | Mkdir k => Some (k (fs_outcome f (Ok tt)), files, w)
  | ReadFile safeId k => Some (k (read_outcome f (files !! safeId)), files, w)
  | WriteFile safeId data k =>
      Some (k (fs_outcome f (Ok tt)), write_effect f safeId data files, w)
  | Sync c k => let '(b, w') := c w in Some (k b, files, w')
  | Invoke updater memory k => let '(r, w') := updater memory w in Some (k r, files, w')
  end.

(** [p] run to its end with nothing else running; the n-th fs call meets
    the n-th element of [faults] (none when the list is exhausted). *)
Fixpoint run {A : Type} (p : io A) (faults : list (option fault))
    (files : gmap string raw) (w : World) : result A * gmap string raw * World :=
  match p with
  | Ret a => (Ok a, files, w)
  | Throw e => (Err e, files, w)
  | Mkdir k => run (k (fs_outcome (mjoin (head faults)) (Ok tt))) (tail faults) files w
  | ReadFile safeId k =>
      run (k (read_outcome (mjoin (head faults)) (files !! safeId))) (tail faults) files w
  | WriteFile safeId data k =>
      run (k (fs_outcome (mjoin (head faults)) (Ok tt))) (tail faults)
          (write_effect (mjoin (head faults)) safeId data files) w
  | Sync c k => let '(b, w') := c w in run (k b) faults files w'
  | Invoke updater memory k => let '(r, w') := updater memory w in run (k r) faults files w'
  end.

(** ** SessionLock: [memoryLocks] and [withMemoryLock] *)

(** A promise object. [id] is its identity, the thing [===] compares;
    whether a deferred promise is resolved is kept in the state. *)
Inductive promise :=
| P_resolved (id : nat)                      (* Promise.resolve() *)
| P_deferred (id : nat)                      (* new Promise((resolve) => { release = resolve }) *)
| P_then (id : nat) (current next : promise). (* current.then(() => next) *)

Definition promise_id (p : promise) : nat :=
  match p with
  | P_resolved id | P_deferred id | P_then id _ _ => id
  end.

(** [current.then(() => next)] is fulfilled once [current] is and then
    [next] is; a deferred promise once its [resolve] was called. *)
Fixpoint fulfilled (released : gset nat) (p : promise) : bool :=
  match p with
  | P_resolved _ => true
  | P_deferred id => bool_decide (id ∈ released)
  | P_then _ current next => fulfilled released current && fulfilled released next
  end.

(** Where a call of [withMemoryLock] stands. *)
Inductive phase :=
| Await_current (fn : io UserMemory)   (* suspended at [await current] *)
| Await_fn (p : io UserMemory)         (* inside [await fn()]; [p] is what is left of [fn] *)
| Returned (r : result UserMemory).    (* the [finally] block has run *)

(** The frame of one call of [withMemoryLock]. *)
Record task := {
  t_safeId : string;
  t_current : promise;
  t_next : promise;
  t_phase : phase
}.

Definition set_phase (ph : phase) (t : task) : task :=
  {| t_safeId := t_safeId t; t_current := t_current t; t_next := t_next t;
     t_phase := ph |}.

(** What the journal keeps of a run: the writes that reached a file and the
    records handed to updaters. It is not read by the code. *)
Inductive entry :=
| Saved (safeId : string) (data : raw)
| Observed (safeId : string) (memory : UserMemory).

Record state := {
  memoryLocks : gmap string promise;
  released : gset nat;          (* the deferred promises whose [resolve] was called *)
  allocated : nat;              (* the number of promise objects created *)
  files : gmap string raw;
  world : World;
  tasks : list task;
  journal : list entry          (* newest first *)
}.

Definition init (files : gmap string raw) (w : World) : state :=
  {| memoryLocks := ∅; released := ∅; allocated := 0; files := files;
     world := w; tasks := []; journal := [] |}.

(** The synchronous part of [withMemoryLock(sessionId, fn)], up to
    [await current]. *)
Definition withMemoryLock (sessionId : string) (fn : io UserMemory) (s : state) : state :=
  let safeId := sanitizeSessionId sessionId in
  let '(current, n) :=
    match memoryLocks s !! safeId with
    | Some p => (p, allocated s)
    | None => (P_resolved (allocated s), S (allocated s))
    end in
  let next := P_deferred n in
  let chained := P_then (S n) current next in
  {| memoryLocks := <[safeId := chained]> (memoryLocks s);
     released := released s;
     allocated := S (S n);
     files := files s;
     world := world s;
     tasks := tasks s ++ [ {| t_safeId := safeId; t_current := current;
                              t_next := next; t_phase := Await_current fn |} ];
     journal := journal s |}.

Definition updateMemory (sessionId : string) (updater : Updater) (s : state) : state :=
  withMemoryLock sessionId (updateMemory_fn sessionId updater) s.

(** The [finally] block of the call [t], which settled with [r]. *)
Definition finally (tid : nat) (t : task) (r : result UserMemory) (s : state) : state :=
  {| memoryLocks :=
       match memoryLocks s !! t_safeId t with
       | Some p =>
           if decide (promise_id p = promise_id (t_next t))
           then delete (t_safeId t) (memoryLocks s)
           else memoryLocks s
       | None => memoryLocks s
       end;
     released := {[ promise_id (t_next t) ]} ∪ released s;
     allocated := allocated s;
     files := files s;
     world := world s;
     tasks := <[tid := set_phase (Returned r) t]> (tasks s);
     journal := journal s |}.

(** What an operation adds to the journal. *)
Definition journal_of (safeId : string) (p : io UserMemory) (f : option fault) : list entry :=
  match p with
  | WriteFile path data _ =>
      match f with
      | None => [Saved path data]
      | Some _ => []
      end
  | Invoke _ memory _ => [Observed safeId memory]
  | _ => []
  end.

(** The call [tid] is resumed and runs up to its next [await]. *)
Definition resume (tid : nat) (f : option fault) (s : state) : option state :=
  t ← tasks s !! tid;
  match t_phase t with
  | Await_current fn =>
      if fulfilled (released s) (t_current t)
      then Some {| memoryLocks := memoryLocks s; released := released s;
                   allocated := allocated s; files := files s; world := world s;
                   tasks := <[tid := set_phase (Await_fn fn) t]> (tasks s);
                   journal := journal s |}
      else None
  | Await_fn (Ret a) => Some (finally tid t (Ok a) s)
  | Await_fn (Throw e) => Some (finally tid t (Err e) s)
  | Await_fn p =>
      '(p', files', w') ← io_step p f (files s) (world s);
      Some {| memoryLocks := memoryLocks s; released := released s;
              allocated := allocated s; files := files'; world := w';
              tasks := <[tid := set_phase (Await_fn p') t]> (tasks s);
              journal := journal_of (t_safeId t) p f ++ journal s |}
  | Returned _ => None
  end.

(** What happens in the process: a request calls [updateMemory], or the
    event loop resumes a suspended call. *)
Inductive event :=
| Call (sessionId : string) (updater : Updater)
| Resume (tid : nat) (f : option fault).

Definition step (ev : event) (s : state) : option state :=
  match ev with
  | Call sessionId updater => Some (updateMemory sessionId updater s)
  | Resume tid f => resume tid f s
  end.

Fixpoint exec (evs : list event) (s : state) : option state :=
  match evs with
  | [] => Some s
  | ev :: rest => s' ← step ev s; exec rest s'
  end.

(** The states the process can be in, started on [files] and [w]. *)
Definition reachable (files0 : gmap string raw) (w0 : World) (s : state) : Prop :=
  ∃ evs, exec evs (init files0 w0) = Some s.

(** The call holds the lock: it is between [await current] and [finally]. *)
Definition in_fn (t : task) : bool :=
  match t_phase t with
  | Await_fn _ => true
  | Await_current _ | Returned _ => false
  end.

(** ** The updater of src/app/api/analyze-answer/route.ts *)

(** [countLayer] *)
Definition countLayer (memory : UserMemory) (layer : PsychoLayer) : nat :=
  length (layer_entries layer (psychoTree memory)).

Section AnalyzeAnswer.

Variable toLowerCase : string → string.

(** The function passed to [updateMemory] by [POST]; [extraction] and
    [followup] are what the language model returned. *)
Definition analyze_answer_updater (transcript' : string) (extraction : MemoryUpdate)
    (followup : FollowupSignal) : UserMemory → sync UserMemory :=
  λ current,
    timestamp ← now;
    let current :=
      appendTranscriptEntry current
        {| tr_role := role_user; tr_content := transcript'; tr_timestamp := timestamp |} in
    current ← applyMemoryUpdate toLowerCase current extraction;
    mret (set_lastFollowup (Some followup) current).

End AnalyzeAnswer.

(** ** The shape shared by the deduplicating loops

    [push_item] and [push_entry] are the same loop body up to the key and
    the object pushed: [step a] is [None] when the item is skipped for want
    of its required field, and otherwise the key and the code building the
    stored object. The lemmas on the two callbacks are proved once, on
    [push_new]. *)
Definition push_new {A B : Type} (step : A → option (string * sync B))
    (a : A) (st : gset string * list B) : sync (gset string * list B) :=
  match step a with
  | None => mret st
  | Some (key, make) =>
      if bool_decide (key ∈ st.1) then mret st
      else b ← make; mret ({[ key ]} ∪ st.1, st.2 ++ [b])
  end.

(** The set of keys mirrors the list: it holds the key of every element. *)
Definition mirrors {B : Type} (key_of : B → string) (st : gset string * list B) : Prop :=
  st.1 = list_to_set (key_of <$> st.2).

Definition item_step (toLowerCase : string → string) (item : UpdateItem)
    : option (string * sync SocialPost) :=
  match JS.truthy (ui_text item) with
  | None => None
  | Some text =>
      Some (toLowerCase text,
            id ← randomUUID;
            mret {| sp_id := id; sp_text := text;
                    sp_date := ui_date item; sp_url := ui_url item |})
  end.

Definition entry_step (toLowerCase : string → string) (layer : PsychoLayer)
    (entry : UpdateEntry) : option (string * sync PsychoTreeEntry) :=
  match JS.truthy (ue_answer entry) with
  | None => None
  | Some answer =>
      Some (entry_key toLowerCase (ue_question entry) answer,
            id ← randomUUID;
            timestamp ← now;
            mret {| pe_id := id; pe_layer := layer;
                    pe_question := ue_question entry;
                    pe_answer := answer;
                    pe_evidence := ue_evidence entry;
                    pe_tags := coerce_tags (ue_tags entry);
                    pe_confidence := ue_confidence entry;
                    pe_timestamp := timestamp |})
  end.

(** The characters that are allowed, as a test, and the input with every
    other character removed. *)
Definition allowed (c : ascii) : bool := bool_decide (c ∈ allowed_chars).

Definition keep_allowed (s : string) : string :=
  string_of_list_ascii (List.filter allowed (list_ascii_of_string s)).

(** ** [applyMemoryUpdate], part by part

    The merge writes four disjoint parts of the record one after the other.
    The functions below are what it does to each part; that they compose to
    [applyMemoryUpdate] is lemma [applyMemoryUpdate_parts]. *)
Section Parts.

Variable toLowerCase : string → string.

Definition user_part (update : MemoryUpdate) (u : User) : User :=
  {| user_id := user_id u;
     user_name := assign_if_truthy (mu_user update ≫= uu_name) (user_name u);
     user_email := assign_if_truthy (mu_user update ≫= uu_email) (user_email u) |}.

Definition instagram_part (update : MemoryUpdate) (i : Instagram) : sync Instagram :=
  match mu_social update ≫= us_instagram with
  | Some ig =>
      l ← match uig_posts ig with
          | Some posts => merge_items toLowerCase (ig_posts i) posts
          | None => mret (ig_posts i)
          end;
      mret {| ig_handle := assign_if_truthy (uig_handle ig) (ig_handle i);
              ig_url := assign_if_truthy (uig_url ig) (ig_url i);
              ig_posts := l |}
  | None => mret i
  end.

Definition linkedin_part (update : MemoryUpdate) (l : Linkedin) : sync Linkedin :=
  match mu_social update ≫= us_linkedin with
  | Some li =>
      a ← match uli_activities li with
          | Some activities => merge_items toLowerCase (li_activities l) activities
          | None => mret (li_activities l)
          end;
      mret {| li_profileUrl := assign_if_truthy (uli_profileUrl li) (li_profileUrl l);
              li_activities := a |}
  | None => mret l
  end.

Definition layer_part (tree : option UpdateTree) (layer : PsychoLayer)
    (stored : list PsychoTreeEntry) : sync (list PsychoTreeEntry) :=
  match tree ≫= update_layer layer with
  | None | Some [] => mret stored
  | Some entries => merge_entries toLowerCase layer stored entries
  end.

Definition tree_part (tree : option UpdateTree) (t : PsychoTree) : sync PsychoTree :=
  a ← layer_part tree leaves (pt_leaves t);
  b ← layer_part tree branches (pt_branches t);
  c ← layer_part tree trunk (pt_trunk t);
  d ← layer_part tree roots (pt_roots t);
  mret {| pt_leaves := a; pt_branches := b; pt_trunk := c; pt_roots := d |}.

End Parts.

(** The world in which [applyMemoryUpdate] starts the loop of [layer]: the
    one left by the social parts and by the layers before it. *)
Definition layer_start (toLowerCase : string → string) (memory : UserMemory)
    (update : MemoryUpdate) (layer : PsychoLayer) (w : World) : World :=
  let tree := mu_psychoTree update in
  let t := psychoTree memory in
  let w1 := (instagram_part toLowerCase update (instagram (social memory)) w).2 in
  let w2 := (linkedin_part toLowerCase update (linkedin (social memory)) w1).2 in
  let w3 := (layer_part toLowerCase tree leaves (pt_leaves t) w2).2 in
  let w4 := (layer_part toLowerCase tree branches (pt_branches t) w3).2 in
  let w5 := (layer_part toLowerCase tree trunk (pt_trunk t) w4).2 in
  match layer with
  | leaves => w2
  | branches => w3
  | trunk => w4
  | roots => w5
  end.

(** ** Notions the properties are stated with *)

(** No two posts (or activities) of the list share their lower-cased text. *)
Definition unique_texts (toLowerCase : string → string) (l : list SocialPost) : Prop :=
  NoDup (post_key toLowerCase <$> l).

(** What the fragment supplies for the three social profile fields. *)
Definition supplied_handle (update : MemoryUpdate) : option string :=
  (mu_social update ≫= us_instagram) ≫= uig_handle.

Definition supplied_url (update : MemoryUpdate) : option string :=
  (mu_social update ≫= us_instagram) ≫= uig_url.

Definition supplied_profileUrl (update : MemoryUpdate) : option string :=
  (mu_social update ≫= us_linkedin) ≫= uli_profileUrl.

(** A value that is known: neither [null] nor the empty string. *)
Definition known (v : option string) : Prop := ∃ s, v = Some s ∧ s ≠ "".

(** The field went from [old] to [new] under a fragment supplying
    [supplied]: a supplied non-empty value overwrites it, nothing else
    changes it, and a known value stays known. *)
Definition overwritten_only_when_supplied (supplied old new : option string) : Prop :=
  (known supplied → new = supplied)
  ∧ (¬ known supplied → new = old)
  ∧ (known old → known new).

(** The two (question, answer) pairs are the same up to case, an absent
    question being read as the empty one. *)
Definition same_pair (toLowerCase : string → string)
    (q1 : option string) (a1 : string) (q2 : option string) (a2 : string) : Prop :=
  toLowerCase (default "" q1) = toLowerCase (default "" q2)
  ∧ toLowerCase a1 = toLowerCase a2.

(** The object [push_entry] pushes for [entry], whose answer is [answer]. *)
Definition pushed_entry (layer : PsychoLayer) (entry : UpdateEntry) (answer : string)
    (id timestamp : string) : PsychoTreeEntry :=
  {| pe_id := id; pe_layer := layer;
     pe_question := ue_question entry;
     pe_answer := answer;
     pe_evidence := ue_evidence entry;
     pe_tags := coerce_tags (ue_tags entry);
     pe_confidence := ue_confidence entry;
     pe_timestamp := timestamp |}.

(** A fragment that only carries entries for the layer [leaves]. *)
Definition leaves_fragment (entries : list UpdateEntry) : MemoryUpdate :=
  {| mu_user := None; mu_social := None;
     mu_psychoTree := Some {| ut_leaves := Some entries; ut_branches := None;
                              ut_trunk := None; ut_roots := None |};
     mu_hasPsychoTreeAnswer := Some true |}.

(** A fragment that only carries instagram posts with the given texts. *)
Definition posts_fragment (texts : list string) : MemoryUpdate :=
  {| mu_user := None;
     mu_social :=
       Some {| us_instagram :=
                 Some {| uig_handle := None; uig_url := None;
                         uig_posts :=
                           Some ((λ t, {| ui_text := Some t; ui_date := None;
                                          ui_url := None |}) <$> texts) |};
               us_linkedin := None |};
     mu_psychoTree := None;
     mu_hasPsychoTreeAnswer := None |}.

(** A world for concrete runs. *)
Definition world0 : World :=
  {| uuid_source := λ n, "uuid-" +:+ pretty n; uuid_drawn := 0;
     clock_source := λ n, "2024-01-01T00:00:0" +:+ pretty n +:+ "Z"; clock_reads := 0 |}.

(** ** Concrete inputs *)

Definition entry_of (question : option string) (answer : string) : UpdateEntry :=
  {| ue_question := question; ue_answer := Some answer; ue_evidence := None;
     ue_tags := None; ue_confidence := None |}.

(** A record whose layer [leaves] holds one entry, question "a" and answer
    "b:c". *)
Definition colon_record : UserMemory :=
  set_psychoTree
    (set_layer_entries leaves
       [ {| pe_id := "e0"; pe_layer := leaves; pe_question := Some "a";
            pe_answer := "b:c"; pe_evidence := None; pe_tags := [];
            pe_confidence := None; pe_timestamp := "2023-12-31T23:59:59Z" |} ])
    (createEmptyMemory "abc123" world0).1.

(** A record with one instagram post. *)
Definition sunset_record : UserMemory :=
  set_instagram
    (set_ig_posts [ {| sp_id := "p0"; sp_text := "Sunset pic"; sp_date := None;
                       sp_url := None |} ])
    (createEmptyMemory "abc123" world0).1.

(** A follow-up decision that targets the layer [roots]. *)
Definition roots_followup : FollowupSignal :=
  {| fs_action := move_on; fs_targetLayer := target roots;
     fs_rationale := Some "go deeper"; fs_suggestedPrompt := Some "What do you fear?" |}.

(** The extraction [POST] starts from. *)
Definition no_extraction : MemoryUpdate :=
  {| mu_user := None; mu_social := None;
     mu_psychoTree := Some {| ut_leaves := Some []; ut_branches := Some [];
                              ut_trunk := Some []; ut_roots := Some [] |};
     mu_hasPsychoTreeAnswer := Some false |}.

(** An updater that returns what [u] returns and never throws. *)
Definition returning (u : UserMemory → sync UserMemory) : Updater :=
  λ memory, r ← u memory; mret (Ok r).

(** An updater that always throws. *)
Definition throwing (message : string) : Updater :=
  λ memory, mret (Err (Thrown message)).

(** The result is an error. *)
Definition is_Err {A : Type} (r : result A) : Prop :=
  match r with
  | Err _ => True
  | Ok _ => False
  end.

(** A fragment that only supplies an instagram handle. *)
Definition handle_fragment (handle : option string) : MemoryUpdate :=
  {| mu_user := None;
     mu_social :=
       Some {| us_instagram :=
                 Some {| uig_handle := handle; uig_url := None; uig_posts := None |};
               us_linkedin := None |};
     mu_psychoTree := None;
     mu_hasPsychoTreeAnswer := None |}.

(** A record whose instagram handle is known. *)
Definition handle_record : UserMemory :=
  set_instagram (set_ig_handle (Some "@old")) (createEmptyMemory "abc123" world0).1.

(** The fragment of the scenario: one answer for the layer [leaves]. *)
Definition hiking_fragment : MemoryUpdate :=
  leaves_fragment
    [ {| ue_question := None; ue_answer := Some "I love hiking"; ue_evidence := None;
         ue_tags := Some ["hobby"]; ue_confidence := None |} ].

(** ** Notions for the lock *)

(** The deferred promise [n] is one [p] waits for. *)
Fixpoint mentions (n : nat) (p : promise) : Prop :=
  match p with
  | P_resolved _ => False
  | P_deferred id => id = n
  | P_then _ current next => mentions n current ∨ mentions n next
  end.

(** [p], run for the key [k] on a file holding [content], reads and writes
    no other file than that of [k]; every record it hands to an updater is
    the one the file holds at that moment; and it writes the file only when
    there is none or after it has handed its record to an updater
    ([observed]) and not written since. *)
Fixpoint coherent (k : string) (p : io UserMemory) (content : option raw)
    (observed : bool) : Prop :=
  match p with
  | Ret _ | Throw _ => True
  | Mkdir kont => ∀ f, coherent k (kont (fs_outcome f (Ok tt))) content observed
  | ReadFile path kont =>
      path = k ∧ ∀ f, coherent k (kont (read_outcome f content)) content observed
  | WriteFile path data kont =>
      path = k
      ∧ (content = None ∨ observed = true)
      ∧ (∀ e, coherent k (kont (fs_outcome (Some e) (Ok tt))) content observed)
      ∧ coherent k (kont (Ok tt)) (Some data) false
  | Sync c kont => ∀ b, coherent k (kont b) content observed
  | Invoke _ memory kont =>
      content = Some (Json memory) ∧ ∀ r, coherent k (kont r) content true
  end.

(** The content of the file of [k] after the writes of the journal [j], on
    a store that started as [files0]. *)
Fixpoint persisted (files0 : gmap string raw) (k : string) (j : list entry) : option raw :=
  match j with
  | [] => files0 !! k
  | Saved path data :: rest =>
      if decide (path = k) then Some data else persisted files0 k rest
  | Observed _ _ :: rest => persisted files0 k rest
  end.

Definition journal_key (e : entry) : string :=
  match e with
  | Saved k _ | Observed k _ => k
  end.

(** The latest entry of the journal for the key [k]. *)
Fixpoint last_for (k : string) (j : list entry) : option entry :=
  match j with
  | [] => None
  | e :: rest => if decide (journal_key e = k) then Some e else last_for k rest
  end.

(** The journal is that of calls that ran one after the other on each key:
    every record handed to an updater was, at that moment, the record
    persisted for its key (the last one written, or the initial one when
    nothing was written yet); and every write either created a file that did
    not exist or came right after an updater was handed the record of the
    key, with nothing else done for the key in between. *)
Fixpoint serial (files0 : gmap string raw) (j : list entry) : Prop :=
  match j with
  | [] => True
  | Observed k memory :: rest =>
      persisted files0 k rest = Some (Json memory) ∧ serial files0 rest
  | Saved k _ :: rest =>
      (persisted files0 k rest = None
       ∨ ∃ memory, last_for k rest = Some (Observed k memory))
      ∧ serial files0 rest
  end.

(** What holds of every state the process reaches. *)
Record invariant (files0 : gmap string raw) (s : state) : Prop := {
  inv_lock_lt : ∀ k p, memoryLocks s !! k = Some p → promise_id p < allocated s;
  inv_lock_ne : ∀ k p tid t,
    memoryLocks s !! k = Some p → tasks s !! tid = Some t →
    promise_id p ≠ promise_id (t_next t);
  inv_next : ∀ tid t, tasks s !! tid = Some t →
    t_next t = P_deferred (promise_id (t_next t)) ∧ promise_id (t_next t) < allocated s;
  inv_next_inj : ∀ i j ti tj,
    tasks s !! i = Some ti → tasks s !! j = Some tj →
    promise_id (t_next ti) = promise_id (t_next tj) → i = j;
  inv_released_lt : ∀ n, n ∈ released s → n < allocated s;
  inv_released : ∀ tid t, tasks s !! tid = Some t →
    promise_id (t_next t) ∈ released s → in_fn t = false ∧ ∃ r, t_phase t = Returned r;
  inv_entered : ∀ tid t, tasks s !! tid = Some t →
    in_fn t = true → fulfilled (released s) (t_current t) = true;
  inv_chain : ∀ i j ti tj,
    i < j → tasks s !! i = Some ti → tasks s !! j = Some tj →
    t_safeId ti = t_safeId tj → mentions (promise_id (t_next ti)) (t_current tj);
  inv_held : ∀ tid t, tasks s !! tid = Some t →
    ∃ p, memoryLocks s !! t_safeId t = Some p ∧ mentions (promise_id (t_next t)) p;
  inv_files : ∀ k, files s !! k = persisted files0 k (journal s);
  inv_coherent : ∀ tid t, tasks s !! tid = Some t →
    match t_phase t with
    | Await_current fn => ∀ content, coherent (t_safeId t) fn content false
    | Await_fn p =>
        ∃ observed,
          coherent (t_safeId t) p (files s !! t_safeId t) observed
          ∧ (observed = true →
             ∃ memory, last_for (t_safeId t) (journal s)
                       = Some (Observed (t_safeId t) memory))
    | Returned _ => True
    end;
  inv_journal : serial files0 (journal s)
}.

(** The updater of src/app/api/memory/route.ts: it appends one turn. *)
Definition say (content : string) : Updater :=
  returning (λ current,
    timestamp ← now;
    mret (appendTranscriptEntry current
            {| tr_role := role_user; tr_content := content;
               tr_timestamp := timestamp |})).

(** One call of [updateMemory] on a fresh session, resumed until it has
    returned: lock, mkdir, read, default record, write, updater, clock,
    mkdir, write, [finally]. *)
Definition single_call : list event :=
  Call "abc123" (say "first") :: replicate 10 (Resume 0 None).

(** Two calls for the same key, the second made before the first has
    started; the first runs to its end, then the second. *)
Definition two_calls : list event :=
  Call "abc123" (say "first") :: Call "abc/123" (say "second")
  :: replicate 10 (Resume 0 None) ++ replicate 8 (Resume 1 None).

(** Every call has returned. *)
Definition quiescent (s : state) : Prop :=
  Forall (λ t, in_fn t = false ∧ ∃ r, t_phase t = Returned (Ok r)) (tasks s).

(** ** Further notions: what a fragment brings and what a merge appends *)

(** [update.social?.instagram?.posts], [update.social?.linkedin?.activities]
    and [update.psychoTree?.[layer]], read as empty when absent. *)
Definition incoming_posts (update : MemoryUpdate) : list UpdateItem :=
  default [] ((mu_social update ≫= us_instagram) ≫= uig_posts).

Definition incoming_activities (update : MemoryUpdate) : list UpdateItem :=
  default [] ((mu_social update ≫= us_linkedin) ≫= uli_activities).

Definition incoming_entries (update : MemoryUpdate) (layer : PsychoLayer) : list UpdateEntry :=
  default [] (mu_psychoTree update ≫= update_layer layer).

(** What [new] has after the first [length old] elements. *)
Definition appended {A : Type} (old new : list A) : list A := drop (length old) new.

(** The world after [n] more identifiers were drawn and the clock was read
    [m] more times. *)
Definition advance (n m : nat) (w : World) : World :=
  {| uuid_source := uuid_source w; uuid_drawn := n + uuid_drawn w;
     clock_source := clock_source w; clock_reads := m + clock_reads w |}.

(** The stored post [p] was made from the incoming item [item]. *)
Definition post_from (item : UpdateItem) (p : SocialPost) : Prop :=
  ui_text item = Some (sp_text p) ∧ sp_text p ≠ ""
  ∧ sp_date p = ui_date item ∧ sp_url p = ui_url item.

(** The stored entry [e] of [layer] was made from the incoming [entry]. *)
Definition entry_from (layer : PsychoLayer) (entry : UpdateEntry) (e : PsychoTreeEntry) : Prop :=
  ue_answer entry = Some (pe_answer e) ∧ pe_answer e ≠ ""
  ∧ pe_layer e = layer
  ∧ pe_question e = ue_question entry
  ∧ pe_evidence e = ue_evidence entry
  ∧ pe_tags e = coerce_tags (ue_tags entry)
  ∧ pe_confidence e = ue_confidence entry.

(** ** The routes of src/app/api/memory/route.ts *)

(** The function passed to [updateMemory] by [POST] of
    src/app/api/memory/route.ts:
    [timestamp: entry.timestamp ?? new Date().toISOString()]. *)
Definition memory_post_updater (role : TranscriptRole) (content : string)
    (timestamp : option string) : UserMemory → sync UserMemory :=
  λ current,
    timestamp' ← match timestamp with
                 | Some t => mret t
                 | None => now
                 end;
    mret (appendTranscriptEntry current
            {| tr_role := role; tr_content := content; tr_timestamp := timestamp' |}).

(** Programs run one after the other, each to its end, without faults. *)
Fixpoint run_each {A : Type} (ps : list (io A)) (files : gmap string raw) (w : World)
    : list (result A) * gmap string raw * World :=
  match ps with
  | [] => ([], files, w)
  | p :: rest =>
      let '(r, files', w') := run p [] files w in
      let '(rs, files'', w'') := run_each rest files' w' in
      (r :: rs, files'', w'')
  end.

(** A turn to append: its role, its content and the timestamp the caller
    gave, if any. *)
Definition append_turn (sessionId : string) (turn : TranscriptRole * string * option string)
    : io UserMemory :=
  updateMemory_fn sessionId
    (returning (memory_post_updater turn.1.1 turn.1.2 turn.2)).

(** The record [updateMemory] loads and the world after the load: the record
    on file, or the default record when there is no file. *)
Definition loaded (sessionId : string) (files : gmap string raw) (w : World)
    : option (UserMemory * World) :=
  match files !! sanitizeSessionId sessionId with
  | Some (Json memory) => Some (memory, w)
  | Some (Garbage _) => None
  | None => Some (createEmptyMemory (sanitizeSessionId sessionId) w)
  end.





Module MemoryRoute.



End MemoryRoute.

(** ** [extractJson] of src/app/api/analyze-answer/route.ts *)

(** [raw.indexOf(c)] and [raw.lastIndexOf(c)] for a one-character [c];
    [None] is JavaScript's [-1]. *)
Fixpoint indexOf (c : ascii) (raw : string) : option nat :=
  match raw with
  | EmptyString => None
  | String a rest => if Ascii.eqb a c then Some 0 else S <$> indexOf c rest
  end.

Fixpoint lastIndexOf (c : ascii) (raw : string) : option nat :=
  match raw with
  | EmptyString => None
  | String a rest =>
      match lastIndexOf c rest with
      | Some i => Some (S i)
      | None => if Ascii.eqb a c then Some 0 else None
      end
  end.

(** [raw.slice(start, stop)] for [start <= stop]. *)
Definition slice (raw : string) (start stop : nat) : string :=
  substring start (stop - start) raw.

Definition no_json : error := Thrown "No JSON object found in response".

Section ExtractJson.

Context {J : Type}.

(** [JSON.parse] on the text of a model's answer. *)
Variable JSON_parse_text : string → result J.

Definition extractJson (raw : string) : result J :=
  match indexOf "{" raw, lastIndexOf "}" raw with
  | Some start, Some stop =>
      if stop <=? start then Err no_json
      else JSON_parse_text (slice raw start (stop + 1))
  | _, _ => Err no_json
  end.

End ExtractJson.

(** The character [c] occurs in [s]. *)
Fixpoint occurs (c : ascii) (s : string) : bool :=
  match s with
  | EmptyString => false
  | String a rest => Ascii.eqb a c || occurs c rest
  end.

(** ** Further notions: the order of the calls under the lock *)

(** The call has entered its function (it may have returned since). *)
Definition entered (t : task) : Prop :=
  match t_phase t with
  | Await_current _ => False
  | Await_fn _ | Returned _ => True
  end.

(** The call has returned, with a record or with an error. *)
Definition returned (t : task) : Prop := ∃ r, t_phase t = Returned r.

(** What more holds of every state the process reaches: a call that has
    returned has released its promise and had found [current] fulfilled; the
    promises a call or the map waits for are those of calls made before for
    the same key; the map has entries for keys of calls only. *)
Record ordered (s : state) : Prop := {
  ord_returned : ∀ tid t, tasks s !! tid = Some t → returned t →
    promise_id (t_next t) ∈ released s
    ∧ fulfilled (released s) (t_current t) = true;
  ord_current : ∀ j tj n, tasks s !! j = Some tj → mentions n (t_current tj) →
    ∃ i ti, i < j ∧ tasks s !! i = Some ti ∧ t_safeId ti = t_safeId tj
            ∧ promise_id (t_next ti) = n;
  ord_locks : ∀ k p n, memoryLocks s !! k = Some p → mentions n p →
    ∃ i ti, tasks s !! i = Some ti ∧ t_safeId ti = k ∧ promise_id (t_next ti) = n;
  ord_dom : ∀ k, is_Some (memoryLocks s !! k) →
    ∃ i ti, tasks s !! i = Some ti ∧ t_safeId ti = k
}.

(** * Properties *)

(** ** JavaScript strings *)

Lemma truthy_Some v s : JS.truthy v = Some s → v = Some s ∧ s ≠ "".
Proof.
  destruct v as [t|]; simpl; [|discriminate].
  destruct t; simpl; [discriminate|]. intros [= <-]. split; [reflexivity|discriminate].
Qed.

Lemma truthy_of_nonempty s : s ≠ "" → JS.truthy (Some s) = Some s.
Proof. destruct s; simpl; [congruence|reflexivity]. Qed.

(** ** IdentitySanitizer *)

Lemma safe_char_allowed c : safe_char c = allowed c.
Proof.
  destruct c as [[] [] [] [] [] [] [] []]; vm_compute; reflexivity.
Qed.

Lemma replace_unsafe_filter s : replace_unsafe s = keep_allowed s.
Proof.
  unfold keep_allowed. induction s as [|c s IH]; simpl; [reflexivity|].
  rewrite <- safe_char_allowed. destruct (safe_char c); simpl; by rewrite IH.
Qed.

Lemma keep_allowed_chars s :
  Forall (λ c, c ∈ allowed_chars) (list_ascii_of_string (keep_allowed s)).
Proof.
  unfold keep_allowed. rewrite list_ascii_of_string_of_list_ascii.
  apply List.Forall_forall. intros c Hc. apply List.filter_In in Hc as [_ Hc].
  unfold allowed in Hc. by apply bool_decide_eq_true in Hc.
Qed.

Example sanitize_traversal : sanitizeSessionId "../../etc/passwd" = "etcpasswd".
Proof. reflexivity. Qed.

Example sanitize_dots : sanitizeSessionId "../.." = "anonymous".
Proof. reflexivity. Qed.

(** C9. [sanitizeSessionId] is a function on all strings; its result is made
    of ASCII letters, digits, underscore and hyphen only; it is the input
    with all other characters removed when that is not empty, and the
    fallback "anonymous" when it is. *)
Theorem sanitizeSessionId_spec (sessionId : string) :
  Forall (λ c, c ∈ allowed_chars) (list_ascii_of_string (sanitizeSessionId sessionId))
  ∧ sanitizeSessionId sessionId =
      (if decide (keep_allowed sessionId = "") then "anonymous"
       else keep_allowed sessionId).
Proof.
  assert (Heq : sanitizeSessionId sessionId =
      if decide (keep_allowed sessionId = "") then "anonymous"
      else keep_allowed sessionId).
  { unfold sanitizeSessionId. rewrite replace_unsafe_filter.
    destruct (keep_allowed sessionId) as [|c s] eqn:E; simpl; reflexivity. }
  split; [|exact Heq].
  rewrite Heq. destruct (decide (keep_allowed sessionId = "")).
  - apply List.Forall_forall. intros c Hc. vm_compute in Hc.
    unfold allowed_chars.
    repeat (destruct Hc as [<-|Hc]; [apply list_elem_of_In; vm_compute; tauto|]).
    destruct Hc.
  - apply keep_allowed_chars.
Qed.

(** ** The synchronous monad and [forEach] *)

Lemma sync_bind_unfold {A B : Type} (c : sync A) (f : A → sync B) (w : World) :
  (c ≫= f) w = f (c w).1 (c w).2.
Proof. unfold mbind, sync_bind. by destruct (c w). Qed.

Lemma forEach_app {A S : Type} (body : A → S → sync S) (l1 l2 : list A) (s : S) (w : World) :
  forEach body (l1 ++ l2) s w =
  forEach body l2 (forEach body l1 s w).1 (forEach body l1 s w).2.
Proof.
  revert s w. induction l1 as [|a l1 IH]; intros s w; simpl; [reflexivity|].
  rewrite !sync_bind_unfold. apply IH.
Qed.

Lemma forEach_ext {A S : Type} (body body' : A → S → sync S) (l : list A) (s : S) (w : World) :
  (∀ a s w, body a s w = body' a s w) →
  forEach body l s w = forEach body' l s w.
Proof.
  intros Hext. revert s w. induction l as [|a l IH]; intros s w; simpl; [reflexivity|].
  rewrite !sync_bind_unfold, Hext. apply IH.
Qed.

(** ** The deduplicating loop *)

Section Dedup.

Context {A B : Type}.
Variable step : A → option (string * sync B).
Variable key_of : B → string.

(** The object pushed for an item carries the item's key. *)
Hypothesis make_key : ∀ a key make w, step a = Some (key, make) → key_of (make w).1 = key.

Lemma push_new_skip a st w :
  (∀ key make, step a = Some (key, make) → key ∈ st.1) →
  push_new step a st w = (st, w).
Proof.
  intros Hin. unfold push_new. destruct (step a) as [[key make]|]; [|reflexivity].
  rewrite bool_decide_eq_true_2; [reflexivity|]. by eapply Hin.
Qed.

Lemma push_new_fresh a key make st w :
  step a = Some (key, make) → key ∉ st.1 →
  push_new step a st w = (({[ key ]} ∪ st.1, st.2 ++ [(make w).1]), (make w).2).
Proof.
  intros Hs Hnin. unfold push_new. rewrite Hs.
  rewrite bool_decide_eq_false_2 by done.
  rewrite sync_bind_unfold. reflexivity.
Qed.

Lemma push_new_mirrors a st w :
  mirrors key_of st → mirrors key_of (push_new step a st w).1.
Proof.
  unfold mirrors. intros Hm.
  destruct (step a) as [[key make]|] eqn:Hs.
  - destruct (decide (key ∈ st.1)) as [Hin|Hnin].
    + rewrite push_new_skip; [done|]. intros k m. rewrite Hs. by intros [= <- <-].
    + rewrite (push_new_fresh _ _ _ _ _ Hs Hnin). simpl.
      rewrite fmap_app, list_to_set_app_L, <- Hm. simpl.
      rewrite (make_key _ _ _ w Hs). set_solver.
  - rewrite push_new_skip; [done|]. intros k m. by rewrite Hs.
Qed.

Lemma push_new_NoDup a st w :
  mirrors key_of st → NoDup (key_of <$> st.2) →
  NoDup (key_of <$> (push_new step a st w).1.2).
Proof.
  unfold mirrors. intros Hm Hnd.
  destruct (step a) as [[key make]|] eqn:Hs.
  - destruct (decide (key ∈ st.1)) as [Hin|Hnin].
    + rewrite push_new_skip; [done|]. intros k m. rewrite Hs. by intros [= <- <-].
    + rewrite (push_new_fresh _ _ _ _ _ Hs Hnin). simpl.
      rewrite fmap_app. simpl. rewrite (make_key _ _ _ w Hs).
      apply NoDup_app. split; [done|]. split; [|apply NoDup_singleton].
      intros k Hk Hk'. apply list_elem_of_singleton in Hk' as ->.
      apply Hnin. rewrite Hm. by apply elem_of_list_to_set.
  - rewrite push_new_skip; [done|]. intros k m. by rewrite Hs.
Qed.

Lemma push_new_grows a st w :
  st.1 ⊆ (push_new step a st w).1.1 ∧
  (∀ key make, step a = Some (key, make) → key ∈ (push_new step a st w).1.1).
Proof.
  destruct (step a) as [[key make]|] eqn:Hs.
  - destruct (decide (key ∈ st.1)) as [Hin|Hnin].
    + rewrite push_new_skip; [|intros k m; rewrite Hs; by intros [= <- <-]].
      split; [done|]. intros k m. by intros [= <- <-].
    + rewrite (push_new_fresh _ _ _ _ _ Hs Hnin). simpl.
      split; [set_solver|]. intros k m. intros [= <- <-]. set_solver.
  - rewrite push_new_skip; [|intros k m; by rewrite Hs]. split; [done|done].
Qed.

Lemma forEach_push_mirrors l st w :
  mirrors key_of st → mirrors key_of (forEach (push_new step) l st w).1.
Proof.
  revert st w. induction l as [|a l IH]; intros st w Hm; simpl; [done|].
  rewrite sync_bind_unfold. apply IH. by apply push_new_mirrors.
Qed.

Lemma forEach_push_NoDup l st w :
  mirrors key_of st → NoDup (key_of <$> st.2) →
  NoDup (key_of <$> (forEach (push_new step) l st w).1.2).
Proof.
  revert st w. induction l as [|a l IH]; intros st w Hm Hnd; simpl; [done|].
  rewrite sync_bind_unfold. apply IH; [by apply push_new_mirrors|by apply push_new_NoDup].
Qed.

Lemma forEach_push_grows l st w :
  st.1 ⊆ (forEach (push_new step) l st w).1.1 ∧
  (∀ a key make, a ∈ l → step a = Some (key, make) →
     key ∈ (forEach (push_new step) l st w).1.1).
Proof.
  revert st w. induction l as [|a l IH]; intros st w; simpl.
  - split; [done|]. intros a key make Ha. by apply elem_of_nil in Ha.
  - rewrite sync_bind_unfold.
    destruct (IH (push_new step a st w).1 (push_new step a st w).2) as [IH1 IH2].
    destruct (push_new_grows a st w) as [G1 G2].
    split; [set_solver|].
    intros a' key make Ha' Hs. apply elem_of_cons in Ha' as [->|Ha'].
    + apply IH1. by eapply G2.
    + by eapply IH2.
Qed.

(** When every incoming key is already in the set, the loop changes nothing
    and reads nothing from the world. *)
Lemma forEach_push_noop l st w :
  (∀ a key make, a ∈ l → step a = Some (key, make) → key ∈ st.1) →
  forEach (push_new step) l st w = (st, w).
Proof.
  revert st w. induction l as [|a l IH]; intros st w Hall; simpl; [reflexivity|].
  rewrite sync_bind_unfold.
  rewrite push_new_skip by (intros k m; apply Hall; left).
  simpl. apply IH. intros a' k m Ha'. apply Hall. by right.
Qed.

(** Running the loop a second time over the same items changes nothing. *)
Lemma forEach_push_twice l st w w' :
  mirrors key_of st →
  forEach (push_new step) l
    (list_to_set (key_of <$> (forEach (push_new step) l st w).1.2),
     (forEach (push_new step) l st w).1.2) w' =
  ((list_to_set (key_of <$> (forEach (push_new step) l st w).1.2),
    (forEach (push_new step) l st w).1.2), w').
Proof.
  intros Hm. apply forEach_push_noop. intros a key make Ha Hs. simpl.
  pose proof (forEach_push_mirrors l st w Hm) as Hm'. unfold mirrors in Hm'.
  rewrite <- Hm'. by eapply (forEach_push_grows l st w).
Qed.

End Dedup.

(** ** MemoryMerger *)

Section MergerFacts.

Variable toLowerCase : string → string.

#[local] Abbreviation post_key := (post_key toLowerCase).
#[local] Abbreviation stored_key := (stored_key toLowerCase).
#[local] Abbreviation item_step := (item_step toLowerCase).
#[local] Abbreviation entry_step := (entry_step toLowerCase).
#[local] Abbreviation merge_items := (merge_items toLowerCase).
#[local] Abbreviation merge_entries := (merge_entries toLowerCase).

Lemma push_item_push_new item st :
  push_item toLowerCase item st = push_new item_step item st.
Proof.
  unfold push_item, push_new, item_step.
  destruct (JS.truthy (ui_text item)); reflexivity.
Qed.

Lemma push_entry_push_new layer entry st :
  push_entry toLowerCase layer entry st = push_new (entry_step layer) entry st.
Proof.
  unfold push_entry, push_new, entry_step.
  destruct (JS.truthy (ue_answer entry)); reflexivity.
Qed.

Lemma item_step_key item key make w :
  item_step item = Some (key, make) → post_key (make w).1 = key.
Proof.
  unfold item_step. destruct (JS.truthy (ui_text item)); [|discriminate].
  intros [= <- <-]. reflexivity.
Qed.

Lemma entry_step_key layer entry key make w :
  entry_step layer entry = Some (key, make) → stored_key (make w).1 = key.
Proof.
  unfold entry_step. destruct (JS.truthy (ue_answer entry)); [|discriminate].
  intros [= <- <-]. reflexivity.
Qed.

Lemma merge_items_unfold stored incoming w :
  merge_items stored incoming w =
  ((forEach (push_new item_step) incoming
      (list_to_set (post_key <$> stored), stored) w).1.2,
   (forEach (push_new item_step) incoming
      (list_to_set (post_key <$> stored), stored) w).2).
Proof.
  unfold merge_items. rewrite sync_bind_unfold.
  rewrite (forEach_ext _ (push_new item_step)) by (intros; by rewrite push_item_push_new).
  reflexivity.
Qed.

Lemma merge_entries_unfold layer stored incoming w :
  merge_entries layer stored incoming w =
  ((forEach (push_new (entry_step layer)) incoming
      (list_to_set (stored_key <$> stored), stored) w).1.2,
   (forEach (push_new (entry_step layer)) incoming
      (list_to_set (stored_key <$> stored), stored) w).2).
Proof.
  unfold merge_entries. rewrite sync_bind_unfold.
  rewrite (forEach_ext _ (push_new (entry_step layer)))
    by (intros; by rewrite push_entry_push_new).
  reflexivity.
Qed.

Lemma merge_items_twice stored incoming w w' :
  merge_items (merge_items stored incoming w).1 incoming w' =
  ((merge_items stored incoming w).1, w').
Proof.
  rewrite (merge_items_unfold _ _ w'). rewrite (merge_items_unfold stored incoming w). simpl.
  rewrite (forEach_push_twice item_step post_key item_step_key) by reflexivity.
  reflexivity.
Qed.

Lemma merge_entries_twice layer stored incoming w w' :
  merge_entries layer (merge_entries layer stored incoming w).1 incoming w' =
  ((merge_entries layer stored incoming w).1, w').
Proof.
  rewrite (merge_entries_unfold _ _ _ w'). rewrite (merge_entries_unfold layer stored incoming w).
  simpl.
  rewrite (forEach_push_twice (entry_step layer) stored_key (entry_step_key layer))
    by reflexivity.
  reflexivity.
Qed.

Lemma merge_items_NoDup stored incoming w :
  NoDup (post_key <$> stored) →
  NoDup (post_key <$> (merge_items stored incoming w).1).
Proof.
  intros Hnd. rewrite merge_items_unfold. simpl.
  apply (forEach_push_NoDup item_step post_key item_step_key); [reflexivity|done].
Qed.

Lemma merge_entries_NoDup layer stored incoming w :
  NoDup (stored_key <$> stored) →
  NoDup (stored_key <$> (merge_entries layer stored incoming w).1).
Proof.
  intros Hnd. rewrite merge_entries_unfold. simpl.
  apply (forEach_push_NoDup (entry_step layer) stored_key (entry_step_key layer));
    [reflexivity|done].
Qed.

Lemma assign_if_truthy_twice v old :
  assign_if_truthy v (assign_if_truthy v old) = assign_if_truthy v old.
Proof. unfold assign_if_truthy. destruct (JS.truthy v); reflexivity. Qed.

Lemma merge_layer_part tree layer memory w :
  merge_layer toLowerCase tree layer memory w =
  let r := layer_part toLowerCase (Some tree) layer
             (layer_entries layer (psychoTree memory)) w in
  (set_psychoTree (set_layer_entries layer r.1) memory, r.2).
Proof.
  unfold merge_layer, layer_part. simpl.
  destruct (update_layer layer tree) as [[|e es]|]; simpl.
  1,3: unfold mret, sync_ret; simpl; f_equal;
    destruct memory as [u s [] tr lf ca ua], layer; reflexivity.
  rewrite sync_bind_unfold. reflexivity.
Qed.

Lemma forEach_merge_layer tree memory w :
  forEach (merge_layer toLowerCase tree) [leaves; branches; trunk; roots] memory w =
  let t := tree_part toLowerCase (Some tree) (psychoTree memory) w in
  (set_psychoTree (λ _, t.1) memory, t.2).
Proof.
  unfold tree_part. simpl. rewrite !sync_bind_unfold, !merge_layer_part. simpl.
  destruct memory as [u s [] tr lf ca ua]; simpl. reflexivity.
Qed.

(** [applyMemoryUpdate] is the four parts, one after the other. *)
Lemma applyMemoryUpdate_parts memory update w :
  applyMemoryUpdate toLowerCase memory update w =
  let i := instagram_part toLowerCase update (instagram (social memory)) w in
  let l := linkedin_part toLowerCase update (linkedin (social memory)) i.2 in
  let t := tree_part toLowerCase (mu_psychoTree update) (psychoTree memory) l.2 in
  ({| user := user_part update (user memory);
      social := {| instagram := i.1; linkedin := l.1 |};
      psychoTree := t.1;
      transcript := transcript memory;
      lastFollowup := lastFollowup memory;
      createdAt := createdAt memory;
      updatedAt := updatedAt memory |}, t.2).
Proof.
  destruct memory as [[uid un ue] [[ih iu ip] [lp la]] [ta tb tc td] tr lf ca ua].
  destruct update as [uu us ut uh].
  unfold applyMemoryUpdate, instagram_part, linkedin_part, user_part.
  cbn [mu_user mu_social mu_psychoTree user social psychoTree transcript
       lastFollowup createdAt updatedAt instagram linkedin].
  rewrite !sync_bind_unfold.
  assert (Ht : ∀ m w',
    match ut with
    | Some tree =>
        forEach (merge_layer toLowerCase tree) [leaves; branches; trunk; roots] m
    | None => mret m
    end w' =
    (set_psychoTree (λ _, (tree_part toLowerCase ut (psychoTree m) w').1) m,
     (tree_part toLowerCase ut (psychoTree m) w').2)).
  { intros m w'. destruct ut; [apply forEach_merge_layer|].
    destruct m as [u s [] tr' lf' ca' ua']; reflexivity. }
  rewrite Ht. clear Ht.
  destruct (us ≫= us_instagram) as [ig|]; destruct (us ≫= us_linkedin) as [li|].
  all: repeat match goal with
       | |- context [uig_posts ?x] => destruct (uig_posts x)
       | |- context [uli_activities ?x] => destruct (uli_activities x)
       end.
  all: rewrite ?sync_bind_unfold; reflexivity.
Qed.

Lemma user_part_twice update u :
  user_part update (user_part update u) = user_part update u.
Proof. unfold user_part. simpl. by rewrite !assign_if_truthy_twice. Qed.

Lemma instagram_part_twice update i w w' :
  instagram_part toLowerCase update (instagram_part toLowerCase update i w).1 w' =
  ((instagram_part toLowerCase update i w).1, w').
Proof.
  unfold instagram_part. destruct (mu_social update ≫= us_instagram) as [ig|]; [|reflexivity].
  rewrite !sync_bind_unfold. simpl. rewrite !assign_if_truthy_twice.
  destruct (uig_posts ig) as [posts|]; [|reflexivity].
  rewrite merge_items_twice. reflexivity.
Qed.

Lemma linkedin_part_twice update l w w' :
  linkedin_part toLowerCase update (linkedin_part toLowerCase update l w).1 w' =
  ((linkedin_part toLowerCase update l w).1, w').
Proof.
  unfold linkedin_part. destruct (mu_social update ≫= us_linkedin) as [li|]; [|reflexivity].
  rewrite !sync_bind_unfold. simpl. rewrite !assign_if_truthy_twice.
  destruct (uli_activities li) as [activities|]; [|reflexivity].
  rewrite merge_items_twice. reflexivity.
Qed.

Lemma layer_part_twice tree layer stored w w' :
  layer_part toLowerCase tree layer (layer_part toLowerCase tree layer stored w).1 w' =
  ((layer_part toLowerCase tree layer stored w).1, w').
Proof.
  unfold layer_part. destruct (tree ≫= update_layer layer) as [[|e es]|]; [reflexivity| |reflexivity].
  apply merge_entries_twice.
Qed.

Lemma tree_part_twice tree t w w' :
  tree_part toLowerCase tree (tree_part toLowerCase tree t w).1 w' =
  ((tree_part toLowerCase tree t w).1, w').
Proof.
  unfold tree_part. rewrite !sync_bind_unfold. simpl.
  rewrite !layer_part_twice. reflexivity.
Qed.

End MergerFacts.

(** C1. Merging is idempotent: applying [applyMemoryUpdate] with the same
    fragment a second time, whatever identifiers and clock readings the
    second run would get, returns the record of the first run unchanged (and
    draws no identifier and reads no clock). *)
Theorem applyMemoryUpdate_idempotent (toLowerCase : string → string)
    (r : UserMemory) (f : MemoryUpdate) (w w' : World) :
  applyMemoryUpdate toLowerCase (applyMemoryUpdate toLowerCase r f w).1 f w' =
  ((applyMemoryUpdate toLowerCase r f w).1, w').
Proof.
  rewrite (applyMemoryUpdate_parts toLowerCase _ f w').
  rewrite (applyMemoryUpdate_parts toLowerCase r f w).
  cbn [fst snd user social psychoTree instagram linkedin transcript lastFollowup
       createdAt updatedAt].
  rewrite user_part_twice, instagram_part_twice. cbn [fst snd].
  rewrite linkedin_part_twice. cbn [fst snd].
  rewrite tree_part_twice. reflexivity.
Qed.

(** ** Uniqueness of posts and activities *)

Lemma instagram_part_unique toLowerCase update i w :
  unique_texts toLowerCase (ig_posts i) →
  unique_texts toLowerCase (ig_posts (instagram_part toLowerCase update i w).1).
Proof.
  intros Hu. unfold instagram_part.
  destruct (mu_social update ≫= us_instagram) as [ig|]; [|done].
  rewrite sync_bind_unfold. simpl.
  destruct (uig_posts ig) as [posts|]; [|done]. by apply merge_items_NoDup.
Qed.

Lemma linkedin_part_unique toLowerCase update l w :
  unique_texts toLowerCase (li_activities l) →
  unique_texts toLowerCase (li_activities (linkedin_part toLowerCase update l w).1).
Proof.
  intros Hu. unfold linkedin_part.
  destruct (mu_social update ≫= us_linkedin) as [li|]; [|done].
  rewrite sync_bind_unfold. simpl.
  destruct (uli_activities li) as [activities|]; [|done]. by apply merge_items_NoDup.
Qed.

Lemma merge_items_hello toLowerCase w :
  toLowerCase "Hello" = toLowerCase "hello" →
  length (merge_items toLowerCase []
            [ {| ui_text := Some "Hello"; ui_date := None; ui_url := None |};
              {| ui_text := Some "hello"; ui_date := None; ui_url := None |} ] w).1 = 1.
Proof.
  intros Heq. rewrite merge_items_unfold.
  cbn [fst snd forEach fmap list_fmap list_to_set foldr].
  rewrite !sync_bind_unfold.
  assert (Hnin : toLowerCase "Hello" ∉ (∅ : gset string)) by set_solver.
  rewrite (push_new_fresh (item_step toLowerCase)
             {| ui_text := Some "Hello"; ui_date := None; ui_url := None |}
             (toLowerCase "Hello") _ (∅, []) w eq_refl Hnin).
  cbn [fst snd].
  rewrite push_new_skip; [reflexivity|].
  intros key make [= <- <-]. cbn [fst]. rewrite Heq. set_solver.
Qed.

(** C6. Every merge preserves the uniqueness of posts and of activities: if
    no two stored posts and no two stored activities share their lower-cased
    text, the same holds after [applyMemoryUpdate]. In particular, merging
    the posts "Hello" and "hello" into a record without posts stores exactly
    one post. *)
Theorem applyMemoryUpdate_unique_texts (toLowerCase : string → string)
    (r : UserMemory) (f : MemoryUpdate) (w : World) :
  unique_texts toLowerCase (ig_posts (instagram (social r))) →
  unique_texts toLowerCase (li_activities (linkedin (social r))) →
  unique_texts toLowerCase
    (ig_posts (instagram (social (applyMemoryUpdate toLowerCase r f w).1)))
  ∧ unique_texts toLowerCase
      (li_activities (linkedin (social (applyMemoryUpdate toLowerCase r f w).1)))
  ∧ (ig_posts (instagram (social r)) = [] →
     toLowerCase "Hello" = toLowerCase "hello" →
     length (ig_posts (instagram (social
       (applyMemoryUpdate toLowerCase r (posts_fragment ["Hello"; "hello"]) w).1))) = 1).
Proof.
  intros Hp Ha. rewrite !applyMemoryUpdate_parts. cbn [fst snd social instagram linkedin].
  split; [by apply instagram_part_unique|].
  split; [by apply linkedin_part_unique|].
  intros Hnil Heq. unfold instagram_part. simpl. rewrite sync_bind_unfold. simpl.
  rewrite Hnil. by apply merge_items_hello.
Qed.

(** ** Social profile fields *)

Lemma assign_if_truthy_spec v old :
  overwritten_only_when_supplied v old (assign_if_truthy v old).
Proof.
  unfold overwritten_only_when_supplied, assign_if_truthy, known.
  destruct (JS.truthy v) as [s|] eqn:Ht.
  - apply truthy_Some in Ht as [-> Hs].
    split; [done|]. split; [|by eauto]. intros Hn. destruct Hn. by eauto.
  - split; [|split; done].
    intros (s & -> & Hs). by rewrite truthy_of_nonempty in Ht.
Qed.

Lemma instagram_part_handle toLowerCase update i w :
  ig_handle (instagram_part toLowerCase update i w).1 =
  assign_if_truthy (supplied_handle update) (ig_handle i)
  ∧ ig_url (instagram_part toLowerCase update i w).1 =
    assign_if_truthy (supplied_url update) (ig_url i).
Proof.
  unfold instagram_part, supplied_handle, supplied_url.
  destruct (mu_social update ≫= us_instagram) as [ig|]; [|done].
  rewrite sync_bind_unfold. done.
Qed.

Lemma linkedin_part_profileUrl toLowerCase update l w :
  li_profileUrl (linkedin_part toLowerCase update l w).1 =
  assign_if_truthy (supplied_profileUrl update) (li_profileUrl l).
Proof.
  unfold linkedin_part, supplied_profileUrl.
  destruct (mu_social update ≫= us_linkedin) as [li|]; [|done].
  rewrite sync_bind_unfold. done.
Qed.

(** C10. [applyMemoryUpdate] overwrites [instagram.handle], [instagram.url]
    and [linkedin.profileUrl] exactly when the fragment supplies a non-empty
    value for them, and with that value; a known stored value is never
    replaced by null or by the empty string. *)
Theorem applyMemoryUpdate_social_fields (toLowerCase : string → string)
    (r : UserMemory) (f : MemoryUpdate) (w : World) :
  overwritten_only_when_supplied (supplied_handle f)
    (ig_handle (instagram (social r)))
    (ig_handle (instagram (social (applyMemoryUpdate toLowerCase r f w).1)))
  ∧ overwritten_only_when_supplied (supplied_url f)
      (ig_url (instagram (social r)))
      (ig_url (instagram (social (applyMemoryUpdate toLowerCase r f w).1)))
  ∧ overwritten_only_when_supplied (supplied_profileUrl f)
      (li_profileUrl (linkedin (social r)))
      (li_profileUrl (linkedin (social (applyMemoryUpdate toLowerCase r f w).1))).
Proof.
  rewrite applyMemoryUpdate_parts. cbn [fst snd social instagram linkedin].
  destruct (instagram_part_handle toLowerCase f (instagram (social r)) w) as [-> ->].
  rewrite linkedin_part_profileUrl.
  repeat split; apply assign_if_truthy_spec.
Qed.

(** ** Profile-tree entries *)

Section EntryFacts.

Variable toLowerCase : string → string.

Lemma merge_entries_app layer stored pre rest w :
  merge_entries toLowerCase layer stored (pre ++ rest) w =
  merge_entries toLowerCase layer
    (merge_entries toLowerCase layer stored pre w).1 rest
    (merge_entries toLowerCase layer stored pre w).2.
Proof.
  rewrite !merge_entries_unfold. cbn [fst snd]. rewrite forEach_app.
  pose proof (forEach_push_mirrors (entry_step toLowerCase layer)
    (stored_key toLowerCase) (entry_step_key toLowerCase layer) pre
    (list_to_set (stored_key toLowerCase <$> stored), stored) w eq_refl) as Hm.
  unfold mirrors in Hm.
  destruct (forEach _ pre _ w) as [[S1 L1] w1]. cbn [fst snd] in *. subst S1.
  reflexivity.
Qed.

Lemma merge_entries_cons layer stored entry post answer w :
  JS.truthy (ue_answer entry) = Some answer →
  merge_entries toLowerCase layer stored (entry :: post) w =
  if decide (entry_key toLowerCase (ue_question entry) answer
             ∈ stored_key toLowerCase <$> stored)
  then merge_entries toLowerCase layer stored post w
  else merge_entries toLowerCase layer
         (stored ++ [pushed_entry layer entry answer
                       (randomUUID w).1 (now (randomUUID w).2).1])
         post (now (randomUUID w).2).2.
Proof.
  intros Ha.
  assert (Hs : entry_step toLowerCase layer entry =
    Some (entry_key toLowerCase (ue_question entry) answer,
          id ← randomUUID; timestamp ← now;
          mret (pushed_entry layer entry answer id timestamp))).
  { unfold entry_step. rewrite Ha. reflexivity. }
  rewrite !merge_entries_unfold. cbn [forEach]. rewrite !sync_bind_unfold.
  case_decide as Hin.
  - rewrite push_new_skip; [reflexivity|].
    intros key make. rewrite Hs. intros [= <- <-]. cbn [fst].
    by apply elem_of_list_to_set.
  - rewrite (push_new_fresh _ _ _ _ _ _ Hs)
      by (cbn [fst]; by rewrite elem_of_list_to_set).
    cbn [fst snd]. rewrite !sync_bind_unfold. cbn [fst snd mret sync_ret].
    replace ({[entry_key toLowerCase (ue_question entry) answer]}
             ∪ list_to_set (stored_key toLowerCase <$> stored) : gset string)
      with (list_to_set (stored_key toLowerCase <$>
              stored ++ [pushed_entry layer entry answer
                           (randomUUID w).1 (now (randomUUID w).2).1]) : gset string).
    + reflexivity.
    + rewrite fmap_app, list_to_set_app_L. cbn. set_solver.
Qed.

Lemma applyMemoryUpdate_layer memory update layer w :
  layer_entries layer (psychoTree (applyMemoryUpdate toLowerCase memory update w).1) =
  (layer_part toLowerCase (mu_psychoTree update) layer
     (layer_entries layer (psychoTree memory))
     (layer_start toLowerCase memory update layer w)).1.
Proof.
  rewrite applyMemoryUpdate_parts. cbn [fst snd psychoTree].
  unfold tree_part, layer_start. rewrite !sync_bind_unfold. cbn [fst snd mret sync_ret].
  destruct layer; reflexivity.
Qed.

End EntryFacts.

(** C2 (amended). For every record, layer and incoming entry with a non-empty
    answer, [applyMemoryUpdate] appends the entry to the layer if and only if
    no entry of the layer, as it is when the entry is reached, has the same
    key, the key being the lower-cased string question + ":" + answer with
    an absent question read as empty. The appended entry gets the next
    identifier of [randomUUID], the layer tag, the clock reading made right
    after, and its tags as a list (empty when none were given). *)
Theorem applyMemoryUpdate_entry (toLowerCase : string → string)
    (r : UserMemory) (f : MemoryUpdate) (layer : PsychoLayer)
    (pre post : list UpdateEntry) (entry : UpdateEntry) (answer : string) (w : World) :
  mu_psychoTree f ≫= update_layer layer = Some (pre ++ entry :: post) →
  JS.truthy (ue_answer entry) = Some answer →
  let reached :=
    merge_entries toLowerCase layer (layer_entries layer (psychoTree r)) pre
      (layer_start toLowerCase r f layer w) in
  let id := randomUUID reached.2 in
  let timestamp := now id.2 in
  layer_entries layer (psychoTree (applyMemoryUpdate toLowerCase r f w).1) =
  if decide (entry_key toLowerCase (ue_question entry) answer
             ∈ stored_key toLowerCase <$> reached.1)
  then (merge_entries toLowerCase layer reached.1 post reached.2).1
  else (merge_entries toLowerCase layer
          (reached.1 ++ [pushed_entry layer entry answer id.1 timestamp.1])
          post timestamp.2).1.
Proof.
  intros Hf Ha. cbn zeta. rewrite applyMemoryUpdate_layer. unfold layer_part. rewrite Hf.
  destruct (pre ++ entry :: post) as [|e0 es] eqn:Hl.
  { by destruct pre. }
  rewrite <- Hl. rewrite merge_entries_app.
  rewrite (merge_entries_cons _ _ _ _ _ _ _ Ha).
  case_decide; reflexivity.
Qed.

Lemma applyMemoryUpdate_entry_witness :
  mu_psychoTree (leaves_fragment [entry_of (Some "a:b") "c"; entry_of None "I love hiking"])
    ≫= update_layer leaves
  = Some ([entry_of (Some "a:b") "c"] ++ entry_of None "I love hiking" :: [])
  ∧ JS.truthy (ue_answer (entry_of None "I love hiking")) = Some "I love hiking"
  ∧ pe_answer <$> layer_entries leaves
      (psychoTree (applyMemoryUpdate JS.toLowerCase_ascii colon_record
         (leaves_fragment [entry_of (Some "a:b") "c"; entry_of None "I love hiking"])
         world0).1)
    = ["b:c"; "I love hiking"].
Proof.
  split; [reflexivity|]. split; [reflexivity|].
  rewrite (applyMemoryUpdate_entry JS.toLowerCase_ascii colon_record
             (leaves_fragment [entry_of (Some "a:b") "c"; entry_of None "I love hiking"])
             leaves [entry_of (Some "a:b") "c"] [] (entry_of None "I love hiking")
             "I love hiking" world0 eq_refl eq_refl).
  vm_compute. reflexivity.
Defined.

(** C2, as stated, fails: the stored entry (question "a", answer "b:c") and
    the incoming one (question "a:b", answer "c") are different pairs, also
    up to case, yet both have the key "a:b:c" and the incoming entry is not
    appended. *)
Lemma colon_entry_not_appended :
  JS.truthy (ue_answer (entry_of (Some "a:b") "c")) = Some "c"
  ∧ (∀ e, e ∈ layer_entries leaves (psychoTree colon_record) →
       ¬ same_pair JS.toLowerCase_ascii (pe_question e) (pe_answer e) (Some "a:b") "c")
  ∧ layer_entries leaves
      (psychoTree (applyMemoryUpdate JS.toLowerCase_ascii colon_record
                     (leaves_fragment [entry_of (Some "a:b") "c"]) world0).1)
    = layer_entries leaves (psychoTree colon_record).
Proof.
  split; [reflexivity|]. split; [|vm_compute; reflexivity].
  intros e He. apply list_elem_of_singleton in He as ->.
  intros [Hq _]. vm_compute in Hq. discriminate.
Qed.

Lemma applyMemoryUpdate_unique_texts_witness :
  unique_texts JS.toLowerCase_ascii (ig_posts (instagram (social sunset_record)))
  ∧ unique_texts JS.toLowerCase_ascii (li_activities (linkedin (social sunset_record)))
  ∧ unique_texts JS.toLowerCase_ascii
      (ig_posts (instagram (social
         (applyMemoryUpdate JS.toLowerCase_ascii sunset_record
            (posts_fragment ["sunset pic"; "Hello"; "hello"]) world0).1))).
Proof.
  assert (H1 : unique_texts JS.toLowerCase_ascii (ig_posts (instagram (social sunset_record)))).
  { apply NoDup_singleton. }
  assert (H2 : unique_texts JS.toLowerCase_ascii
                 (li_activities (linkedin (social sunset_record)))).
  { apply NoDup_nil_2. }
  split; [exact H1|]. split; [exact H2|].
  exact (proj1 (applyMemoryUpdate_unique_texts JS.toLowerCase_ascii sunset_record
           (posts_fragment ["sunset pic"; "Hello"; "hello"]) world0 H1 H2)).
Defined.

Example sunset_posts :
  sp_text <$> ig_posts (instagram (social
     (applyMemoryUpdate JS.toLowerCase_ascii sunset_record
        (posts_fragment ["sunset pic"; "Hello"; "hello"]) world0).1))
  = ["Sunset pic"; "Hello"].
Proof. vm_compute. reflexivity. Qed.

(** ** The follow-up decision *)

(** C3 (amended). [POST] stores the follow-up decision it was given in
    [lastFollowup] as it is, whatever its target layer and whatever the
    record holds. *)
Theorem analyze_answer_stores_followup (toLowerCase : string → string)
    (transcript' : string) (extraction : MemoryUpdate) (followup : FollowupSignal)
    (current : UserMemory) (w : World) :
  lastFollowup
    (analyze_answer_updater toLowerCase transcript' extraction followup current w).1
  = Some followup.
Proof.
  unfold analyze_answer_updater. rewrite !sync_bind_unfold. reflexivity.
Qed.

(** C3, as stated, fails: on a fresh session, with no entry in any layer, a
    decision that targets [roots] is written to the file of the session. *)
Lemma roots_followup_persisted :
  ∃ persisted,
    (run (updateMemory_fn "abc123"
            (returning (analyze_answer_updater JS.toLowerCase_ascii "hi"
                          no_extraction roots_followup)))
         [] ∅ world0).1.2 !! "abc123" = Some (Json persisted)
    ∧ countLayer persisted leaves + countLayer persisted branches < 3
    ∧ lastFollowup persisted = Some roots_followup
    ∧ fs_targetLayer roots_followup = target roots.
Proof.
  eexists. split; [vm_compute; reflexivity|]. split; [vm_compute; lia|].
  split; reflexivity.
Qed.

(** ** RecordStore *)

Lemma fault_code_not_ENOENT (e : fault) : fault_code e ≠ "ENOENT".
Proof. destruct e; discriminate. Qed.

(** [readMemoryFile] run alone, under any faults of its three fs calls. *)
Lemma run_readMemoryFile sessionId f_mkdir f_read f_write rest files w :
  run (readMemoryFile sessionId) (f_mkdir :: f_read :: f_write :: rest) files w =
  let safeId := sanitizeSessionId sessionId in
  match f_mkdir, f_read with
  | Some e, _ => (Err (ErrnoException (fault_code e)), files, w)
  | None, Some e => (Err (ErrnoException (fault_code e)), files, w)
  | None, None =>
      match files !! safeId with
      | Some (Json memory) => (Ok memory, files, w)
      | Some (Garbage _) => (Err SyntaxError, files, w)
      | None =>
          let d := createEmptyMemory safeId w in
          match f_write with
          | Some e => (Err (ErrnoException (fault_code e)), files, d.2)
          | None => (Ok d.1, <[safeId := Json d.1]> files, d.2)
          end
      end
  end.
Proof.
  unfold readMemoryFile, ensureMemoryDir, fs_mkdir, fs_readFile, fs_writeFile.
  cbn -[sanitizeSessionId createEmptyMemory].
  destruct f_mkdir as [e|]; [reflexivity|].
  cbn -[sanitizeSessionId createEmptyMemory].
  destruct f_read as [e|]; cbn -[sanitizeSessionId createEmptyMemory].
  { rewrite decide_True; [reflexivity|].
    intros [= H]. by apply fault_code_not_ENOENT in H. }
  destruct (files !! sanitizeSessionId sessionId) as [[memory|text]|];
    cbn -[sanitizeSessionId createEmptyMemory decide]; [reflexivity|reflexivity|].
  rewrite decide_False by (intros H; by apply H).
  cbn -[sanitizeSessionId createEmptyMemory].
  destruct (createEmptyMemory (sanitizeSessionId sessionId) w) as [d w'].
  destruct f_write as [e|]; reflexivity.
Qed.

(** Faults that are not listed are absent. *)
Lemma run_pad {A : Type} (p : io A) faults n files w :
  run p faults files w = run p (faults ++ replicate n None) files w.
Proof.
  revert faults n files w.
  induction p as [a|e|k IH|safeId k IH|safeId data k IH|B c k IH|u m k IH];
    intros faults n files w; try reflexivity; cbn.
  - destruct faults as [|f faults]; [destruct n as [|n]; [reflexivity|]|]; cbn.
    + apply (IH _ [] n).
    + apply IH.
  - destruct faults as [|f faults]; [destruct n as [|n]; [reflexivity|]|]; cbn.
    + apply (IH _ [] n).
    + apply IH.
  - destruct faults as [|f faults]; [destruct n as [|n]; [reflexivity|]|]; cbn.
    + apply (IH _ [] n).
    + apply IH.
  - destruct (c w) as [b w']. apply IH.
  - destruct (u m w) as [r w']. apply IH.
Qed.

Lemma run_pad3 {A : Type} (p : io A) faults files w :
  ∃ a b c rest, run p faults files w = run p (a :: b :: c :: rest) files w.
Proof.
  destruct faults as [|a [|b [|c rest]]].
  - exists None, None, None, []. apply (run_pad p [] 3).
  - exists a, None, None, []. apply (run_pad p [a] 2).
  - exists a, b, None, []. apply (run_pad p [a; b] 1).
  - exists a, b, c, rest. reflexivity.
Qed.

Lemma run_nil_faults {A : Type} (p : io A) files w :
  run p [] files w = run p [None; None; None] files w.
Proof. apply (run_pad p [] 3). Qed.

(** C8. [getMemory] returns the persisted record of the key. If none
    exists, it creates the default empty record (all collections empty, no
    follow-up, [createdAt] and [updatedAt] both the clock reading), writes
    it and returns it. If a file exists, whatever it holds and whatever
    fails, nothing is written. A read that fails for another reason than
    absence, and a file that does not parse, give the error: no default
    record takes its place. *)
Theorem getMemory_spec (sessionId : string) (files : gmap string raw) (w : World) :
  let safeId := sanitizeSessionId sessionId in
  let d := (createEmptyMemory safeId w).1 in
  (∀ memory, files !! safeId = Some (Json memory) →
     run (getMemory sessionId) [] files w = (Ok memory, files, w))
  ∧ (files !! safeId = None →
     run (getMemory sessionId) [] files w
       = (Ok d, <[safeId := Json d]> files, (createEmptyMemory safeId w).2)
     ∧ user d = {| user_id := safeId; user_name := None; user_email := None |}
     ∧ ig_posts (instagram (social d)) = []
     ∧ li_activities (linkedin (social d)) = []
     ∧ (∀ layer, layer_entries layer (psychoTree d) = [])
     ∧ transcript d = []
     ∧ lastFollowup d = None
     ∧ createdAt d = (now w).1 ∧ updatedAt d = (now w).1)
  ∧ (∀ faults, is_Some (files !! safeId) →
     (run (getMemory sessionId) faults files w).1.2 = files)
  ∧ (∀ text, files !! safeId = Some (Garbage text) →
     run (getMemory sessionId) [] files w = (Err SyntaxError, files, w))
  ∧ (∀ e rest,
     run (getMemory sessionId) (None :: Some e :: rest) files w
       = (Err (ErrnoException (fault_code e)), files, w)
     ∧ error_code (ErrnoException (fault_code e)) ≠ Some "ENOENT").
Proof.
  intros safeId d. unfold getMemory.
  split; [|split; [|split; [|split]]].
  - intros memory Hm. rewrite run_nil_faults, run_readMemoryFile. cbn zeta.
    fold safeId. by rewrite Hm.
  - intros Hnone. split.
    + rewrite run_nil_faults, run_readMemoryFile. cbn zeta. fold safeId.
      by rewrite Hnone.
    + repeat split. by intros [].
  - intros faults [r Hr].
    destruct (run_pad3 (readMemoryFile sessionId) faults files w)
      as (a & b & c & rest & ->).
    rewrite run_readMemoryFile. cbn zeta. fold safeId. rewrite Hr.
    destruct a, b, r; reflexivity.
  - intros text Hg. rewrite run_nil_faults, run_readMemoryFile. cbn zeta.
    fold safeId. by rewrite Hg.
  - intros e rest. split.
    + destruct rest as [|c rest].
      * rewrite (run_pad _ [None; Some e] 1). cbn [app replicate].
        by rewrite run_readMemoryFile.
      * by rewrite run_readMemoryFile.
    + intros [= H]. by apply fault_code_not_ENOENT in H.
Qed.

(** [updateMemory]'s function run alone on a key whose record exists. *)
Lemma run_updateMemory_fn_existing sessionId updater memory f_mkdir f_read rest files w :
  files !! sanitizeSessionId sessionId = Some (Json memory) →
  run (updateMemory_fn sessionId updater) (f_mkdir :: f_read :: rest) files w =
  match f_mkdir, f_read with
  | Some e, _ => (Err (ErrnoException (fault_code e)), files, w)
  | None, Some e => (Err (ErrnoException (fault_code e)), files, w)
  | None, None =>
      match updater memory w with
      | (Err e, w') => (Err e, files, w')
      | (Ok updated, w') =>
          run (updatedAt' ← lift now;
               let updated := set_updatedAt updatedAt' updated in
               _ ← writeMemoryFile sessionId updated;
               mret updated) rest files w'
      end
  end.
Proof.
  intros Hfile.
  unfold updateMemory_fn, readMemoryFile, ensureMemoryDir, fs_mkdir, fs_readFile,
    fs_writeFile, invoke.
  cbn -[sanitizeSessionId createEmptyMemory decide now].
  destruct f_mkdir as [e|]; [reflexivity|].
  cbn -[sanitizeSessionId createEmptyMemory decide now].
  destruct f_read as [e|]; cbn -[sanitizeSessionId createEmptyMemory decide now].
  { rewrite decide_True; [reflexivity|].
    intros [= H]. by apply fault_code_not_ENOENT in H. }
  rewrite Hfile. cbn -[sanitizeSessionId createEmptyMemory decide now].
  destruct (updater memory w) as [[updated|e] w']; reflexivity.
Qed.

(** C7. [updateMemory] is atomic on failure: when the updater throws on the
    record persisted for the key, the update fails with what it threw and
    the store is left as it was; under any faults of the fs calls the update
    still fails and still writes nothing. *)
Theorem updateMemory_failure_atomic (sessionId : string) (updater : Updater)
    (files : gmap string raw) (w : World) (memory : UserMemory) (e : error) :
  files !! sanitizeSessionId sessionId = Some (Json memory) →
  (updater memory w).1 = Err e →
  run (updateMemory_fn sessionId updater) [] files w = (Err e, files, (updater memory w).2)
  ∧ ∀ faults,
      is_Err (run (updateMemory_fn sessionId updater) faults files w).1.1
      ∧ (run (updateMemory_fn sessionId updater) faults files w).1.2 = files.
Proof.
  intros Hfile Hthrow. split.
  - rewrite run_nil_faults.
    rewrite (run_updateMemory_fn_existing _ _ _ _ _ _ _ _ Hfile).
    destruct (updater memory w) as [r w']. cbn in Hthrow. by subst r.
  - intros faults.
    destruct (run_pad3 (updateMemory_fn sessionId updater) faults files w)
      as (a & b & c & rest & ->).
    rewrite (run_updateMemory_fn_existing _ _ _ _ _ _ _ _ Hfile).
    destruct a; [done|]. destruct b; [done|].
    destruct (updater memory w) as [r w']. cbn in Hthrow. by subst r.
Qed.

Lemma updateMemory_failure_atomic_witness :
  let files : gmap string raw := {[ "abc123" := Json sunset_record ]} in
  files !! sanitizeSessionId "abc/123" = Some (Json sunset_record)
  ∧ (throwing "boom" sunset_record world0).1 = Err (Thrown "boom")
  ∧ run (updateMemory_fn "abc/123" (throwing "boom")) [] files world0
    = (Err (Thrown "boom"), files, world0).
Proof.
  split; [reflexivity|]. split; [reflexivity|].
  exact (proj1 (updateMemory_failure_atomic "abc/123" (throwing "boom")
           {[ "abc123" := Json sunset_record ]} world0 sunset_record (Thrown "boom")
           eq_refl eq_refl)).
Defined.

(** ** SessionLock *)

Lemma fulfilled_mentions rel p n :
  fulfilled rel p = true → mentions n p → n ∈ rel.
Proof.
  induction p as [id|id|id c IHc nx IHn]; simpl.
  - intros _ [].
  - intros H <-. by apply bool_decide_eq_true in H.
  - intros H [Hm|Hm]; apply andb_true_iff in H as [H1 H2]; eauto.
Qed.

Lemma fulfilled_mono rel rel' p :
  rel ⊆ rel' → fulfilled rel p = true → fulfilled rel' p = true.
Proof.
  intros Hsub. induction p as [id|id|id c IHc nx IHn]; simpl; [done| |].
  - intros H. apply bool_decide_eq_true in H. apply bool_decide_eq_true. set_solver.
  - intros H. apply andb_true_iff in H as [H1 H2]. apply andb_true_iff. eauto.
Qed.

(** What is left of [updateMemory]'s function once the record is loaded. *)
Lemma coherent_after_load sessionId updater memory content observed :
  content = Some (Json memory) →
  coherent (sanitizeSessionId sessionId)
    (updated ← invoke updater memory;
     updatedAt' ← lift now;
     let updated := set_updatedAt updatedAt' updated in
     _ ← writeMemoryFile sessionId updated;
     mret updated) content observed.
Proof.
  intros ->. unfold writeMemoryFile, ensureMemoryDir, fs_mkdir, fs_writeFile, invoke, lift.
  cbn -[sanitizeSessionId now]. split; [done|].
  intros [updated|e]; cbn -[sanitizeSessionId now]; [|done].
  intros ts [e|]; cbn -[sanitizeSessionId now]; [done|].
  split; [done|]. split; [by right|]. split; [done|done].
Qed.

Lemma coherent_updateMemory_fn sessionId updater content :
  coherent (sanitizeSessionId sessionId) (updateMemory_fn sessionId updater) content false.
Proof.
  pose proof (coherent_after_load sessionId updater) as Hrest.
  unfold updateMemory_fn, readMemoryFile, ensureMemoryDir, fs_mkdir,
    fs_readFile, fs_writeFile, lift in *.
  cbn -[sanitizeSessionId createEmptyMemory decide now invoke writeMemoryFile] in *.
  intros [e|]; cbn -[sanitizeSessionId createEmptyMemory decide now invoke writeMemoryFile];
    [done|].
  split; [done|].
  intros [e|]; cbn -[sanitizeSessionId createEmptyMemory decide now invoke writeMemoryFile].
  { rewrite decide_True; [done|]. intros [= H]. by apply fault_code_not_ENOENT in H. }
  destruct content as [[memory|text]|];
    cbn -[sanitizeSessionId createEmptyMemory decide now invoke writeMemoryFile].
  - by apply Hrest.
  - done.
  - rewrite decide_False by (intros H; by apply H).
    cbn -[sanitizeSessionId createEmptyMemory decide now invoke writeMemoryFile].
    intros memory. split; [done|]. split; [by left|]. split; [done|].
    by apply Hrest.
Qed.

Lemma invariant_init files0 w0 : invariant files0 (init files0 w0).
Proof.
  split; simpl; try done.
  all: try (intros; simplify_map_eq; done).
  all: try (intros; by simplify_list_eq).
Qed.

Lemma invariant_withMemoryLock files0 sessionId fn s :
  (∀ content, coherent (sanitizeSessionId sessionId) fn content false) →
  invariant files0 s → invariant files0 (withMemoryLock sessionId fn s).
Proof.
  intros Hfn Hinv. unfold withMemoryLock.
  set (k := sanitizeSessionId sessionId).
  assert (Hcur : ∃ current n,
    match memoryLocks s !! k with
    | Some p => (p, allocated s)
    | None => (P_resolved (allocated s), S (allocated s))
    end = (current, n)
    ∧ allocated s ≤ n
    ∧ (∀ tid t, tasks s !! tid = Some t → t_safeId t = k →
         mentions (promise_id (t_next t)) current)).
  { destruct (memoryLocks s !! k) as [p|] eqn:Hp.
    - exists p, (allocated s). split; [done|]. split; [done|].
      intros tid t Ht Hk. destruct (inv_held _ _ Hinv tid t Ht) as (p' & Hp' & Hm).
      rewrite Hk, Hp in Hp'. by injection Hp' as ->.
    - exists (P_resolved (allocated s)), (S (allocated s)). split; [done|]. split; [lia|].
      intros tid t Ht Hk. destruct (inv_held _ _ Hinv tid t Ht) as (p' & Hp' & Hm).
      rewrite Hk, Hp in Hp'. done. }
  destruct Hcur as (current & n & -> & Hn & Hcur).
  split; cbn [memoryLocks released allocated files world tasks journal].
  - intros k' p Hp. destruct (decide (k = k')) as [<-|Hne].
    + rewrite lookup_insert_eq in Hp. injection Hp as <-. simpl. lia.
    + rewrite lookup_insert_ne in Hp by done. apply (inv_lock_lt _ _ Hinv) in Hp. lia.
  - intros k' p tid t Hp Ht. apply lookup_snoc_Some in Ht as [[Hlt Ht]|[-> <-]].
    + apply (inv_next _ _ Hinv) in Ht as Hnx. destruct Hnx as [_ Hnx].
      destruct (decide (k = k')) as [<-|Hne].
      * rewrite lookup_insert_eq in Hp. injection Hp as <-. simpl. lia.
      * rewrite lookup_insert_ne in Hp by done. by eapply (inv_lock_ne _ _ Hinv).
    + cbn [t_next promise_id]. destruct (decide (k = k')) as [<-|Hne].
      * rewrite lookup_insert_eq in Hp. injection Hp as <-. simpl. lia.
      * rewrite lookup_insert_ne in Hp by done. apply (inv_lock_lt _ _ Hinv) in Hp. lia.
  - intros tid t Ht. apply lookup_snoc_Some in Ht as [[Hlt Ht]|[-> <-]].
    + apply (inv_next _ _ Hinv) in Ht as [? ?]. split; [done|lia].
    + simpl. split; [done|lia].
  - intros i j ti tj Hi Hj Heq.
    apply lookup_snoc_Some in Hi as [[Hlti Hi]|[-> <-]];
      apply lookup_snoc_Some in Hj as [[Hltj Hj]|[-> <-]].
    + by apply (inv_next_inj _ _ Hinv i j ti tj).
    + apply (inv_next _ _ Hinv) in Hi as [_ Hi]. simpl in Heq. lia.
    + apply (inv_next _ _ Hinv) in Hj as [_ Hj]. simpl in Heq. lia.
    + done.
  - intros m Hm. apply (inv_released_lt _ _ Hinv) in Hm. lia.
  - intros tid t Ht Hrel. apply lookup_snoc_Some in Ht as [[Hlt Ht]|[-> <-]].
    + by apply (inv_released _ _ Hinv tid t).
    + simpl in Hrel. apply (inv_released_lt _ _ Hinv) in Hrel. lia.
  - intros tid t Ht Hin. apply lookup_snoc_Some in Ht as [[Hlt Ht]|[-> <-]].
    + by apply (inv_entered _ _ Hinv tid t).
    + done.
  - intros i j ti tj Hij Hi Hj Hk.
    apply lookup_snoc_Some in Hi as [[Hlti Hi]|[-> <-]];
      apply lookup_snoc_Some in Hj as [[Hltj Hj]|[-> <-]].
    + by apply (inv_chain _ _ Hinv i j ti tj).
    + cbn [t_current]. by eapply Hcur.
    + lia.
    + lia.
  - intros tid t Ht. apply lookup_snoc_Some in Ht as [[Hlt Ht]|[-> <-]].
    + destruct (decide (k = t_safeId t)) as [Hk|Hne].
      * rewrite <- Hk, lookup_insert_eq. eexists. split; [done|]. simpl. left. by eapply Hcur.
      * rewrite lookup_insert_ne by done. by eapply (inv_held _ _ Hinv).
    + cbn [t_safeId t_next promise_id]. rewrite lookup_insert_eq. eexists. split; [done|].
      simpl. by right.
  - apply (inv_files _ _ Hinv).
  - intros tid t Ht. apply lookup_snoc_Some in Ht as [[Hlt Ht]|[-> <-]].
    + by apply (inv_coherent _ _ Hinv tid).
    + simpl. apply Hfn.
  - apply (inv_journal _ _ Hinv).
Qed.

Lemma lookup_set_phase (l : list task) tid t ph j tj :
  l !! tid = Some t →
  <[tid := set_phase ph t]> l !! j = Some tj →
  (j = tid ∧ tj = set_phase ph t) ∨ (j ≠ tid ∧ l !! j = Some tj).
Proof.
  intros Ht Hj. destruct (decide (j = tid)) as [->|Hne].
  - rewrite list_lookup_insert_eq in Hj by (by eapply lookup_lt_Some).
    left. split; congruence.
  - rewrite list_lookup_insert_ne in Hj by done. by right.
Qed.

(** Two calls for one key are never both inside their function. *)
Lemma invariant_exclusion files0 s i j ti tj :
  invariant files0 s →
  tasks s !! i = Some ti → tasks s !! j = Some tj →
  t_safeId ti = t_safeId tj → in_fn ti = true → in_fn tj = true → i = j.
Proof.
  intros Hinv Hi Hj Hk Hini Hinj.
  assert (Hlt : ∀ a b ta tb, a < b → tasks s !! a = Some ta → tasks s !! b = Some tb →
            t_safeId ta = t_safeId tb → in_fn ta = true → in_fn tb = true → False).
  { intros a b ta tb Hab Ha Hb Hkab Hina Hinb.
    pose proof (inv_chain _ _ Hinv a b ta tb Hab Ha Hb Hkab) as Hm.
    pose proof (inv_entered _ _ Hinv b tb Hb Hinb) as Hf.
    pose proof (fulfilled_mentions _ _ _ Hf Hm) as Hrel.
    destruct (inv_released _ _ Hinv a ta Ha Hrel) as [Hout _]. congruence. }
  destruct (lt_eq_lt_dec i j) as [[Hij|Hij]|Hij]; [|done|].
  - exfalso. by eapply (Hlt i j ti tj).
  - exfalso. by eapply (Hlt j i tj ti).
Qed.

Lemma invariant_enter files0 s tid t fn :
  invariant files0 s →
  tasks s !! tid = Some t → t_phase t = Await_current fn →
  fulfilled (released s) (t_current t) = true →
  invariant files0
    {| memoryLocks := memoryLocks s; released := released s;
       allocated := allocated s; files := files s; world := world s;
       tasks := <[tid := set_phase (Await_fn fn) t]> (tasks s);
       journal := journal s |}.
Proof.
  intros Hinv Ht Hph Hf.
  split; cbn [memoryLocks released allocated files world tasks journal].
  - apply (inv_lock_lt _ _ Hinv).
  - intros k p j tj Hp Hj.
    apply (lookup_set_phase _ _ _ _ _ _ Ht) in Hj as [[-> ->]|[Hne Hj]].
    + by apply (inv_lock_ne _ _ Hinv k _ tid t).
    + by apply (inv_lock_ne _ _ Hinv k _ j tj).
  - intros j tj Hj.
    apply (lookup_set_phase _ _ _ _ _ _ Ht) in Hj as [[-> ->]|[Hne Hj]].
    + by apply (inv_next _ _ Hinv tid t).
    + by apply (inv_next _ _ Hinv j tj).
  - intros i j ti tj Hi Hj Heq.
    apply (lookup_set_phase _ _ _ _ _ _ Ht) in Hi as [[-> ->]|[Hnei Hi]];
      apply (lookup_set_phase _ _ _ _ _ _ Ht) in Hj as [[-> ->]|[Hnej Hj]];
      try done.
    + by apply (inv_next_inj _ _ Hinv tid j t tj).
    + by apply (inv_next_inj _ _ Hinv i tid ti t).
    + by apply (inv_next_inj _ _ Hinv i j ti tj).
  - apply (inv_released_lt _ _ Hinv).
  - intros j tj Hj Hrel.
    apply (lookup_set_phase _ _ _ _ _ _ Ht) in Hj as [[-> ->]|[Hne Hj]].
    + destruct (inv_released _ _ Hinv tid t Ht Hrel) as [_ [r Hr]]. congruence.
    + by apply (inv_released _ _ Hinv j tj).
  - intros j tj Hj Hin.
    apply (lookup_set_phase _ _ _ _ _ _ Ht) in Hj as [[-> ->]|[Hne Hj]].
    + done.
    + by apply (inv_entered _ _ Hinv j tj).
  - intros i j ti tj Hij Hi Hj Hk.
    apply (lookup_set_phase _ _ _ _ _ _ Ht) in Hi as [[-> ->]|[Hnei Hi]];
      apply (lookup_set_phase _ _ _ _ _ _ Ht) in Hj as [[-> ->]|[Hnej Hj]].
    + lia.
    + by apply (inv_chain _ _ Hinv tid j t tj).
    + by apply (inv_chain _ _ Hinv i tid ti t).
    + by apply (inv_chain _ _ Hinv i j ti tj).
  - intros j tj Hj.
    apply (lookup_set_phase _ _ _ _ _ _ Ht) in Hj as [[-> ->]|[Hne Hj]].
    + by apply (inv_held _ _ Hinv tid t).
    + by apply (inv_held _ _ Hinv j tj).
  - apply (inv_files _ _ Hinv).
  - intros j tj Hj.
    apply (lookup_set_phase _ _ _ _ _ _ Ht) in Hj as [[-> ->]|[Hne Hj]].
    + pose proof (inv_coherent _ _ Hinv tid t Ht) as Hc. rewrite Hph in Hc.
      exists false. split; [apply Hc|done].
    + by apply (inv_coherent _ _ Hinv j).
  - apply (inv_journal _ _ Hinv).
Qed.

Lemma invariant_finally files0 s tid t p r :
  invariant files0 s →
  tasks s !! tid = Some t → t_phase t = Await_fn p →
  invariant files0 (finally tid t r s)
  ∧ memoryLocks (finally tid t r s) = memoryLocks s.
Proof.
  intros Hinv Ht Hph.
  assert (Hlocks : memoryLocks (finally tid t r s) = memoryLocks s).
  { unfold finally. cbn [memoryLocks].
    destruct (memoryLocks s !! t_safeId t) as [q|] eqn:Hq; [|done].
    rewrite decide_False; [done|]. by eapply (inv_lock_ne _ _ Hinv). }
  split; [|done].
  split; rewrite ?Hlocks; unfold finally;
    cbn [memoryLocks released allocated files world tasks journal].
  - apply (inv_lock_lt _ _ Hinv).
  - intros k q j tj Hq Hj.
    apply (lookup_set_phase _ _ _ _ _ _ Ht) in Hj as [[-> ->]|[Hne Hj]].
    + by apply (inv_lock_ne _ _ Hinv k _ tid t).
    + by apply (inv_lock_ne _ _ Hinv k _ j tj).
  - intros j tj Hj.
    apply (lookup_set_phase _ _ _ _ _ _ Ht) in Hj as [[-> ->]|[Hne Hj]].
    + by apply (inv_next _ _ Hinv tid t).
    + by apply (inv_next _ _ Hinv j tj).
  - intros i j ti tj Hi Hj Heq.
    apply (lookup_set_phase _ _ _ _ _ _ Ht) in Hi as [[-> ->]|[Hnei Hi]];
      apply (lookup_set_phase _ _ _ _ _ _ Ht) in Hj as [[-> ->]|[Hnej Hj]];
      try done.
    + by apply (inv_next_inj _ _ Hinv tid j t tj).
    + by apply (inv_next_inj _ _ Hinv i tid ti t).
    + by apply (inv_next_inj _ _ Hinv i j ti tj).
  - intros n Hn. apply elem_of_union in Hn as [Hn|Hn].
    + apply elem_of_singleton in Hn as ->. by apply (inv_next _ _ Hinv tid t).
    + by apply (inv_released_lt _ _ Hinv).
  - intros j tj Hj Hrel.
    apply (lookup_set_phase _ _ _ _ _ _ Ht) in Hj as [[-> ->]|[Hne Hj]].
    + split; [done|by eexists].
    + apply elem_of_union in Hrel as [Hrel|Hrel].
      * apply elem_of_singleton in Hrel.
        exfalso. apply Hne. by apply (inv_next_inj _ _ Hinv j tid tj t).
      * by apply (inv_released _ _ Hinv j tj).
  - intros j tj Hj Hin.
    apply (lookup_set_phase _ _ _ _ _ _ Ht) in Hj as [[-> ->]|[Hne Hj]]; [done|].
    eapply fulfilled_mono; [|by apply (inv_entered _ _ Hinv j tj)]. set_solver.
  - intros i j ti tj Hij Hi Hj Hk.
    apply (lookup_set_phase _ _ _ _ _ _ Ht) in Hi as [[-> ->]|[Hnei Hi]];
      apply (lookup_set_phase _ _ _ _ _ _ Ht) in Hj as [[-> ->]|[Hnej Hj]].
    + lia.
    + by apply (inv_chain _ _ Hinv tid j t tj).
    + by apply (inv_chain _ _ Hinv i tid ti t).
    + by apply (inv_chain _ _ Hinv i j ti tj).
  - intros j tj Hj.
    apply (lookup_set_phase _ _ _ _ _ _ Ht) in Hj as [[-> ->]|[Hne Hj]].
    + by apply (inv_held _ _ Hinv tid t).
    + by apply (inv_held _ _ Hinv j tj).
  - apply (inv_files _ _ Hinv).
  - intros j tj Hj.
    apply (lookup_set_phase _ _ _ _ _ _ Ht) in Hj as [[-> ->]|[Hne Hj]]; [done|].
    by apply (inv_coherent _ _ Hinv j).
  - apply (inv_journal _ _ Hinv).
Qed.

Lemma last_for_other k k' e j :
  journal_key e = k' → k ≠ k' → last_for k (e :: j) = last_for k j.
Proof. intros He Hne. cbn. rewrite decide_False; [done|]. congruence. Qed.

(** One operation of a coherent program: what it leaves of the program is
    coherent, it changes no file but its own, and the journal stays that of
    a serial run. *)
Lemma io_step_coherent k p f files w p' files' w' observed files0 j :
  coherent k p (files !! k) observed →
  (observed = true → ∃ memory, last_for k j = Some (Observed k memory)) →
  (∀ k', files !! k' = persisted files0 k' j) →
  serial files0 j →
  io_step p f files w = Some (p', files', w') →
  (∃ observed',
     coherent k p' (files' !! k) observed'
     ∧ (observed' = true →
        ∃ memory, last_for k (journal_of k p f ++ j) = Some (Observed k memory)))
  ∧ (∀ k', k' ≠ k → files' !! k' = files !! k')
  ∧ (∀ k', k' ≠ k → last_for k' (journal_of k p f ++ j) = last_for k' j)
  ∧ (∀ k', files' !! k' = persisted files0 k' (journal_of k p f ++ j))
  ∧ serial files0 (journal_of k p f ++ j).
Proof.
  intros Hc Hobs Hfiles Hser Hstep.
  destruct p as [a|e|kont|path kont|path data kont|B c kont|u m kont];
    cbn in Hstep; try discriminate.
  - injection Hstep as <- <- <-. cbn in Hc.
    split; [exists observed; split; [apply Hc|done]|]. done.
  - injection Hstep as <- <- <-. cbn in Hc. destruct Hc as [-> Hc].
    split; [exists observed; split; [apply Hc|done]|]. done.
  - injection Hstep as <- <- <-. cbn in Hc.
    destruct Hc as (-> & Hmay & Hfail & Hok).
    destruct f as [e|]; cbn -[last_for].
    + split; [exists observed; split; [apply Hfail|done]|]. done.
    + rewrite lookup_insert_eq.
      split; [exists false; split; [apply Hok|done]|].
      split; [intros k' Hne; by rewrite lookup_insert_ne|].
      split; [intros k' Hne; by apply (last_for_other _ k)|].
      split.
      * intros k'. cbn. case_decide as Hk.
        -- subst k'. by rewrite lookup_insert_eq.
        -- rewrite lookup_insert_ne by done. apply Hfiles.
      * cbn. split; [|done]. destruct Hmay as [Hnone|Htrue].
        -- left. by rewrite <- Hfiles.
        -- right. by apply Hobs.
  - destruct (c w) as [b w''] eqn:Hcw. injection Hstep as <- <- <-. cbn in Hc.
    split; [exists observed; split; [apply Hc|done]|]. done.
  - destruct (u m w) as [r w''] eqn:Hu. injection Hstep as <- <- <-. cbn in Hc.
    destruct Hc as [Hm Hc]. cbn -[last_for].
    split.
    { exists true. split; [apply Hc|]. intros _. exists m. cbn.
      by rewrite decide_True. }
    split; [done|].
    split; [intros k' Hne; by apply (last_for_other _ k)|].
    split; [done|].
    cbn. split; [|done]. by rewrite <- Hfiles.
Qed.

Lemma invariant_io_step files0 s tid t p f p' files' w' :
  invariant files0 s →
  tasks s !! tid = Some t → t_phase t = Await_fn p →
  io_step p f (files s) (world s) = Some (p', files', w') →
  invariant files0
    {| memoryLocks := memoryLocks s; released := released s;
       allocated := allocated s; files := files'; world := w';
       tasks := <[tid := set_phase (Await_fn p') t]> (tasks s);
       journal := journal_of (t_safeId t) p f ++ journal s |}.
Proof.
  intros Hinv Ht Hph Hstep.
  assert (Hin : in_fn t = true) by (unfold in_fn; by rewrite Hph).
  pose proof (inv_coherent _ _ Hinv tid t Ht) as Hc. rewrite Hph in Hc.
  destruct Hc as (observed & Hc & Hobs).
  destruct (io_step_coherent _ _ _ _ _ _ _ _ _ files0 (journal s) Hc Hobs
              (inv_files _ _ Hinv) (inv_journal _ _ Hinv) Hstep)
    as (Hc' & Hframe & Hlast & Hfiles & Hser).
  split; cbn [memoryLocks released allocated files world tasks journal].
  - apply (inv_lock_lt _ _ Hinv).
  - intros k q j tj Hq Hj'.
    apply (lookup_set_phase _ _ _ _ _ _ Ht) in Hj' as [[-> ->]|[Hne Hj']].
    + by apply (inv_lock_ne _ _ Hinv k _ tid t).
    + by apply (inv_lock_ne _ _ Hinv k _ j tj).
  - intros j tj Hj'.
    apply (lookup_set_phase _ _ _ _ _ _ Ht) in Hj' as [[-> ->]|[Hne Hj']].
    + by apply (inv_next _ _ Hinv tid t).
    + by apply (inv_next _ _ Hinv j tj).
  - intros i j ti tj Hi Hj' Heq.
    apply (lookup_set_phase _ _ _ _ _ _ Ht) in Hi as [[-> ->]|[Hnei Hi]];
      apply (lookup_set_phase _ _ _ _ _ _ Ht) in Hj' as [[-> ->]|[Hnej Hj']];
      try done.
    + by apply (inv_next_inj _ _ Hinv tid j t tj).
    + by apply (inv_next_inj _ _ Hinv i tid ti t).
    + by apply (inv_next_inj _ _ Hinv i j ti tj).
  - apply (inv_released_lt _ _ Hinv).
  - intros j tj Hj' Hrel.
    apply (lookup_set_phase _ _ _ _ _ _ Ht) in Hj' as [[-> ->]|[Hne Hj']].
    + destruct (inv_released _ _ Hinv tid t Ht Hrel) as [Hout _]. congruence.
    + by apply (inv_released _ _ Hinv j tj).
  - intros j tj Hj' Hinj.
    apply (lookup_set_phase _ _ _ _ _ _ Ht) in Hj' as [[-> ->]|[Hne Hj']].
    + by apply (inv_entered _ _ Hinv tid t).
    + by apply (inv_entered _ _ Hinv j tj).
  - intros i j ti tj Hij Hi Hj' Hk.
    apply (lookup_set_phase _ _ _ _ _ _ Ht) in Hi as [[-> ->]|[Hnei Hi]];
      apply (lookup_set_phase _ _ _ _ _ _ Ht) in Hj' as [[-> ->]|[Hnej Hj']].
    + lia.
    + by apply (inv_chain _ _ Hinv tid j t tj).
    + by apply (inv_chain _ _ Hinv i tid ti t).
    + by apply (inv_chain _ _ Hinv i j ti tj).
  - intros j tj Hj'.
    apply (lookup_set_phase _ _ _ _ _ _ Ht) in Hj' as [[-> ->]|[Hne Hj']].
    + by apply (inv_held _ _ Hinv tid t).
    + by apply (inv_held _ _ Hinv j tj).
  - apply Hfiles.
  - intros j tj Hj'.
    apply (lookup_set_phase _ _ _ _ _ _ Ht) in Hj' as [[-> ->]|[Hne Hj']].
    + apply Hc'.
    + pose proof (inv_coherent _ _ Hinv j tj Hj') as Hcj.
      destruct (t_phase tj) as [fn|q|r] eqn:Hphj; [done| |done].
      destruct (decide (t_safeId tj = t_safeId t)) as [Hk|Hk].
      * exfalso. apply Hne.
        apply (invariant_exclusion files0 s j tid tj t Hinv Hj' Ht Hk); [|done].
        unfold in_fn. by rewrite Hphj.
      * rewrite Hframe, Hlast by done. apply Hcj.
  - apply Hser.
Qed.

Lemma invariant_resume files0 s tid f s' :
  invariant files0 s → resume tid f s = Some s' → invariant files0 s'.
Proof.
  intros Hinv Hres. unfold resume in Hres.
  destruct (tasks s !! tid) as [t|] eqn:Ht; [|discriminate]. cbn in Hres.
  destruct (t_phase t) as [fn|p|r] eqn:Hph; [| |discriminate].
  - destruct (fulfilled (released s) (t_current t)) eqn:Hf; [|discriminate].
    injection Hres as <-. by apply invariant_enter.
  - destruct p as [a|e|kont|path kont|path data kont|B c kont|u m kont].
    + injection Hres as <-. by eapply invariant_finally.
    + injection Hres as <-. by eapply invariant_finally.
    + destruct (io_step _ f (files s) (world s)) as [[[p' files'] w']|] eqn:Hstep;
        [|discriminate]. cbn in Hres. injection Hres as <-.
      exact (invariant_io_step files0 s tid t _ f p' files' w' Hinv Ht Hph Hstep).
    + destruct (io_step _ f (files s) (world s)) as [[[p' files'] w']|] eqn:Hstep;
        [|discriminate]. cbn in Hres. injection Hres as <-.
      exact (invariant_io_step files0 s tid t _ f p' files' w' Hinv Ht Hph Hstep).
    + destruct (io_step _ f (files s) (world s)) as [[[p' files'] w']|] eqn:Hstep;
        [|discriminate]. cbn in Hres. injection Hres as <-.
      exact (invariant_io_step files0 s tid t _ f p' files' w' Hinv Ht Hph Hstep).
    + destruct (io_step _ f (files s) (world s)) as [[[p' files'] w']|] eqn:Hstep;
        [|discriminate]. cbn in Hres. injection Hres as <-.
      exact (invariant_io_step files0 s tid t _ f p' files' w' Hinv Ht Hph Hstep).
    + destruct (io_step _ f (files s) (world s)) as [[[p' files'] w']|] eqn:Hstep;
        [|discriminate]. cbn in Hres. injection Hres as <-.
      exact (invariant_io_step files0 s tid t _ f p' files' w' Hinv Ht Hph Hstep).
Qed.

Lemma invariant_exec files0 evs s s' :
  invariant files0 s → exec evs s = Some s' → invariant files0 s'.
Proof.
  revert s. induction evs as [|ev evs IH]; intros s Hinv Hexec; cbn in Hexec.
  - by injection Hexec as <-.
  - destruct (step ev s) as [s1|] eqn:Hstep; [|discriminate]. cbn in Hexec.
    apply (IH s1); [|done].
    destruct ev as [sessionId updater|tid f]; cbn in Hstep.
    + injection Hstep as <-. apply invariant_withMemoryLock; [|done].
      intros content. apply coherent_updateMemory_fn.
    + by eapply invariant_resume.
Qed.

Lemma invariant_reachable files0 w0 s :
  reachable files0 w0 s → invariant files0 s.
Proof.
  intros [evs Hexec]. eapply invariant_exec; [|done]. apply invariant_init.
Qed.

(** C4 fails on the code: the entry of a key is never removed from
    [memoryLocks]. The map holds [current.then(() => next)], which is never
    the promise [next] that [finally] compares it with, so in every state
    the process reaches, every call ever made, returned or not, still has
    the entry of its key in the map. *)
Theorem memoryLocks_entry_never_removed (files0 : gmap string raw) (w0 : World)
    (s : state) (tid : nat) (t : task) :
  reachable files0 w0 s →
  tasks s !! tid = Some t →
  is_Some (memoryLocks s !! t_safeId t).
Proof.
  intros Hs Ht. apply invariant_reachable in Hs.
  destruct (inv_held _ _ Hs tid t Ht) as (p & Hp & _). by eexists.
Qed.

Lemma memoryLocks_entry_never_removed_witness :
  match exec single_call (init ∅ world0) with
  | Some s => quiescent s ∧ is_Some (memoryLocks s !! "abc123")
  | None => False
  end.
Proof.
  destruct (exec single_call (init ∅ world0)) as [s|] eqn:E;
    [|vm_compute in E; discriminate].
  assert (Hs : reachable ∅ world0 s) by (by exists single_call).
  vm_compute in E. injection E as <-.
  split.
  - repeat constructor. by eexists.
  - exact (memoryLocks_entry_never_removed ∅ world0 _ 0 _ Hs eq_refl).
Defined.

Example single_call_leaves_entry :
  memoryLocks <$> exec single_call (init ∅ world0)
  = Some {[ "abc123" := P_then 2 (P_resolved 0) (P_deferred 1) ]}.
Proof. vm_compute. reflexivity. Qed.

Lemma serial_suffix files0 j1 j2 : serial files0 (j1 ++ j2) → serial files0 j2.
Proof.
  induction j1 as [|[k d|k m] j1 IH]; cbn; [done| |]; intros [_ H]; by apply IH.
Qed.

Lemma persisted_skip files0 k mid j :
  Forall (λ e, journal_key e ≠ k) mid →
  persisted files0 k (mid ++ j) = persisted files0 k j.
Proof.
  induction 1 as [|[k' d|k' m] mid Hne _ IH]; cbn; [done| |done].
  rewrite decide_False; done.
Qed.

(** C5. Two calls of [updateMemory] for one key never interleave their
    load, merge and save: in every state the process reaches, at most one
    call per key is inside its function, and the journal is that of calls
    that ran one after the other on each key. In particular an updater
    that is handed the record of a key after a write to the file of that
    key, nothing else having happened for the key in between, is handed
    what was written: the second call observes what the first committed. *)
Theorem updateMemory_serialized (files0 : gmap string raw) (w0 : World) (s : state) :
  reachable files0 w0 s →
  (∀ i j ti tj,
     tasks s !! i = Some ti → tasks s !! j = Some tj →
     t_safeId ti = t_safeId tj → in_fn ti = true → in_fn tj = true → i = j)
  ∧ serial files0 (journal s)
  ∧ (∀ k, files s !! k = persisted files0 k (journal s))
  ∧ (∀ k observed committed later between earlier,
       journal s = later ++ Observed k observed :: between
                   ++ Saved k committed :: earlier →
       Forall (λ e, journal_key e ≠ k) between →
       committed = Json observed).
Proof.
  intros Hs. apply invariant_reachable in Hs. split; [|split; [|split]].
  - intros i j ti tj. by apply (invariant_exclusion files0).
  - apply (inv_journal _ _ Hs).
  - apply (inv_files _ _ Hs).
  - intros k observed committed later between earlier Hj Hbetween.
    pose proof (inv_journal _ _ Hs) as Hser. rewrite Hj in Hser.
    apply serial_suffix in Hser. cbn in Hser. destruct Hser as [Hp _].
    rewrite persisted_skip in Hp by done. cbn in Hp.
    rewrite decide_True in Hp by done. by injection Hp.
Qed.

Lemma updateMemory_serialized_witness :
  match exec two_calls (init ∅ world0) with
  | Some s => quiescent s ∧ serial ∅ (journal s)
  | None => False
  end.
Proof.
  destruct (exec two_calls (init ∅ world0)) as [s|] eqn:E;
    [|vm_compute in E; discriminate].
  assert (Hs : reachable ∅ world0 s) by (by exists two_calls).
  split.
  - vm_compute in E. injection E as <-. repeat constructor; by eexists.
  - exact (proj1 (proj2 (updateMemory_serialized ∅ world0 s Hs))).
Defined.

(** The second call cannot enter its function while the first is in its
    own. *)
Example second_call_waits :
  exec [Call "abc123" (say "first"); Call "abc/123" (say "second");
        Resume 0 None; Resume 0 None; Resume 1 None] (init ∅ world0) = None.
Proof. vm_compute. reflexivity. Qed.

(** Once both have run, the file holds both turns, in the order of the
    calls. *)
Example two_calls_transcript :
  (s ← exec two_calls (init ∅ world0);
   r ← files s !! "abc123";
   match r with
   | Json memory => Some (tr_content <$> transcript memory)
   | Garbage _ => None
   end) = Some ["first"; "second"].
Proof. vm_compute. reflexivity. Qed.

(** ** The scenario of a fresh session *)

Example fresh_session :
  run (getMemory "abc123") [] ∅ world0
  = (Ok (createEmptyMemory "abc123" world0).1,
     {[ "abc123" := Json (createEmptyMemory "abc123" world0).1 ]},
     (createEmptyMemory "abc123" world0).2).
Proof. vm_compute. reflexivity. Qed.

Example garbage_is_reported :
  run (getMemory "abc123") [] {[ "abc123" := Garbage "{ not json" ]} world0
  = (Err SyntaxError, {[ "abc123" := Garbage "{ not json" ]}, world0).
Proof. vm_compute. reflexivity. Qed.

Example hiking_once :
  let once := (applyMemoryUpdate JS.toLowerCase_ascii
                 (createEmptyMemory "abc123" world0).1 hiking_fragment world0).1 in
  let twice := (applyMemoryUpdate JS.toLowerCase_ascii once hiking_fragment world0).1 in
  (pe_answer <$> pt_leaves (psychoTree once)) = ["I love hiking"]
  ∧ (pe_tags <$> pt_leaves (psychoTree once)) = [["hobby"]]
  ∧ pt_branches (psychoTree once) = [] ∧ pt_trunk (psychoTree once) = []
  ∧ pt_roots (psychoTree once) = []
  ∧ twice = once.
Proof. vm_compute. repeat split; reflexivity. Qed.

Example hello_once :
  sp_text <$> ig_posts (instagram (social
     (applyMemoryUpdate JS.toLowerCase_ascii (createEmptyMemory "abc123" world0).1
        (posts_fragment ["Hello"; "hello"]) world0).1))
  = ["Hello"].
Proof. vm_compute. reflexivity. Qed.

Example handle_kept_on_empty :
  ig_handle (instagram (social
     (applyMemoryUpdate JS.toLowerCase_ascii handle_record
        (handle_fragment (Some "")) world0).1)) = Some "@old"
  ∧ ig_handle (instagram (social
       (applyMemoryUpdate JS.toLowerCase_ascii handle_record
          (handle_fragment None) world0).1)) = Some "@old"
  ∧ ig_handle (instagram (social
       (applyMemoryUpdate JS.toLowerCase_ascii handle_record
          (handle_fragment (Some "@new")) world0).1)) = Some "@new".
Proof. vm_compute. repeat split; reflexivity. Qed.

(** * Further properties *)

(** ** The deduplicating loop: what it keeps, adds and draws *)

Section DedupMore.

Context {A B : Type}.
Variable step : A → option (string * sync B).

Lemma forEach_push_extends l st w :
  ∃ added, (forEach (push_new step) l st w).1.2 = st.2 ++ added.
Proof.
  revert st w. induction l as [|a l IH]; intros st w; cbn [forEach].
  - exists []. by rewrite app_nil_r.
  - rewrite sync_bind_unfold.
    destruct (IH (push_new step a st w).1 (push_new step a st w).2) as [added ->].
    unfold push_new. destruct (step a) as [[key make]|]; [|by exists added].
    case_bool_decide; [by exists added|].
    rewrite sync_bind_unfold. cbn. rewrite <- app_assoc. by eexists.
Qed.

(** Every element of the result was there before or was made for an item of
    the list, in some world. *)
Lemma forEach_push_from l st w b :
  b ∈ (forEach (push_new step) l st w).1.2 →
  b ∈ st.2 ∨ ∃ a key make w', a ∈ l ∧ step a = Some (key, make) ∧ b = (make w').1.
Proof.
  revert st w. induction l as [|a l IH]; intros st w; cbn [forEach].
  - by left.
  - rewrite sync_bind_unfold. intros Hb. apply IH in Hb as [Hb|Hb].
    + unfold push_new in Hb. destruct (step a) as [[key make]|] eqn:Hs; [|by left].
      case_bool_decide; [by left|].
      rewrite sync_bind_unfold in Hb. cbn in Hb.
      apply elem_of_app in Hb as [Hb|Hb]; [by left|].
      apply list_elem_of_singleton in Hb. right.
      exists a, key, make, w. split; [left|done].
    + right. destruct Hb as (a' & key & make & w' & Ha' & Hs & ->).
      exists a', key, make, w'. split; [by right|done].
Qed.

(** Each object made draws [1] identifier and reads the clock [ticks]
    times; [drawn_in b w] is what the object keeps of the world [w] it was
    made in. *)
Variable ticks : nat.
Variable drawn_in : B → World → Prop.
Hypothesis make_draws : ∀ a key make w,
  step a = Some (key, make) →
  (make w).2 = advance 1 ticks w ∧ drawn_in (make w).1 w.

Lemma advance_advance n m n' m' w :
  advance n m (advance n' m' w) = advance (n + n') (m + m') w.
Proof. unfold advance. cbn. f_equal; lia. Qed.

Lemma advance_0 w : advance 0 0 w = w.
Proof. by destruct w. Qed.

Lemma forEach_push_draws l st w :
  ∃ added,
    (forEach (push_new step) l st w).1.2 = st.2 ++ added
    ∧ (forEach (push_new step) l st w).2
      = advance (length added) (ticks * length added) w
    ∧ (∀ i b, added !! i = Some b → drawn_in b (advance i (ticks * i) w))
    ∧ Forall (λ b, ∃ a key make w',
                a ∈ l ∧ step a = Some (key, make) ∧ b = (make w').1) added.
Proof.
  revert st w. induction l as [|a l IH]; intros st w; cbn [forEach].
  - exists []. split; [cbn; by rewrite app_nil_r|].
    split; [cbn; by rewrite Nat.mul_0_r, advance_0|]. split; [by intros i b Hi|done].
  - rewrite sync_bind_unfold.
    destruct (IH (push_new step a st w).1 (push_new step a st w).2)
      as (added & -> & -> & Hd & Hfrom).
    assert (Hfrom' : Forall (λ b, ∃ a' key make w',
              a' ∈ a :: l ∧ step a' = Some (key, make) ∧ b = (make w').1) added).
    { eapply Forall_impl; [exact Hfrom|]. cbn.
      intros b (a' & key & make & w' & Ha' & Hs & ->).
      exists a', key, make, w'. split; [by right|done]. }
    unfold push_new in *. destruct (step a) as [[key make]|] eqn:Hs;
      [|cbn [fst snd mret sync_ret] in *; by exists added].
    case_bool_decide; [cbn [fst snd mret sync_ret] in *; by exists added|].
    rewrite !sync_bind_unfold in *. cbn [fst snd mret sync_ret] in *.
    destruct (make_draws a key make w Hs) as [Hw Hb].
    exists ((make w).1 :: added). rewrite <- app_assoc. split; [done|].
    rewrite Hw, advance_advance. cbn [length]. split; [|split].
    + f_equal; lia.
    + intros [|i] b Hi; cbn in Hi.
      * injection Hi as <-. by rewrite Nat.mul_0_r, advance_0.
      * apply Hd in Hi. rewrite Hw, advance_advance in Hi.
        replace (S i) with (i + 1) by lia.
        by replace (ticks * (i + 1)) with (ticks * i + ticks) by lia.
    + constructor; [|done]. exists a, key, make, w. split; [left|done].
Qed.

End DedupMore.

(** ** [applyMemoryUpdate]: the loops on the incoming lists *)

Lemma fmap_seq_lookup {B C : Type} (f : B → C) (g : nat → C) (d : nat) (l : list B) :
  (∀ i b, l !! i = Some b → f b = g (i + d)) →
  f <$> l = g <$> seq d (length l).
Proof.
  revert d. induction l as [|b l IH]; intros d H; [done|].
  cbn. f_equal.
  - apply (H 0 b). done.
  - apply IH. intros i b' Hi. rewrite (H (S i) b' Hi). f_equal. lia.
Qed.

Section MergeMore.

Variable toLowerCase : string → string.

Lemma item_step_draws item key make w :
  item_step toLowerCase item = Some (key, make) →
  (make w).2 = advance 1 0 w
  ∧ sp_id (make w).1 = uuid_source w (uuid_drawn w).
Proof.
  unfold item_step. destruct (JS.truthy (ui_text item)); [|discriminate].
  intros [= <- <-]. rewrite sync_bind_unfold. cbn. split; [|done].
  by destruct w.
Qed.

Lemma entry_step_draws layer entry key make w :
  entry_step toLowerCase layer entry = Some (key, make) →
  (make w).2 = advance 1 1 w
  ∧ (pe_id (make w).1 = uuid_source w (uuid_drawn w)
     ∧ pe_timestamp (make w).1 = clock_source w (clock_reads w)).
Proof.
  unfold entry_step. destruct (JS.truthy (ue_answer entry)); [|discriminate].
  intros [= <- <-]. rewrite !sync_bind_unfold. cbn. split; [|done].
  by destruct w.
Qed.

Lemma item_step_from item key make w :
  item_step toLowerCase item = Some (key, make) →
  post_from item (make w).1 ∧ key = post_key toLowerCase (make w).1.
Proof.
  unfold item_step. destruct (JS.truthy (ui_text item)) as [text|] eqn:Ht; [|discriminate].
  intros [= <- <-]. rewrite sync_bind_unfold. cbn.
  apply truthy_Some in Ht as [Ht Hne]. done.
Qed.

Lemma entry_step_from layer entry key make w :
  entry_step toLowerCase layer entry = Some (key, make) →
  entry_from layer entry (make w).1 ∧ key = stored_key toLowerCase (make w).1.
Proof.
  unfold entry_step. destruct (JS.truthy (ue_answer entry)) as [answer|] eqn:Ht; [|discriminate].
  intros [= <- <-]. rewrite !sync_bind_unfold. cbn.
  apply truthy_Some in Ht as [Ht Hne]. done.
Qed.

(** What [merge_items] appends: posts made from incoming items, with the
    next identifiers of [randomUUID] in order; the clock is not read. *)
Lemma merge_items_appends stored incoming w :
  ∃ added,
    (merge_items toLowerCase stored incoming w).1 = stored ++ added
    ∧ (merge_items toLowerCase stored incoming w).2 = advance (length added) 0 w
    ∧ sp_id <$> added = uuid_source w <$> seq (uuid_drawn w) (length added)
    ∧ Forall (λ p, ∃ item, item ∈ incoming ∧ post_from item p) added.
Proof.
  rewrite merge_items_unfold. cbn [fst snd].
  destruct (forEach_push_draws (item_step toLowerCase) 0
              (λ p w, sp_id p = uuid_source w (uuid_drawn w))
              (λ a key make w, item_step_draws a key make w)
              incoming (list_to_set (post_key toLowerCase <$> stored), stored) w)
    as (added & Hl & Hw & Hd & Hfrom).
  exists added. cbn [fst snd] in Hl. split; [done|]. split; [by rewrite Hw|].
  split.
  - apply fmap_seq_lookup. intros i b Hi. apply Hd in Hi. by rewrite Hi.
  - eapply Forall_impl; [exact Hfrom|]. cbn.
    intros p (item & key & make & w' & Hin & Hs & ->). exists item. split; [done|].
    by apply (item_step_from item key make w').
Qed.

(** What [merge_entries] appends: entries made from incoming ones, with the
    next identifiers and the next clock readings in order. *)
Lemma merge_entries_appends layer stored incoming w :
  ∃ added,
    (merge_entries toLowerCase layer stored incoming w).1 = stored ++ added
    ∧ (merge_entries toLowerCase layer stored incoming w).2
      = advance (length added) (length added) w
    ∧ pe_id <$> added = uuid_source w <$> seq (uuid_drawn w) (length added)
    ∧ pe_timestamp <$> added = clock_source w <$> seq (clock_reads w) (length added)
    ∧ Forall (λ e, ∃ entry, entry ∈ incoming ∧ entry_from layer entry e) added.
Proof.
  rewrite merge_entries_unfold. cbn [fst snd].
  destruct (forEach_push_draws (entry_step toLowerCase layer) 1
              (λ e w, pe_id e = uuid_source w (uuid_drawn w)
                      ∧ pe_timestamp e = clock_source w (clock_reads w))
              (λ a key make w, entry_step_draws layer a key make w)
              incoming (list_to_set (stored_key toLowerCase <$> stored), stored) w)
    as (added & Hl & Hw & Hd & Hfrom).
  exists added. cbn [fst snd] in Hl. split; [done|].
  split; [rewrite Hw; f_equal; lia|].
  split; [|split].
  - apply fmap_seq_lookup. intros i b Hi. apply Hd in Hi as [Hi _]. by rewrite Hi.
  - apply fmap_seq_lookup. intros i b Hi. apply Hd in Hi as [_ Hi]. rewrite Hi. cbn.
    f_equal. lia.
  - eapply Forall_impl; [exact Hfrom|]. cbn.
    intros e (entry & key & make & w' & Hin & Hs & ->). exists entry. split; [done|].
    by apply (entry_step_from layer entry key make w').
Qed.

(** The parts of [applyMemoryUpdate] are the loops run on what the fragment
    brings. *)
Lemma instagram_part_posts update i w :
  (ig_posts (instagram_part toLowerCase update i w).1,
   (instagram_part toLowerCase update i w).2)
  = merge_items toLowerCase (ig_posts i) (incoming_posts update) w.
Proof.
  unfold instagram_part, incoming_posts.
  destruct (mu_social update ≫= us_instagram) as [ig|]; cbn -[merge_items]; [|done].
  rewrite sync_bind_unfold. cbn -[merge_items].
  destruct (uig_posts ig) as [posts|]; cbn -[merge_items]; [|done].
  by destruct (merge_items toLowerCase (ig_posts i) posts w).
Qed.

Lemma linkedin_part_activities update l w :
  (li_activities (linkedin_part toLowerCase update l w).1,
   (linkedin_part toLowerCase update l w).2)
  = merge_items toLowerCase (li_activities l) (incoming_activities update) w.
Proof.
  unfold linkedin_part, incoming_activities.
  destruct (mu_social update ≫= us_linkedin) as [li|]; cbn -[merge_items]; [|done].
  rewrite sync_bind_unfold. cbn -[merge_items].
  destruct (uli_activities li) as [activities|]; cbn -[merge_items]; [|done].
  by destruct (merge_items toLowerCase (li_activities l) activities w).
Qed.

Lemma layer_part_entries update layer stored w :
  layer_part toLowerCase (mu_psychoTree update) layer stored w
  = merge_entries toLowerCase layer stored (incoming_entries update layer) w.
Proof.
  unfold layer_part, incoming_entries.
  by destruct (mu_psychoTree update ≫= update_layer layer) as [[|e es]|].
Qed.

(** The lists of the merged record and the world it leaves, as the six
    loops run one after the other. *)
Lemma applyMemoryUpdate_lists r f w :
  let p := merge_items toLowerCase (ig_posts (instagram (social r))) (incoming_posts f) w in
  let a := merge_items toLowerCase (li_activities (linkedin (social r)))
             (incoming_activities f) p.2 in
  let e1 := merge_entries toLowerCase leaves (pt_leaves (psychoTree r))
              (incoming_entries f leaves) a.2 in
  let e2 := merge_entries toLowerCase branches (pt_branches (psychoTree r))
              (incoming_entries f branches) e1.2 in
  let e3 := merge_entries toLowerCase trunk (pt_trunk (psychoTree r))
              (incoming_entries f trunk) e2.2 in
  let e4 := merge_entries toLowerCase roots (pt_roots (psychoTree r))
              (incoming_entries f roots) e3.2 in
  let r' := (applyMemoryUpdate toLowerCase r f w).1 in
  ig_posts (instagram (social r')) = p.1
  ∧ li_activities (linkedin (social r')) = a.1
  ∧ pt_leaves (psychoTree r') = e1.1
  ∧ pt_branches (psychoTree r') = e2.1
  ∧ pt_trunk (psychoTree r') = e3.1
  ∧ pt_roots (psychoTree r') = e4.1
  ∧ (applyMemoryUpdate toLowerCase r f w).2 = e4.2.
Proof.
  cbn zeta. rewrite applyMemoryUpdate_parts.
  cbn [fst snd social instagram linkedin psychoTree].
  pose proof (instagram_part_posts f (instagram (social r)) w) as Hi.
  pose proof (f_equal fst Hi) as Hi1. pose proof (f_equal snd Hi) as Hi2.
  cbn [fst snd] in Hi1, Hi2. rewrite !Hi2, Hi1. clear Hi Hi1 Hi2.
  set (w1 := (merge_items toLowerCase _ (incoming_posts f) w).2).
  pose proof (linkedin_part_activities f (linkedin (social r)) w1) as Hl.
  pose proof (f_equal fst Hl) as Hl1. pose proof (f_equal snd Hl) as Hl2.
  cbn [fst snd] in Hl1, Hl2. rewrite !Hl2, Hl1. clear Hl Hl1 Hl2.
  unfold tree_part. rewrite !sync_bind_unfold. cbn [fst snd mret sync_ret].
  rewrite !layer_part_entries.
  cbn [pt_leaves pt_branches pt_trunk pt_roots]. done.
Qed.

End MergeMore.

(** ** [applyMemoryUpdate]: what a merge keeps, adds and never touches *)

(** X1. [applyMemoryUpdate] overwrites [user.name] and [user.email] exactly
    when the fragment supplies a non-empty value, and with that value; a
    known name or email is never replaced by null or the empty string. It
    never touches the id of the user, the transcript, the stored follow-up,
    [createdAt] or [updatedAt]. *)
Theorem applyMemoryUpdate_identity (toLowerCase : string → string)
    (r : UserMemory) (f : MemoryUpdate) (w : World) :
  let r' := (applyMemoryUpdate toLowerCase r f w).1 in
  overwritten_only_when_supplied (mu_user f ≫= uu_name)
    (user_name (user r)) (user_name (user r'))
  ∧ overwritten_only_when_supplied (mu_user f ≫= uu_email)
      (user_email (user r)) (user_email (user r'))
  ∧ user_id (user r') = user_id (user r)
  ∧ transcript r' = transcript r
  ∧ lastFollowup r' = lastFollowup r
  ∧ createdAt r' = createdAt r
  ∧ updatedAt r' = updatedAt r.
Proof.
  cbn zeta. rewrite applyMemoryUpdate_parts.
  cbn [fst user user_part user_name user_email user_id transcript lastFollowup
       createdAt updatedAt].
  split; [apply assign_if_truthy_spec|]. split; [apply assign_if_truthy_spec|].
  done.
Qed.

(** X2. A merge only appends: the posts, the activities and the entries of
    every layer that were stored before are all still there, unchanged and
    in their order, at the front of the merged lists. *)
Theorem applyMemoryUpdate_keeps_history (toLowerCase : string → string)
    (r : UserMemory) (f : MemoryUpdate) (w : World) :
  ig_posts (instagram (social r))
    `prefix_of` ig_posts (instagram (social (applyMemoryUpdate toLowerCase r f w).1))
  ∧ li_activities (linkedin (social r))
      `prefix_of` li_activities (linkedin (social (applyMemoryUpdate toLowerCase r f w).1))
  ∧ ∀ layer,
      layer_entries layer (psychoTree r)
        `prefix_of` layer_entries layer (psychoTree (applyMemoryUpdate toLowerCase r f w).1).
Proof.
  destruct (applyMemoryUpdate_lists toLowerCase r f w)
    as (-> & -> & H1 & H2 & H3 & H4 & _).
  split; [|split].
  - destruct (merge_items_appends toLowerCase (ig_posts (instagram (social r)))
                (incoming_posts f) w) as (added & -> & _). by exists added.
  - match goal with |- _ `prefix_of` (merge_items _ ?l ?i ?w').1 =>
      destruct (merge_items_appends toLowerCase l i w') as (added & -> & _) end.
    by exists added.
  - intros []; cbn [layer_entries]; rewrite ?H1, ?H2, ?H3, ?H4;
      match goal with |- _ `prefix_of` (merge_entries _ ?la ?l ?i ?w').1 =>
        destruct (merge_entries_appends toLowerCase la l i w') as (added & -> & _) end;
      by exists added.
Qed.

(** X3. Every post and every activity a merge appends was made from an
    incoming item with a non-empty text: it has that text, and the date and
    url of the item (null when the item has none). *)
Theorem applyMemoryUpdate_posts_from (toLowerCase : string → string)
    (r : UserMemory) (f : MemoryUpdate) (w : World) :
  Forall (λ p, ∃ item, item ∈ incoming_posts f ∧ post_from item p)
    (appended (ig_posts (instagram (social r)))
       (ig_posts (instagram (social (applyMemoryUpdate toLowerCase r f w).1))))
  ∧ Forall (λ p, ∃ item, item ∈ incoming_activities f ∧ post_from item p)
      (appended (li_activities (linkedin (social r)))
         (li_activities (linkedin (social (applyMemoryUpdate toLowerCase r f w).1)))).
Proof.
  destruct (applyMemoryUpdate_lists toLowerCase r f w) as (-> & -> & _).
  unfold appended. split.
  - destruct (merge_items_appends toLowerCase (ig_posts (instagram (social r)))
                (incoming_posts f) w) as (added & -> & _ & _ & H).
    by rewrite drop_app_length.
  - match goal with |- Forall _ (drop _ (merge_items _ ?l ?i ?w').1) =>
      destruct (merge_items_appends toLowerCase l i w') as (added & -> & _ & _ & H) end.
    by rewrite drop_app_length.
Qed.

(** X4. Every entry a merge appends to a layer was made from an incoming
    entry of that layer with a non-empty answer: it carries the tag of the
    layer, the question, answer, evidence and confidence of the incoming
    entry, and its tags without the empty ones (none when it has no tags). *)
Theorem applyMemoryUpdate_entries_from (toLowerCase : string → string)
    (r : UserMemory) (f : MemoryUpdate) (w : World) (layer : PsychoLayer) :
  Forall (λ e, ∃ entry, entry ∈ incoming_entries f layer ∧ entry_from layer entry e)
    (appended (layer_entries layer (psychoTree r))
       (layer_entries layer (psychoTree (applyMemoryUpdate toLowerCase r f w).1))).
Proof.
  destruct (applyMemoryUpdate_lists toLowerCase r f w)
    as (_ & _ & H1 & H2 & H3 & H4 & _).
  unfold appended.
  destruct layer; cbn [layer_entries]; rewrite ?H1, ?H2, ?H3, ?H4;
    match goal with |- Forall _ (drop _ (merge_entries _ ?la ?l ?i ?w').1) =>
      destruct (merge_entries_appends toLowerCase la l i w')
        as (added & -> & _ & _ & _ & H) end;
    by rewrite drop_app_length.
Qed.

Section MergeKeys.

Variable toLowerCase : string → string.

Lemma merge_items_takes_all stored incoming w item text :
  item ∈ incoming → JS.truthy (ui_text item) = Some text →
  ∃ p, p ∈ (merge_items toLowerCase stored incoming w).1
       ∧ toLowerCase (sp_text p) = toLowerCase text.
Proof.
  intros Hin Ht. rewrite merge_items_unfold. cbn [fst snd].
  set (st := (list_to_set (post_key toLowerCase <$> stored), stored)).
  pose proof (forEach_push_mirrors (item_step toLowerCase) (post_key toLowerCase)
                (item_step_key toLowerCase) incoming st w eq_refl) as Hm.
  destruct (forEach_push_grows (item_step toLowerCase) (post_key toLowerCase)
              (item_step_key toLowerCase) incoming st w) as [_ Hg].
  assert (Hs : item_step toLowerCase item =
               Some (toLowerCase text,
                     id ← randomUUID;
                     mret {| sp_id := id; sp_text := text;
                             sp_date := ui_date item; sp_url := ui_url item |})).
  { unfold item_step. by rewrite Ht. }
  specialize (Hg item _ _ Hin Hs). unfold mirrors in Hm. rewrite Hm in Hg.
  apply elem_of_list_to_set, list_elem_of_fmap in Hg as (p & Hp & Hin').
  exists p. split; [done|]. by rewrite Hp.
Qed.

Lemma merge_entries_takes_all layer stored incoming w entry answer :
  entry ∈ incoming → JS.truthy (ue_answer entry) = Some answer →
  ∃ e, e ∈ (merge_entries toLowerCase layer stored incoming w).1
       ∧ stored_key toLowerCase e = entry_key toLowerCase (ue_question entry) answer.
Proof.
  intros Hin Ht. rewrite merge_entries_unfold. cbn [fst snd].
  set (st := (list_to_set (stored_key toLowerCase <$> stored), stored)).
  pose proof (forEach_push_mirrors (entry_step toLowerCase layer) (stored_key toLowerCase)
                (entry_step_key toLowerCase layer) incoming st w eq_refl) as Hm.
  destruct (forEach_push_grows (entry_step toLowerCase layer) (stored_key toLowerCase)
              (entry_step_key toLowerCase layer) incoming st w) as [_ Hg].
  assert (Hs : ∃ make, entry_step toLowerCase layer entry =
               Some (entry_key toLowerCase (ue_question entry) answer, make)).
  { unfold entry_step. rewrite Ht. by eexists. }
  destruct Hs as [make Hs].
  specialize (Hg entry _ _ Hin Hs). unfold mirrors in Hm. rewrite Hm in Hg.
  apply elem_of_list_to_set, list_elem_of_fmap in Hg as (e & He & Hin').
  exists e. split; [done|]. by rewrite He.
Qed.

Lemma merge_entries_blank layer stored incoming w :
  Forall (λ entry, JS.truthy (ue_answer entry) = None) incoming →
  merge_entries toLowerCase layer stored incoming w = (stored, w).
Proof.
  intros Hblank. rewrite merge_entries_unfold.
  rewrite forEach_push_noop; [done|].
  intros entry key make Hin Hs. exfalso.
  rewrite Forall_forall in Hblank. specialize (Hblank entry Hin).
  unfold entry_step in Hs. by rewrite Hblank in Hs.
Qed.

Lemma merge_items_blank stored incoming w :
  Forall (λ item, JS.truthy (ui_text item) = None) incoming →
  merge_items toLowerCase stored incoming w = (stored, w).
Proof.
  intros Hblank. rewrite merge_items_unfold.
  rewrite forEach_push_noop; [done|].
  intros item key make Hin Hs. exfalso.
  rewrite Forall_forall in Hblank. specialize (Hblank item Hin).
  unfold item_step in Hs. by rewrite Hblank in Hs.
Qed.

Lemma merge_items_app stored pre rest w :
  merge_items toLowerCase stored (pre ++ rest) w =
  merge_items toLowerCase (merge_items toLowerCase stored pre w).1 rest
    (merge_items toLowerCase stored pre w).2.
Proof.
  rewrite !merge_items_unfold. cbn [fst snd]. rewrite forEach_app.
  pose proof (forEach_push_mirrors (item_step toLowerCase)
    (post_key toLowerCase) (item_step_key toLowerCase) pre
    (list_to_set (post_key toLowerCase <$> stored), stored) w eq_refl) as Hm.
  unfold mirrors in Hm.
  destruct (forEach _ pre _ w) as [[S1 L1] w1]. cbn [fst snd] in *. subst S1.
  reflexivity.
Qed.

End MergeKeys.

(** X5. A merge loses nothing that is new: after it, for every incoming
    post and activity with a non-empty text some stored one has the same
    lower-cased text, and for every incoming entry with a non-empty answer
    some stored entry of its layer has the same key. *)
Theorem applyMemoryUpdate_takes_all (toLowerCase : string → string)
    (r : UserMemory) (f : MemoryUpdate) (w : World) :
  (∀ item text, item ∈ incoming_posts f → JS.truthy (ui_text item) = Some text →
     ∃ p, p ∈ ig_posts (instagram (social (applyMemoryUpdate toLowerCase r f w).1))
          ∧ toLowerCase (sp_text p) = toLowerCase text)
  ∧ (∀ item text, item ∈ incoming_activities f → JS.truthy (ui_text item) = Some text →
     ∃ p, p ∈ li_activities (linkedin (social (applyMemoryUpdate toLowerCase r f w).1))
          ∧ toLowerCase (sp_text p) = toLowerCase text)
  ∧ (∀ layer entry answer,
       entry ∈ incoming_entries f layer → JS.truthy (ue_answer entry) = Some answer →
       ∃ e, e ∈ layer_entries layer (psychoTree (applyMemoryUpdate toLowerCase r f w).1)
            ∧ stored_key toLowerCase e
              = entry_key toLowerCase (ue_question entry) answer).
Proof.
  destruct (applyMemoryUpdate_lists toLowerCase r f w)
    as (-> & -> & H1 & H2 & H3 & H4 & _).
  split; [|split].
  - intros item text. apply merge_items_takes_all.
  - intros item text. apply merge_items_takes_all.
  - intros [] entry answer; cbn [layer_entries]; rewrite ?H1, ?H2, ?H3, ?H4;
      apply merge_entries_takes_all.
Qed.

(** X6. Layer isolation: a fragment that brings a layer no entry with a
    non-empty answer (no list, an empty list, or only entries without
    answer) leaves that layer as it was, whatever it brings to the other
    layers. *)
Theorem applyMemoryUpdate_layer_untouched (toLowerCase : string → string)
    (r : UserMemory) (f : MemoryUpdate) (w : World) (layer : PsychoLayer) :
  Forall (λ entry, JS.truthy (ue_answer entry) = None) (incoming_entries f layer) →
  layer_entries layer (psychoTree (applyMemoryUpdate toLowerCase r f w).1)
  = layer_entries layer (psychoTree r).
Proof.
  intros Hblank.
  destruct (applyMemoryUpdate_lists toLowerCase r f w)
    as (_ & _ & H1 & H2 & H3 & H4 & _).
  destruct layer; cbn [layer_entries]; rewrite ?H1, ?H2, ?H3, ?H4;
    by rewrite merge_entries_blank.
Qed.

Lemma applyMemoryUpdate_layer_untouched_witness :
  Forall (λ entry, JS.truthy (ue_answer entry) = None)
    (incoming_entries hiking_fragment branches)
  ∧ layer_entries branches
      (psychoTree (applyMemoryUpdate JS.toLowerCase_ascii colon_record
                     hiking_fragment world0).1)
    = layer_entries branches (psychoTree colon_record).
Proof.
  assert (H : Forall (λ entry, JS.truthy (ue_answer entry) = None)
                (incoming_entries hiking_fragment branches)) by constructor.
  split; [exact H|].
  exact (applyMemoryUpdate_layer_untouched JS.toLowerCase_ascii colon_record
           hiking_fragment world0 branches H).
Defined.

(** X7. Every merge keeps the keys of a layer distinct: if no two entries
    of a layer have the same key (the lower-cased question + ":" + answer),
    the same holds after [applyMemoryUpdate]. *)
Theorem applyMemoryUpdate_unique_keys (toLowerCase : string → string)
    (r : UserMemory) (f : MemoryUpdate) (w : World) (layer : PsychoLayer) :
  NoDup (stored_key toLowerCase <$> layer_entries layer (psychoTree r)) →
  NoDup (stored_key toLowerCase
           <$> layer_entries layer (psychoTree (applyMemoryUpdate toLowerCase r f w).1)).
Proof.
  intros Hnd.
  destruct (applyMemoryUpdate_lists toLowerCase r f w)
    as (_ & _ & H1 & H2 & H3 & H4 & _).
  destruct layer; cbn [layer_entries] in *; rewrite ?H1, ?H2, ?H3, ?H4;
    by apply merge_entries_NoDup.
Qed.

Lemma applyMemoryUpdate_unique_keys_witness :
  NoDup (stored_key JS.toLowerCase_ascii <$> layer_entries leaves (psychoTree colon_record))
  ∧ NoDup (stored_key JS.toLowerCase_ascii
             <$> layer_entries leaves
                   (psychoTree (applyMemoryUpdate JS.toLowerCase_ascii colon_record
                                  hiking_fragment world0).1)).
Proof.
  assert (H : NoDup (stored_key JS.toLowerCase_ascii
                       <$> layer_entries leaves (psychoTree colon_record))).
  { apply NoDup_singleton. }
  split; [exact H|].
  exact (applyMemoryUpdate_unique_keys JS.toLowerCase_ascii colon_record
           hiking_fragment world0 leaves H).
Defined.

(** ** [applyMemoryUpdate]: identifiers and clock readings *)

Lemma fmap_seq_app {C : Type} (g : nat → C) (d n1 n2 : nat) (l1 l2 : list C) :
  l1 = g <$> seq d n1 → l2 = g <$> seq (n1 + d) n2 →
  l1 ++ l2 = g <$> seq d (n1 + n2).
Proof.
  intros -> ->. rewrite seq_app, fmap_app. do 3 f_equal. lia.
Qed.

Lemma advance_eq n m n' m' w : n = n' → m = m' → advance n m w = advance n' m' w.
Proof. by intros -> ->. Qed.

Lemma seq_eq d d' n n' : d = d' → n = n' → seq d n = seq d' n'.
Proof. by intros -> ->. Qed.

Lemma seq_app_from d n s m : s = n + d → seq d n ++ seq s m = seq d (n + m).
Proof. intros ->. rewrite seq_app. do 2 f_equal. lia. Qed.

(** X8. Every object a merge appends gets its own identifier and the
    identifiers are the next ones of [randomUUID], in the order posts,
    activities, leaves, branches, trunk, roots; every appended entry gets the
    next clock reading as its timestamp; nothing else is drawn or read. *)
Theorem applyMemoryUpdate_draws (toLowerCase : string → string)
    (r : UserMemory) (f : MemoryUpdate) (w : World) :
  let r' := (applyMemoryUpdate toLowerCase r f w).1 in
  let posts := appended (ig_posts (instagram (social r))) (ig_posts (instagram (social r'))) in
  let activities :=
    appended (li_activities (linkedin (social r))) (li_activities (linkedin (social r'))) in
  let entries :=
    appended (pt_leaves (psychoTree r)) (pt_leaves (psychoTree r'))
    ++ appended (pt_branches (psychoTree r)) (pt_branches (psychoTree r'))
    ++ appended (pt_trunk (psychoTree r)) (pt_trunk (psychoTree r'))
    ++ appended (pt_roots (psychoTree r)) (pt_roots (psychoTree r')) in
  (applyMemoryUpdate toLowerCase r f w).2
  = advance (length posts + length activities + length entries) (length entries) w
  ∧ (sp_id <$> posts) ++ (sp_id <$> activities) ++ (pe_id <$> entries)
    = uuid_source w
        <$> seq (uuid_drawn w) (length posts + length activities + length entries)
  ∧ pe_timestamp <$> entries
    = clock_source w <$> seq (clock_reads w) (length entries).
Proof.
  cbn zeta.
  destruct (applyMemoryUpdate_lists toLowerCase r f w)
    as (-> & -> & -> & -> & -> & -> & ->).
  destruct (merge_items_appends toLowerCase (ig_posts (instagram (social r)))
              (incoming_posts f) w) as (a1 & -> & -> & Hi1 & _).
  destruct (merge_items_appends toLowerCase (li_activities (linkedin (social r)))
              (incoming_activities f) (advance (length a1) 0 w))
    as (a2 & -> & -> & Hi2 & _).
  rewrite advance_advance in *.
  destruct (merge_entries_appends toLowerCase leaves (pt_leaves (psychoTree r))
              (incoming_entries f leaves) (advance (length a2 + length a1) (0 + 0) w))
    as (b1 & -> & -> & Hb1 & Ht1 & _).
  rewrite advance_advance in *.
  destruct (merge_entries_appends toLowerCase branches (pt_branches (psychoTree r))
              (incoming_entries f branches)
              (advance (length b1 + (length a2 + length a1)) (length b1 + (0 + 0)) w))
    as (b2 & -> & -> & Hb2 & Ht2 & _).
  rewrite advance_advance in *.
  destruct (merge_entries_appends toLowerCase trunk (pt_trunk (psychoTree r))
              (incoming_entries f trunk)
              (advance (length b2 + (length b1 + (length a2 + length a1)))
                 (length b2 + (length b1 + (0 + 0))) w))
    as (b3 & -> & -> & Hb3 & Ht3 & _).
  rewrite advance_advance in *.
  destruct (merge_entries_appends toLowerCase roots (pt_roots (psychoTree r))
              (incoming_entries f roots)
              (advance (length b3 + (length b2 + (length b1 + (length a2 + length a1))))
                 (length b3 + (length b2 + (length b1 + (0 + 0)))) w))
    as (b4 & -> & -> & Hb4 & Ht4 & _).
  rewrite advance_advance in *.
  unfold appended. rewrite !drop_app_length.
  cbn [advance uuid_source uuid_drawn clock_source clock_reads] in *.
  rewrite !length_app, !fmap_app.
  unfold SocialActivity in *.
  split; [apply advance_eq; lia|]. split.
  - rewrite Hi1, Hi2, Hb1, Hb2, Hb3, Hb4.
    rewrite <- !fmap_app. f_equal.
    rewrite !seq_app_from by lia. apply seq_eq; lia.
  - rewrite Ht1, Ht2, Ht3, Ht4. rewrite <- !fmap_app. f_equal.
    rewrite !seq_app_from by lia. apply seq_eq; lia.
Qed.

(** ** [sanitizeSessionId]: fixed points and collisions *)

Lemma replace_unsafe_app a b :
  replace_unsafe (a +:+ b) = replace_unsafe a +:+ replace_unsafe b.
Proof.
  induction a as [|c a IH]; [done|].
  change (String c a +:+ b) with (String c (a +:+ b)). cbn [replace_unsafe].
  destruct (safe_char c); [|done].
  change (String c (replace_unsafe a) +:+ replace_unsafe b)
    with (String c (replace_unsafe a +:+ replace_unsafe b)). by rewrite IH.
Qed.

Lemma replace_unsafe_safe s :
  Forall (λ c, c ∈ allowed_chars) (list_ascii_of_string s) → replace_unsafe s = s.
Proof.
  induction s as [|c s IH]; [done|]. cbn. intros H.
  apply Forall_cons in H as [Hc Hs].
  rewrite safe_char_allowed. unfold allowed. rewrite bool_decide_eq_true_2 by done.
  by rewrite IH.
Qed.

Lemma replace_unsafe_unsafe s :
  Forall (λ c, c ∉ allowed_chars) (list_ascii_of_string s) → replace_unsafe s = "".
Proof.
  induction s as [|c s IH]; [done|]. cbn. intros H.
  apply Forall_cons in H as [Hc Hs].
  rewrite safe_char_allowed. unfold allowed. rewrite bool_decide_eq_false_2 by done.
  by apply IH.
Qed.

Lemma sanitizeSessionId_chars s :
  Forall (λ c, c ∈ allowed_chars) (list_ascii_of_string (sanitizeSessionId s))
  ∧ sanitizeSessionId s ≠ "".
Proof.
  unfold sanitizeSessionId. cbn zeta.
  destruct (0 <? String.length (replace_unsafe s))%nat eqn:E.
  - split; [rewrite replace_unsafe_filter; apply keep_allowed_chars|].
    intros H. rewrite H in E. discriminate.
  - split; [|done]. apply Forall_forall. intros c Hc. apply list_elem_of_In in Hc.
    vm_compute in Hc. unfold allowed_chars.
    repeat (destruct Hc as [<-|Hc]; [apply list_elem_of_In; vm_compute; tauto|]).
    destruct Hc.
Qed.

(** X9. [sanitizeSessionId] is idempotent and never returns the empty
    string: a storage key sanitises to itself, so the [user.id] of a record
    names its own file. *)
Theorem sanitizeSessionId_idempotent (sessionId : string) :
  sanitizeSessionId (sanitizeSessionId sessionId) = sanitizeSessionId sessionId
  ∧ sanitizeSessionId sessionId ≠ "".
Proof.
  destruct (sanitizeSessionId_chars sessionId) as [Hc Hne]. split; [|done].
  unfold sanitizeSessionId at 1. rewrite replace_unsafe_safe by done.
  by destruct (sanitizeSessionId sessionId).
Qed.

(** X10. A non-empty session id made of letters, digits, underscores and
    hyphens only is its own storage key, so two different such ids never
    share a record. *)
Theorem sanitizeSessionId_safe_id (sessionId : string) :
  sessionId ≠ "" →
  Forall (λ c, c ∈ allowed_chars) (list_ascii_of_string sessionId) →
  sanitizeSessionId sessionId = sessionId.
Proof.
  intros Hne Hsafe. unfold sanitizeSessionId. rewrite replace_unsafe_safe by done.
  by destruct sessionId.
Qed.

Lemma sanitizeSessionId_safe_id_witness :
  "user_42-a" ≠ ""
  ∧ Forall (λ c, c ∈ allowed_chars) (list_ascii_of_string "user_42-a")
  ∧ sanitizeSessionId "user_42-a" = "user_42-a".
Proof.
  assert (H1 : "user_42-a" ≠ "") by discriminate.
  assert (H2 : Forall (λ c, c ∈ allowed_chars) (list_ascii_of_string "user_42-a")).
  { apply Forall_forall. intros c Hc. apply list_elem_of_In in Hc. vm_compute in Hc.
    unfold allowed_chars.
    repeat (destruct Hc as [<-|Hc]; [apply list_elem_of_In; vm_compute; tauto|]).
    destruct Hc. }
  split; [exact H1|]. split; [exact H2|].
  exact (sanitizeSessionId_safe_id "user_42-a" H1 H2).
Defined.

(** X11. Characters outside the allowed ones do not count: session ids that
    differ only by such characters, wherever they stand, have the same
    storage key and so share one record and one lock. *)
Theorem sanitizeSessionId_ignores_unsafe (before unsafe after : string) :
  Forall (λ c, c ∉ allowed_chars) (list_ascii_of_string unsafe) →
  sanitizeSessionId (before +:+ unsafe +:+ after) = sanitizeSessionId (before +:+ after).
Proof.
  intros Hu. unfold sanitizeSessionId.
  rewrite !replace_unsafe_app, (replace_unsafe_unsafe unsafe) by done. done.
Qed.

Lemma sanitizeSessionId_ignores_unsafe_witness :
  Forall (λ c, c ∉ allowed_chars) (list_ascii_of_string "/../")
  ∧ sanitizeSessionId ("abc" +:+ "/../" +:+ "123") = sanitizeSessionId ("abc" +:+ "123").
Proof.
  assert (H : Forall (λ c, c ∉ allowed_chars) (list_ascii_of_string "/../")).
  { repeat constructor; intros Hc; apply list_elem_of_In in Hc; vm_compute in Hc;
      repeat (destruct Hc as [Hc|Hc]; [discriminate|]); destruct Hc. }
  split; [exact H|].
  exact (sanitizeSessionId_ignores_unsafe "abc" "/../" "123" H).
Defined.

(** ** RecordStore: round trips and committed updates *)

(** Running [p] and then [f] on its value, without faults. *)
Lemma run_io_bind_nil {A B : Type} (p : io A) (f : A → io B) files w :
  run (io_bind f p) [] files w =
  match run p [] files w with
  | (Ok a, files', w') => run (f a) [] files' w'
  | (Err e, files', w') => (Err e, files', w')
  end.
Proof.
  revert files w.
  induction p as [a|e|k IH|safeId k IH|safeId data k IH|C c k IH|u m k IH];
    intros files w; cbn; try done.
  - destruct (c w) as [b w']. apply IH.
  - destruct (u m w) as [r w']. apply IH.
Qed.

Lemma run_bind_nil {A B : Type} (p : io A) (f : A → io B) files w :
  run (p ≫= f) [] files w =
  match run p [] files w with
  | (Ok a, files', w') => run (f a) [] files' w'
  | (Err e, files', w') => (Err e, files', w')
  end.
Proof. apply run_io_bind_nil. Qed.

Lemma run_readMemoryFile_nil sessionId files w :
  run (readMemoryFile sessionId) [] files w =
  match files !! sanitizeSessionId sessionId with
  | Some (Json memory) => (Ok memory, files, w)
  | Some (Garbage _) => (Err SyntaxError, files, w)
  | None =>
      let d := createEmptyMemory (sanitizeSessionId sessionId) w in
      (Ok d.1, <[sanitizeSessionId sessionId := Json d.1]> files, d.2)
  end.
Proof. rewrite run_nil_faults. by rewrite run_readMemoryFile. Qed.

Lemma run_lift {A : Type} (c : sync A) faults files w :
  run (lift c) faults files w = (Ok (c w).1, files, (c w).2).
Proof. unfold lift. cbn. by destruct (c w). Qed.

Lemma run_writeMemoryFile_nil sessionId memory files w :
  run (writeMemoryFile sessionId memory) [] files w
  = (Ok tt, <[sanitizeSessionId sessionId := Json memory]> files, w).
Proof. reflexivity. Qed.



(** X13. [getMemory] creates the default record at most once: when a call
    has returned a record, every later call for the session returns that
    same record and leaves the store as it is, whatever the clock says. *)
Theorem getMemory_again (sessionId : string) (files files1 : gmap string raw)
    (w w1 w2 : World) (memory : UserMemory) :
  run (getMemory sessionId) [] files w = (Ok memory, files1, w1) →
  run (getMemory sessionId) [] files1 w2 = (Ok memory, files1, w2).
Proof.
  unfold getMemory. rewrite !run_readMemoryFile_nil.
  destruct (files !! sanitizeSessionId sessionId) as [[m|t]|] eqn:Hf.
  - intros [= <- <- <-]. by rewrite Hf.
  - discriminate.
  - cbn zeta. intros [= <- <- <-]. by rewrite lookup_insert_eq.
Qed.

Lemma getMemory_again_witness :
  run (getMemory "abc123") [] ∅ world0
  = (Ok (createEmptyMemory "abc123" world0).1,
     {[ "abc123" := Json (createEmptyMemory "abc123" world0).1 ]},
     (createEmptyMemory "abc123" world0).2)
  ∧ run (getMemory "abc123") []
      {[ "abc123" := Json (createEmptyMemory "abc123" world0).1 ]}
      (createEmptyMemory "abc123" world0).2
    = (Ok (createEmptyMemory "abc123" world0).1,
       {[ "abc123" := Json (createEmptyMemory "abc123" world0).1 ]},
       (createEmptyMemory "abc123" world0).2).
Proof.
  assert (H : run (getMemory "abc123") [] ∅ world0
              = (Ok (createEmptyMemory "abc123" world0).1,
                 {[ "abc123" := Json (createEmptyMemory "abc123" world0).1 ]},
                 (createEmptyMemory "abc123" world0).2)).
  { vm_compute. reflexivity. }
  split; [exact H|].
  exact (getMemory_again "abc123" ∅ _ world0 _ _ _ H).
Defined.

(** X14. A successful [updateMemory] commits what it returns: when the
    record is loaded (or created) and the updater returns, the call returns
    the updater's record with [updatedAt] set to the clock reading made
    after the updater, and the file of the session holds exactly that
    record; no other file is changed by the write. *)
Theorem updateMemory_commits (sessionId : string) (updater : Updater)
    (files files1 : gmap string raw) (w w1 w2 : World) (loaded updated : UserMemory) :
  run (readMemoryFile sessionId) [] files w = (Ok loaded, files1, w1) →
  updater loaded w1 = (Ok updated, w2) →
  run (updateMemory_fn sessionId updater) [] files w
  = (Ok (set_updatedAt (now w2).1 updated),
     <[sanitizeSessionId sessionId := Json (set_updatedAt (now w2).1 updated)]> files1,
     (now w2).2).
Proof.
  intros Hload Hupd. unfold updateMemory_fn.
  rewrite run_bind_nil, Hload, run_bind_nil.
  unfold invoke at 1. cbn [run]. rewrite Hupd. cbn [settle run].
  rewrite run_bind_nil. unfold lift at 1. cbn [run].
  destruct (now w2) as [ts w3]. cbn [run fst snd].
  rewrite run_bind_nil, run_writeMemoryFile_nil. reflexivity.
Qed.

Lemma updateMemory_commits_witness :
  run (readMemoryFile "abc123") [] {[ "abc123" := Json sunset_record ]} world0
  = (Ok sunset_record, {[ "abc123" := Json sunset_record ]}, world0)
  ∧ say "hello" sunset_record world0
    = (Ok (appendTranscriptEntry sunset_record
             {| tr_role := role_user; tr_content := "hello";
                tr_timestamp := (now world0).1 |}), (now world0).2)
  ∧ (run (updateMemory_fn "abc123" (say "hello")) []
       {[ "abc123" := Json sunset_record ]} world0).1.1
    = Ok (set_updatedAt (now (now world0).2).1
            (appendTranscriptEntry sunset_record
               {| tr_role := role_user; tr_content := "hello";
                  tr_timestamp := (now world0).1 |})).
Proof.
  assert (H1 : run (readMemoryFile "abc123") [] {[ "abc123" := Json sunset_record ]} world0
               = (Ok sunset_record, {[ "abc123" := Json sunset_record ]}, world0)).
  { vm_compute. reflexivity. }
  assert (H2 : say "hello" sunset_record world0
               = (Ok (appendTranscriptEntry sunset_record
                        {| tr_role := role_user; tr_content := "hello";
                           tr_timestamp := (now world0).1 |}), (now world0).2)).
  { reflexivity. }
  split; [exact H1|]. split; [exact H2|].
  by rewrite (updateMemory_commits "abc123" (say "hello") _ _ _ _ _ _ _ H1 H2).
Defined.

(** ** The transcript under successive updates *)

Lemma memory_post_updater_spec role content timestamp current w :
  ∃ ts w',
    returning (memory_post_updater role content timestamp) current w
    = (Ok (appendTranscriptEntry current
             {| tr_role := role; tr_content := content; tr_timestamp := ts |}), w')
    ∧ (∀ t, timestamp = Some t → ts = t ∧ w' = w)
    ∧ (timestamp = None → ts = (now w).1 ∧ w' = (now w).2).
Proof.
  unfold returning, memory_post_updater. rewrite !sync_bind_unfold.
  destruct timestamp as [t|]; cbn; eexists _, _; (split; [reflexivity|]).
  - split; [by intros ? [= <-]|done].
  - split; [done|]. intros _. by destruct w.
Qed.

Lemma append_turn_run sessionId turn files w m0 :
  files !! sanitizeSessionId sessionId = Some (Json m0) →
  ∃ ts ts' w',
    run (append_turn sessionId turn) [] files w
    = (Ok (set_updatedAt ts'
             (appendTranscriptEntry m0
                {| tr_role := turn.1.1; tr_content := turn.1.2; tr_timestamp := ts |})),
       <[sanitizeSessionId sessionId :=
           Json (set_updatedAt ts'
                   (appendTranscriptEntry m0
                      {| tr_role := turn.1.1; tr_content := turn.1.2;
                         tr_timestamp := ts |}))]> files,
       w')
    ∧ (∀ t, turn.2 = Some t → ts = t).
Proof.
  intros Hf. unfold append_turn.
  destruct (memory_post_updater_spec turn.1.1 turn.1.2 turn.2 m0 w)
    as (ts & w' & Hu & Hts & _).
  assert (Hload : run (readMemoryFile sessionId) [] files w = (Ok m0, files, w)).
  { by rewrite run_readMemoryFile_nil, Hf. }
  rewrite (updateMemory_commits _ _ _ _ _ _ _ _ _ Hload Hu).
  exists ts, (now w').1, (now w').2. split; [done|]. intros t Ht. by apply Hts.
Qed.

(** X15. The transcript is append-only under updates: after the turns of a
    list were appended by successive calls of [updateMemory], each with the
    updater of [POST /api/memory], every call has succeeded and the record on
    file has the transcript it had, followed by one entry per turn, in the
    order of the calls, with the role and content of the turn (and its
    timestamp when the caller gave one); nothing else of the record has
    changed but [updatedAt]. *)
Theorem transcript_after_updates (sessionId : string)
    (turns : list (TranscriptRole * string * option string))
    (files : gmap string raw) (w : World) (m0 : UserMemory) :
  files !! sanitizeSessionId sessionId = Some (Json m0) →
  ∃ m added,
    (run_each (append_turn sessionId <$> turns) files w).1.2
      !! sanitizeSessionId sessionId = Some (Json m)
    ∧ transcript m = transcript m0 ++ added
    ∧ (λ e, (tr_role e, tr_content e)) <$> added = fst <$> turns
    ∧ Forall2 (λ e turn, ∀ t, turn.2 = Some t → tr_timestamp e = t) added turns
    ∧ (user m, social m, psychoTree m, lastFollowup m, createdAt m)
      = (user m0, social m0, psychoTree m0, lastFollowup m0, createdAt m0)
    ∧ Forall (λ r, ∃ returned, r = Ok returned)
        (run_each (append_turn sessionId <$> turns) files w).1.1.
Proof.
  revert files w m0. induction turns as [|turn turns IH]; intros files w m0 Hf.
  - exists m0, []. cbn. rewrite app_nil_r. repeat split; done || constructor.
  - cbn [fmap list_fmap run_each].
    destruct (append_turn_run sessionId turn files w m0 Hf) as (ts & ts' & w' & -> & Hts).
    set (m1 := set_updatedAt ts' _).
    destruct (IH (<[sanitizeSessionId sessionId := Json m1]> files) w' m1)
      as (m & added & Hm & Htr & Hrc & Hstamp & Hrest & Hok).
    { by rewrite lookup_insert_eq. }
    destruct (run_each (append_turn sessionId <$> turns) _ w') as [[rs files'] w''].
    cbn [fst snd] in *.
    exists m, ({| tr_role := turn.1.1; tr_content := turn.1.2; tr_timestamp := ts |} :: added).
    split; [done|]. split.
    { rewrite Htr. subst m1. cbn. by rewrite <- app_assoc. }
    split.
    { cbn. rewrite Hrc. by destruct turn as [[??]?]. }
    split; [by constructor|].
    split; [by rewrite Hrest|].
    constructor; [by eexists|done].
Qed.

Lemma transcript_after_updates_witness :
  ({[ "abc123" := Json sunset_record ]} : gmap string raw) !! sanitizeSessionId "abc123"
  = Some (Json sunset_record)
  ∧ ∃ m,
      (run_each (append_turn "abc123"
                   <$> [(role_user, "hello", None);
                        (role_assistant, "hi there", Some "2024-02-02T10:00:00Z")])
         {[ "abc123" := Json sunset_record ]} world0).1.2 !! "abc123" = Some (Json m)
      ∧ (λ e, (tr_role e, tr_content e)) <$> transcript m
        = [(role_user, "hello"); (role_assistant, "hi there")].
Proof.
  assert (H : ({[ "abc123" := Json sunset_record ]} : gmap string raw)
                !! sanitizeSessionId "abc123" = Some (Json sunset_record)).
  { vm_compute. reflexivity. }
  split; [exact H|].
  destruct (transcript_after_updates "abc123"
              [(role_user, "hello", None);
               (role_assistant, "hi there", Some "2024-02-02T10:00:00Z")]
              {[ "abc123" := Json sunset_record ]} world0 sunset_record H)
    as (m & added & Hm & Htr & Hrc & _).
  exists m. split; [exact Hm|]. rewrite Htr, fmap_app, Hrc. reflexivity.
Defined.

(** ** SessionLock: order, progress and isolation *)

Lemma fulfilled_of_mentions rel p :
  (∀ n, mentions n p → n ∈ rel) → fulfilled rel p = true.
Proof.
  induction p as [id|id|id c IHc nx IHn]; cbn; intros H; [done| |].
  - apply bool_decide_eq_true. by apply H.
  - apply andb_true_iff. split; [apply IHc|apply IHn]; intros n Hn; apply H; tauto.
Qed.

(** What a resumption does to the state. *)
Lemma resume_cases tid f s s' :
  resume tid f s = Some s' →
  ∃ t ph,
    tasks s !! tid = Some t
    ∧ tasks s' = <[tid := set_phase ph t]> (tasks s)
    ∧ ((∃ fn, t_phase t = Await_current fn ∧ ph = Await_fn fn
              ∧ fulfilled (released s) (t_current t) = true
              ∧ released s' = released s ∧ memoryLocks s' = memoryLocks s
              ∧ files s' = files s)
       ∨ (∃ p r, t_phase t = Await_fn p ∧ ph = Returned r ∧ s' = finally tid t r s
                 ∧ files s' = files s)
       ∨ (∃ p p' files' w', t_phase t = Await_fn p ∧ ph = Await_fn p'
              ∧ io_step p f (files s) (world s) = Some (p', files', w')
              ∧ released s' = released s ∧ memoryLocks s' = memoryLocks s
              ∧ files s' = files')).
Proof.
  intros Hres. unfold resume in Hres.
  destruct (tasks s !! tid) as [t|] eqn:Ht; [|discriminate]. cbn in Hres.
  destruct (t_phase t) as [fn|p|r] eqn:Hph; [| |discriminate].
  - destruct (fulfilled (released s) (t_current t)) eqn:Hf; [|discriminate].
    injection Hres as <-. exists t, (Await_fn fn). split; [done|]. split; [done|].
    left. by exists fn.
  - destruct p as [a|e|kont|path kont|path data kont|B c kont|u m kont].
    1: { injection Hres as <-. exists t, (Returned (Ok a)). split; [done|].
         split; [done|]. right. left. by exists (Ret a), (Ok a). }
    1: { injection Hres as <-. exists t, (Returned (Err e)). split; [done|].
         split; [done|]. right. left. by exists (Throw e), (Err e). }
    all: match type of Hres with
         | context [io_step ?p _ _ _] =>
             destruct (io_step p f (files s) (world s)) as [[[p' files'] w']|] eqn:Hstep;
               [|discriminate]; cbn in Hres; injection Hres as <-;
               exists t, (Await_fn p'); split; [done|]; split; [done|];
               right; right; by exists p, p', files', w'
         end.
Qed.

Lemma lookup_set_phase_keeps (l : list task) tid t ph i ti :
  l !! tid = Some t → l !! i = Some ti →
  ∃ ti', <[tid := set_phase ph t]> l !! i = Some ti'
         ∧ t_safeId ti' = t_safeId ti ∧ t_next ti' = t_next ti
         ∧ t_current ti' = t_current ti.
Proof.
  intros Ht Hi. destruct (decide (i = tid)) as [->|Hne].
  - exists (set_phase ph t). rewrite list_lookup_insert_eq by (by eapply lookup_lt_Some).
    assert (ti = t) as -> by congruence. done.
  - exists ti. by rewrite list_lookup_insert_ne.
Qed.

Lemma ordered_init files0 w0 : ordered (init files0 w0).
Proof.
  split; cbn.
  - intros tid t Ht. by rewrite lookup_nil in Ht.
  - intros j tj n Hj. by rewrite lookup_nil in Hj.
  - intros k p n Hp. by rewrite lookup_empty in Hp.
  - intros k [p Hp]. by rewrite lookup_empty in Hp.
Qed.

Lemma ordered_withMemoryLock sessionId fn s :
  ordered s → ordered (withMemoryLock sessionId fn s).
Proof.
  intros Hord. unfold withMemoryLock.
  set (k := sanitizeSessionId sessionId).
  assert (Hcur : ∃ current n,
    match memoryLocks s !! k with
    | Some p => (p, allocated s)
    | None => (P_resolved (allocated s), S (allocated s))
    end = (current, n)
    ∧ (∀ m, mentions m current →
         ∃ i ti, tasks s !! i = Some ti ∧ t_safeId ti = k ∧ promise_id (t_next ti) = m)).
  { destruct (memoryLocks s !! k) as [p|] eqn:Hp.
    - exists p, (allocated s). split; [done|]. intros m Hm.
      by eapply (ord_locks _ Hord).
    - exists (P_resolved (allocated s)), (S (allocated s)). split; [done|].
      by intros m []. }
  destruct Hcur as (current & n & -> & Hcur).
  set (new := {| t_safeId := k; t_current := current; t_next := P_deferred n;
                 t_phase := Await_current fn |}).
  assert (Hold : ∀ i ti, tasks s !! i = Some ti → (tasks s ++ [new]) !! i = Some ti).
  { intros i ti Hi. rewrite lookup_app_l; [done|]. by eapply lookup_lt_Some. }
  assert (Hlook : ∀ j tj, (tasks s ++ [new]) !! j = Some tj →
            (tasks s !! j = Some tj) ∨ (j = length (tasks s) ∧ tj = new)).
  { intros j tj Hj. apply lookup_app_Some in Hj as [Hj|[Hlen Hj]]; [by left|].
    right. destruct (j - length (tasks s)) as [|d] eqn:Hd; [|by destruct d].
    cbn in Hj. split; [lia|congruence]. }
  split; cbn [memoryLocks released allocated files world tasks journal].
  - intros tid t Ht Hret. apply Hlook in Ht as [Ht|[_ ->]].
    + by apply (ord_returned _ Hord tid).
    + by destruct Hret as [r Hr].
  - intros j tj m Hj Hm. apply Hlook in Hj as [Hj|[-> ->]].
    + destruct (ord_current _ Hord j tj m Hj Hm) as (i & ti & Hij & Hi & Hk & Hn).
      exists i, ti. eauto.
    + destruct (Hcur m Hm) as (i & ti & Hi & Hk & Hn).
      exists i, ti. split; [by eapply lookup_lt_Some|]. eauto.
  - intros k' p m Hp Hm. destruct (decide (k' = k)) as [->|Hne].
    + rewrite lookup_insert_eq in Hp. injection Hp as <-. cbn in Hm.
      destruct Hm as [Hm|Hm].
      * destruct (Hcur m Hm) as (i & ti & Hi & Hk & Hn). exists i, ti. eauto.
      * exists (length (tasks s)), new. split; [|done].
        rewrite lookup_app_r by lia. by rewrite Nat.sub_diag.
    + rewrite lookup_insert_ne in Hp by done.
      destruct (ord_locks _ Hord k' p m Hp Hm) as (i & ti & Hi & Hk & Hn).
      exists i, ti. eauto.
  - intros k' Hk'. destruct (decide (k' = k)) as [->|Hne].
    + exists (length (tasks s)), new. split; [|done].
      rewrite lookup_app_r by lia. by rewrite Nat.sub_diag.
    + rewrite lookup_insert_ne in Hk' by done.
      destruct (ord_dom _ Hord k' Hk') as (i & ti & Hi & Hk). exists i, ti. eauto.
Qed.

Lemma ordered_resume files0 s tid f s' :
  invariant files0 s → ordered s → resume tid f s = Some s' → ordered s'.
Proof.
  intros Hinv Hord Hres.
  destruct (resume_cases _ _ _ _ Hres) as (t & ph & Ht & Htasks & Hcase).
  assert (Hrel : released s ⊆ released s'
                 ∧ memoryLocks s' = memoryLocks s
                 ∧ (∀ r, ph = Returned r →
                      promise_id (t_next t) ∈ released s'
                      ∧ fulfilled (released s') (t_current t) = true)).
  { destruct Hcase as [(fn & Hph & -> & Hf & Hr & Hl & _)
                      |[(p & r & Hph & -> & -> & _)
                       |(p & p' & files' & w' & Hph & -> & _ & Hr & Hl & _)]].
    - rewrite Hr, Hl. done.
    - destruct (invariant_finally files0 s tid t p r Hinv Ht Hph) as [_ Hl].
      split; [cbn; set_solver|]. split; [done|]. intros _ _. split; [cbn; set_solver|].
      eapply (fulfilled_mono (released s)); [cbn; set_solver|].
      apply (inv_entered _ _ Hinv tid t Ht). unfold in_fn. by rewrite Hph.
    - rewrite Hr, Hl. done. }
  destruct Hrel as (Hsub & Hlocks & Hnew).
  split; rewrite ?Hlocks, ?Htasks.
  - intros j tj Hj Hret.
    apply (lookup_set_phase _ _ _ _ _ _ Ht) in Hj as [[-> ->]|[Hne Hj]].
    + destruct Hret as [r Hr]. cbn in Hr. by apply (Hnew r).
    + destruct (ord_returned _ Hord j tj Hj Hret) as [H1 H2].
      split; [set_solver|]. by eapply fulfilled_mono.
  - intros j tj n Hj Hm.
    assert (∃ tj0, tasks s !! j = Some tj0 ∧ t_current tj0 = t_current tj
                   ∧ t_safeId tj0 = t_safeId tj) as (tj0 & Hj0 & Hc & Hk).
    { apply (lookup_set_phase _ _ _ _ _ _ Ht) in Hj as [[-> ->]|[Hne Hj]]; eauto. }
    rewrite <- Hc in Hm.
    destruct (ord_current _ Hord j tj0 n Hj0 Hm) as (i & ti & Hij & Hi & Hki & Hn).
    destruct (lookup_set_phase_keeps _ tid t ph i ti Ht Hi) as (ti' & Hi' & Hk' & Hn' & _).
    exists i, ti'. split; [done|]. split; [done|]. split; congruence.
  - intros k p n Hp Hm.
    destruct (ord_locks _ Hord k p n Hp Hm) as (i & ti & Hi & Hki & Hn).
    destruct (lookup_set_phase_keeps _ tid t ph i ti Ht Hi) as (ti' & Hi' & Hk' & Hn' & _).
    exists i, ti'. split; [done|]. split; congruence.
  - intros k Hk.
    destruct (ord_dom _ Hord k Hk) as (i & ti & Hi & Hki).
    destruct (lookup_set_phase_keeps _ tid t ph i ti Ht Hi) as (ti' & Hi' & Hk' & _).
    exists i, ti'. split; [done|]. congruence.
Qed.

Lemma ordered_exec files0 evs s s' :
  invariant files0 s → ordered s → exec evs s = Some s' → ordered s'.
Proof.
  revert s. induction evs as [|ev evs IH]; intros s Hinv Hord Hexec; cbn in Hexec.
  - by injection Hexec as <-.
  - destruct (step ev s) as [s1|] eqn:Hstep; [|discriminate]. cbn in Hexec.
    assert (Hinv1 : invariant files0 s1).
    { apply (invariant_exec files0 [ev] s s1 Hinv). cbn. by rewrite Hstep. }
    apply (IH s1 Hinv1); [|done].
    destruct ev as [sessionId updater|tid f]; cbn in Hstep.
    + injection Hstep as <-. by apply ordered_withMemoryLock.
    + by apply (ordered_resume files0 s tid f).
Qed.

Lemma ordered_reachable files0 w0 s : reachable files0 w0 s → ordered s.
Proof.
  intros [evs Hexec].
  eapply ordered_exec; [apply invariant_init|apply ordered_init|done].
Qed.

(** A call whose predecessors on its key have all returned finds [current]
    fulfilled. *)
Lemma predecessors_returned_fulfilled files0 w0 s j tj :
  reachable files0 w0 s →
  tasks s !! j = Some tj →
  (∀ i ti, i < j → tasks s !! i = Some ti → t_safeId ti = t_safeId tj → returned ti) →
  fulfilled (released s) (t_current tj) = true.
Proof.
  intros Hs Hj Hpred. apply ordered_reachable in Hs as Hord.
  apply fulfilled_of_mentions. intros n Hn.
  destruct (ord_current _ Hord j tj n Hj Hn) as (i & ti & Hij & Hi & Hk & <-).
  by apply (ord_returned _ Hord i ti Hi), (Hpred i).
Qed.

(** X16. The calls for one key enter their function in the order they were
    made: when a call has entered its function, every call made before it
    for the same key has returned. *)
Theorem withMemoryLock_fifo (files0 : gmap string raw) (w0 : World) (s : state)
    (i j : nat) (ti tj : task) :
  reachable files0 w0 s →
  tasks s !! i = Some ti → tasks s !! j = Some tj →
  i < j → t_safeId ti = t_safeId tj →
  entered tj → returned ti.
Proof.
  intros Hs Hi Hj Hij Hk Hin.
  apply ordered_reachable in Hs as Hord. apply invariant_reachable in Hs as Hinv.
  assert (Hf : fulfilled (released s) (t_current tj) = true).
  { unfold entered in Hin. destruct (t_phase tj) as [fn|p|r] eqn:Hph; [done| |].
    - apply (inv_entered _ _ Hinv j tj Hj). unfold in_fn. by rewrite Hph.
    - apply (ord_returned _ Hord j tj Hj). by exists r. }
  pose proof (inv_chain _ _ Hinv i j ti tj Hij Hi Hj Hk) as Hm.
  pose proof (fulfilled_mentions _ _ _ Hf Hm) as Hrel.
  by destruct (inv_released _ _ Hinv i ti Hi Hrel) as [_ Hret].
Qed.

Lemma withMemoryLock_fifo_witness :
  match exec (Call "abc123" (say "first") :: Call "abc/123" (say "second")
              :: replicate 10 (Resume 0 None) ++ [Resume 1 None]) (init ∅ world0) with
  | Some s => ∃ ti tj, tasks s !! 0 = Some ti ∧ tasks s !! 1 = Some tj
                       ∧ entered tj ∧ returned ti
  | None => False
  end.
Proof.
  destruct (exec (Call "abc123" (say "first") :: Call "abc/123" (say "second")
                  :: replicate 10 (Resume 0 None) ++ [Resume 1 None]) (init ∅ world0))
    as [s|] eqn:Hexec; [|by vm_compute in Hexec].
  destruct (tasks s !! 0) as [ti|] eqn:Hi;
    [|revert Hi; vm_compute in Hexec; injection Hexec as <-; by vm_compute].
  destruct (tasks s !! 1) as [tj|] eqn:Hj;
    [|revert Hj; vm_compute in Hexec; injection Hexec as <-; by vm_compute].
  assert (Hk : t_safeId ti = t_safeId tj).
  { revert Hi Hj. vm_compute in Hexec. injection Hexec as <-. vm_compute.
    by intros [= <-] [= <-]. }
  assert (Hin : entered tj).
  { revert Hj. vm_compute in Hexec. injection Hexec as <-. vm_compute.
    by intros [= <-]. }
  exists ti, tj. split; [done|]. split; [done|]. split; [done|].
  apply (withMemoryLock_fifo ∅ world0 s 0 1 ti tj); [by eexists|done|done|lia|done|done].
Defined.

(** X17. The lock never blocks a call for good: in every state the process
    reaches, a call that has not returned and whose predecessors on its key
    have all returned, with a record or with an error, can be resumed,
    whatever the fs does. Calls for other keys play no part. *)
Theorem withMemoryLock_progress (files0 : gmap string raw) (w0 : World) (s : state)
    (j : nat) (tj : task) (f : option fault) :
  reachable files0 w0 s →
  tasks s !! j = Some tj → ¬ returned tj →
  (∀ i ti, i < j → tasks s !! i = Some ti → t_safeId ti = t_safeId tj → returned ti) →
  is_Some (resume j f s).
Proof.
  intros Hs Hj Hnot Hpred.
  pose proof (predecessors_returned_fulfilled _ _ _ _ _ Hs Hj Hpred) as Hf.
  unfold resume. rewrite Hj. cbn.
  destruct (t_phase tj) as [fn|p|r] eqn:Hph.
  - by rewrite Hf.
  - destruct p as [a|e|kont|path kont|path data kont|B c kont|u m kont]; cbn; try done.
    + by destruct (c (world s)).
    + by destruct (u m (world s)).
  - destruct Hnot. by exists r.
Qed.

Lemma withMemoryLock_progress_witness :
  is_Some (resume 1 (Some EIO)
             (updateMemory "b" (say "second")
                (updateMemory "a" (say "first") (init ∅ world0)))).
Proof.
  apply (withMemoryLock_progress ∅ world0 _ 1
           {| t_safeId := "b"; t_current := P_resolved 3; t_next := P_deferred 4;
              t_phase := Await_current (updateMemory_fn "b" (say "second")) |}).
  - by exists [Call "a" (say "first"); Call "b" (say "second")].
  - reflexivity.
  - intros [r Hr]. discriminate.
  - intros i ti Hi Hti Hk. assert (i = 0) as -> by lia.
    cbn in Hti. injection Hti as <-. cbn in Hk. discriminate.
Defined.

(** X18. [memoryLocks] has an entry for exactly the keys [updateMemory] was
    ever called with: it grows with the number of distinct sanitized session
    ids and with nothing else. *)
Theorem memoryLocks_keys (files0 : gmap string raw) (w0 : World) (s : state) :
  reachable files0 w0 s →
  dom (memoryLocks s) = list_to_set (t_safeId <$> tasks s).
Proof.
  intros Hs. apply ordered_reachable in Hs as Hord. apply invariant_reachable in Hs as Hinv.
  apply set_eq. intros k.
  rewrite elem_of_dom, elem_of_list_to_set, list_elem_of_fmap. split.
  - intros Hk. destruct (ord_dom _ Hord k Hk) as (i & ti & Hi & <-).
    exists ti. split; [done|]. by eapply list_elem_of_lookup_2.
  - intros (t & -> & Ht). apply list_elem_of_lookup_1 in Ht as [tid Ht].
    destruct (inv_held _ _ Hinv tid t Ht) as (p & Hp & _). by exists p.
Qed.

Lemma memoryLocks_keys_witness :
  dom (memoryLocks (updateMemory "a/b" (say "second")
                      (updateMemory "ab" (say "first") (init ∅ world0))))
  = list_to_set
      (t_safeId <$> tasks (updateMemory "a/b" (say "second")
                             (updateMemory "ab" (say "first") (init ∅ world0)))).
Proof.
  apply (memoryLocks_keys ∅ world0).
  by exists [Call "ab" (say "first"); Call "a/b" (say "second")].
Defined.

Lemma io_step_keeps_files {A} (p p' : io A) f files files' w w' k :
  io_step p f files w = Some (p', files', w') →
  is_Some (files !! k) → is_Some (files' !! k).
Proof.
  intros Hstep Hk.
  destruct p as [a|e|kont|path kont|path data kont|B c kont|u m kont]; cbn in Hstep;
    try discriminate.
  - by injection Hstep as _ <- _.
  - by injection Hstep as _ <- _.
  - injection Hstep as _ <- _. unfold write_effect. destruct f; [done|].
    destruct (decide (k = path)) as [->|Hne].
    + rewrite lookup_insert_eq. by eexists.
    + by rewrite lookup_insert_ne.
  - destruct (c w). by injection Hstep as _ <- _.
  - destruct (u m w). by injection Hstep as _ <- _.
Qed.

(** X19. Sessions are isolated: a step of the process changes the file of a
    key only when it resumes a call of [updateMemory] for that key which is
    inside its function; calling [updateMemory] touches no file, and no step
    removes a file. *)
Theorem updateMemory_isolated (files0 : gmap string raw) (w0 : World) (s s' : state)
    (ev : event) (k : string) :
  reachable files0 w0 s →
  step ev s = Some s' →
  (is_Some (files s !! k) → is_Some (files s' !! k))
  ∧ (files s' !! k ≠ files s !! k →
     ∃ tid f t, ev = Resume tid f ∧ tasks s !! tid = Some t
                ∧ t_safeId t = k ∧ in_fn t = true).
Proof.
  intros Hs Hstep. apply invariant_reachable in Hs as Hinv.
  destruct ev as [sessionId updater|tid f]; cbn in Hstep.
  - injection Hstep as <-. unfold updateMemory, withMemoryLock.
    destruct (memoryLocks s !! sanitizeSessionId sessionId); cbn; by split.
  - destruct (resume_cases _ _ _ _ Hstep) as (t & ph & Ht & _ & Hcase).
    destruct Hcase as [(fn & _ & _ & _ & _ & _ & ->)
                      |[(p & r & _ & _ & _ & ->)
                       |(p & p' & files' & w' & Hph & _ & Hio & _ & _ & ->)]];
      [by split|by split|].
    split; [by eapply io_step_keeps_files|]. intros Hne.
    exists tid, f, t. split; [done|]. split; [done|].
    split; [|unfold in_fn; by rewrite Hph].
    pose proof (inv_coherent _ _ Hinv tid t Ht) as Hc. rewrite Hph in Hc.
    destruct Hc as (observed & Hc & Hobs).
    destruct (io_step_coherent _ _ _ _ _ _ _ _ _ files0 (journal s) Hc Hobs
                (inv_files _ _ Hinv) (inv_journal _ _ Hinv) Hio)
      as (_ & Hframe & _).
    destruct (decide (k = t_safeId t)) as [->|Hk]; [done|].
    destruct Hne. by apply Hframe.
Qed.

Lemma updateMemory_isolated_witness :
  ∃ s s',
    exec (Call "a" (say "first") :: Call "b" (say "second")
          :: replicate 3 (Resume 0 None)) (init ∅ world0) = Some s
    ∧ step (Resume 0 None) s = Some s'
    ∧ (is_Some (files s !! "b") → is_Some (files s' !! "b"))
    ∧ (files s' !! "b" ≠ files s !! "b" →
       ∃ tid f t, Resume 0 None = Resume tid f ∧ tasks s !! tid = Some t
                  ∧ t_safeId t = "b" ∧ in_fn t = true).
Proof.
  destruct (exec (Call "a" (say "first") :: Call "b" (say "second")
                  :: replicate 3 (Resume 0 None)) (init ∅ world0))
    as [s|] eqn:Hexec; [|by vm_compute in Hexec].
  destruct (step (Resume 0 None) s) as [s'|] eqn:Hstep;
    [|vm_compute in Hexec; injection Hexec as <-; by vm_compute in Hstep].
  exists s, s'. split; [done|]. split; [done|].
  apply (updateMemory_isolated ∅ world0 s s' (Resume 0 None) "b"); [by eexists|done].
Defined.

(** What is left of a call inside its function runs to its end when it is
    resumed often enough, and does to the files and the world what [run]
    says. *)
Lemma resume_runs (p : io UserMemory) :
  ∀ s tid t,
    tasks s !! tid = Some t → t_phase t = Await_fn p →
    ∃ n s',
      exec (replicate n (Resume tid None)) s = Some s'
      ∧ files s' = (run p [] (files s) (world s)).1.2
      ∧ world s' = (run p [] (files s) (world s)).2
      ∧ tasks s' = <[tid := set_phase (Returned (run p [] (files s) (world s)).1.1) t]>
                     (tasks s).
Proof.
  assert (Hnext : ∀ q s tid t p' files' w',
    (∀ a, q ≠ Ret a) → (∀ e, q ≠ Throw e) →
    tasks s !! tid = Some t → t_phase t = Await_fn q →
    io_step q None (files s) (world s) = Some (p', files', w') →
    run q [] (files s) (world s) = run p' [] files' w' →
    (∀ s1 t1, tasks s1 !! tid = Some t1 → t_phase t1 = Await_fn p' →
       ∃ n s', exec (replicate n (Resume tid None)) s1 = Some s'
         ∧ files s' = (run p' [] (files s1) (world s1)).1.2
         ∧ world s' = (run p' [] (files s1) (world s1)).2
         ∧ tasks s' = <[tid := set_phase (Returned (run p' [] (files s1) (world s1)).1.1) t1]>
                        (tasks s1)) →
    ∃ n s', exec (replicate n (Resume tid None)) s = Some s'
      ∧ files s' = (run q [] (files s) (world s)).1.2
      ∧ world s' = (run q [] (files s) (world s)).2
      ∧ tasks s' = <[tid := set_phase (Returned (run q [] (files s) (world s)).1.1) t]>
                     (tasks s)).
  { intros q s tid t p' files' w' Hret Hthrow Ht Hph Hio Hrun IH.
    set (s1 := {| memoryLocks := memoryLocks s; released := released s;
                  allocated := allocated s; files := files'; world := w';
                  tasks := <[tid := set_phase (Await_fn p') t]> (tasks s);
                  journal := journal_of (t_safeId t) q None ++ journal s |}).
    assert (Hres : resume tid None s = Some s1).
    { unfold resume. rewrite Ht. cbn. rewrite Hph.
      destruct q; try (by rewrite Hio); [by destruct (Hret a)|by destruct (Hthrow e)]. }
    destruct (IH s1 (set_phase (Await_fn p') t)) as (n & s' & Hexec & Hf & Hw & Htasks).
    { cbn. rewrite list_lookup_insert_eq; [done|]. by eapply lookup_lt_Some. }
    { done. }
    exists (S n), s'. split; [cbn; rewrite Hres; exact Hexec|].
    rewrite Hrun. cbn in Hf, Hw, Htasks. split; [done|]. split; [done|].
    rewrite Htasks. by rewrite list_insert_insert_eq. }
  induction p as [a|e|kont IH|path kont IH|path data kont IH|B c kont IH|u m kont IH];
    intros s tid t Ht Hph.
  - exists 1, (finally tid t (Ok a) s). split; [|done].
    cbn. unfold resume. rewrite Ht. cbn. by rewrite Hph.
  - exists 1, (finally tid t (Err e) s). split; [|done].
    cbn. unfold resume. rewrite Ht. cbn. by rewrite Hph.
  - eapply (Hnext (Mkdir kont)); try done. intros s1 t1. apply IH.
  - eapply (Hnext (ReadFile path kont)); try done. intros s1 t1. apply IH.
  - eapply (Hnext (WriteFile path data kont)); try done. intros s1 t1. apply IH.
  - destruct (c (world s)) as [b w'] eqn:Hc.
    eapply (Hnext (Sync c kont) s tid t (kont b) (files s) w'); try done.
    + cbn. by rewrite Hc.
    + cbn. by rewrite Hc.
    + intros s1 t1. apply IH.
  - destruct (u m (world s)) as [r w'] eqn:Hu.
    eapply (Hnext (Invoke u m kont) s tid t (kont r) (files s) w'); try done.
    + cbn. by rewrite Hu.
    + cbn. by rewrite Hu.
    + intros s1 t1. apply IH.
Qed.

(** X20. A call of [updateMemory] whose turn has come completes when it is
    left to run, and what it does is what its function does run on its own:
    in every state the process reaches, a call still waiting for the lock
    whose predecessors on its key have all returned can be resumed until it
    has returned; the files, the world and the value it settles with are
    those [run] gives for its function on the current files. *)
Theorem updateMemory_completes (files0 : gmap string raw) (w0 : World) (s : state)
    (j : nat) (tj : task) (fn : io UserMemory) :
  reachable files0 w0 s →
  tasks s !! j = Some tj → t_phase tj = Await_current fn →
  (∀ i ti, i < j → tasks s !! i = Some ti → t_safeId ti = t_safeId tj → returned ti) →
  ∃ n s' tj',
    exec (replicate n (Resume j None)) s = Some s'
    ∧ tasks s' !! j = Some tj'
    ∧ t_phase tj' = Returned (run fn [] (files s) (world s)).1.1
    ∧ files s' = (run fn [] (files s) (world s)).1.2
    ∧ world s' = (run fn [] (files s) (world s)).2.
Proof.
  intros Hs Hj Hph Hpred.
  pose proof (predecessors_returned_fulfilled _ _ _ _ _ Hs Hj Hpred) as Hf.
  set (s1 := {| memoryLocks := memoryLocks s; released := released s;
                allocated := allocated s; files := files s; world := world s;
                tasks := <[j := set_phase (Await_fn fn) tj]> (tasks s);
                journal := journal s |}).
  assert (Hres : resume j None s = Some s1).
  { unfold resume. rewrite Hj. cbn. by rewrite Hph, Hf. }
  destruct (resume_runs fn s1 j (set_phase (Await_fn fn) tj)) as (n & s' & Hexec & Hfl & Hw & Ht).
  { cbn. rewrite list_lookup_insert_eq; [done|]. by eapply lookup_lt_Some. }
  { done. }
  cbn in Hfl, Hw, Ht.
  exists (S n), s', (set_phase (Returned (run fn [] (files s) (world s)).1.1) tj).
  split; [cbn; rewrite Hres; exact Hexec|].
  split; [|done].
  rewrite Ht, list_insert_insert_eq. rewrite list_lookup_insert_eq; [done|].
  by eapply lookup_lt_Some.
Qed.

Lemma updateMemory_completes_witness :
  ∃ n s' tj',
    exec (replicate n (Resume 0 None)) (updateMemory "abc123" (say "first") (init ∅ world0))
      = Some s'
    ∧ tasks s' !! 0 = Some tj'
    ∧ t_phase tj' = Returned (run (updateMemory_fn "abc123" (say "first")) [] ∅ world0).1.1
    ∧ files s' = (run (updateMemory_fn "abc123" (say "first")) [] ∅ world0).1.2
    ∧ world s' = (run (updateMemory_fn "abc123" (say "first")) [] ∅ world0).2.
Proof.
  apply (updateMemory_completes ∅ world0
           (updateMemory "abc123" (say "first") (init ∅ world0)) 0
           {| t_safeId := "abc123"; t_current := P_resolved 0; t_next := P_deferred 1;
              t_phase := Await_current (updateMemory_fn "abc123" (say "first")) |}).
  - by exists [Call "abc123" (say "first")].
  - reflexivity.
  - reflexivity.
  - intros i ti Hi. lia.
Defined.

(** ** RecordStore under faults, and the handlers of the memory route *)








(** ** The analyze-answer route *)

Lemma string_app_nil (b : string) : EmptyString +:+ b = b.
Proof. reflexivity. Qed.

Lemma string_app_cons x (a b : string) : String x a +:+ b = String x (a +:+ b).
Proof. reflexivity. Qed.

Ltac string_app := repeat (rewrite string_app_nil || rewrite string_app_cons).

Lemma string_app_assoc (a b c : string) : (a +:+ b) +:+ c = a +:+ (b +:+ c).
Proof. induction a as [|x a IH]; string_app; [done|]. by rewrite IH. Qed.

Lemma string_length_app (a b : string) :
  String.length (a +:+ b) = String.length a + String.length b.
Proof. induction a as [|x a IH]; string_app; cbn; [done|]. by rewrite IH. Qed.

Lemma occurs_app c (a b : string) : occurs c (a +:+ b) = occurs c a || occurs c b.
Proof. induction a as [|x a IH]; string_app; cbn; [done|]. by rewrite IH, orb_assoc. Qed.

Lemma indexOf_None c s : indexOf c s = None ↔ occurs c s = false.
Proof.
  induction s as [|x s IH]; cbn; [done|].
  destruct (Ascii.eqb x c); cbn; [done|].
  rewrite <- IH. by destruct (indexOf c s).
Qed.

Lemma lastIndexOf_None c s : lastIndexOf c s = None ↔ occurs c s = false.
Proof.
  induction s as [|x s IH]; cbn; [done|].
  destruct (lastIndexOf c s) as [i|].
  - split; [done|]. intros H. apply orb_false_iff in H as [_ H]. by apply IH in H.
  - destruct (Ascii.eqb x c); cbn; [done|]. by rewrite <- IH.
Qed.

Lemma indexOf_split c s i :
  indexOf c s = Some i →
  ∃ before after, s = before +:+ String c after
                  ∧ String.length before = i ∧ occurs c before = false.
Proof.
  revert i. induction s as [|x s IH]; intros i; cbn; [done|].
  destruct (Ascii.eqb_spec x c) as [->|Hne].
  - intros [= <-]. by exists EmptyString, s.
  - destruct (indexOf c s) as [k|]; [|done]. cbn. intros [= <-].
    destruct (IH k eq_refl) as (before & after & -> & Hlen & Hocc).
    exists (String x before), after. string_app. cbn. rewrite Hlen, Hocc.
    split; [done|]. split; [done|]. by apply Ascii.eqb_neq in Hne as ->.
Qed.

Lemma lastIndexOf_split c s j :
  lastIndexOf c s = Some j →
  ∃ before after, s = before +:+ String c after
                  ∧ String.length before = j ∧ occurs c after = false.
Proof.
  revert j. induction s as [|x s IH]; intros j; cbn; [done|].
  destruct (lastIndexOf c s) as [k|] eqn:Hk.
  - intros [= <-]. destruct (IH k eq_refl) as (before & after & -> & Hlen & Hocc).
    exists (String x before), after. string_app. cbn. by rewrite Hlen.
  - destruct (Ascii.eqb_spec x c) as [->|Hne]; [|done].
    intros [= <-]. exists EmptyString, s. split; [done|]. split; [done|].
    by apply lastIndexOf_None.
Qed.

Lemma indexOf_lt c s i : indexOf c s = Some i → i < String.length s.
Proof.
  intros H. destruct (indexOf_split _ _ _ H) as (b & a & -> & <- & _).
  rewrite string_length_app. cbn. lia.
Qed.

Lemma lastIndexOf_lt c s j : lastIndexOf c s = Some j → j < String.length s.
Proof.
  intros H. destruct (lastIndexOf_split _ _ _ H) as (b & a & -> & <- & _).
  rewrite string_length_app. cbn. lia.
Qed.

Lemma indexOf_app c (b r : string) :
  indexOf c (b +:+ r) =
  match indexOf c b with
  | Some k => Some k
  | None => (λ k, String.length b + k) <$> indexOf c r
  end.
Proof.
  induction b as [|x b IH]; string_app; cbn.
  - by destruct (indexOf c r).
  - destruct (Ascii.eqb x c); [done|]. rewrite IH.
    destruct (indexOf c b); [done|]. by destruct (indexOf c r).
Qed.

Lemma lastIndexOf_app c (b r : string) :
  lastIndexOf c (b +:+ r) =
  match lastIndexOf c r with
  | Some k => Some (String.length b + k)
  | None => lastIndexOf c b
  end.
Proof.
  induction b as [|x b IH]; string_app; cbn.
  - by destruct (lastIndexOf c r).
  - rewrite IH. by destruct (lastIndexOf c r).
Qed.

Lemma substring_skip (b r : string) n :
  substring (String.length b) n (b +:+ r) = substring 0 n r.
Proof. induction b as [|x b IH]; string_app; cbn; [done|]. apply IH. Qed.

Lemma substring_prefix (x y : string) :
  substring 0 (String.length x) (x +:+ y) = x.
Proof.
  induction x as [|a x IH]; string_app; cbn; [by destruct y|]. by rewrite IH.
Qed.

(** A text with an opening brace before a closing one has its first opening
    brace before its last closing one. *)
Lemma braces_indices (before mid after : string) :
  ∃ i j, indexOf "{" (before +:+ "{" +:+ mid +:+ "}" +:+ after) = Some i
         ∧ lastIndexOf "}" (before +:+ "{" +:+ mid +:+ "}" +:+ after) = Some j
         ∧ i < j.
Proof.
  assert (Hi : ∃ i, indexOf "{" (before +:+ "{" +:+ mid +:+ "}" +:+ after) = Some i
                    ∧ i ≤ String.length before).
  { rewrite indexOf_app. destruct (indexOf "{" before) as [k|] eqn:Hk.
    - exists k. split; [done|]. apply indexOf_lt in Hk. lia.
    - exists (String.length before). string_app. cbn. split; [f_equal; lia|done]. }
  assert (Hj : ∃ j, lastIndexOf "}" (before +:+ "{" +:+ mid +:+ "}" +:+ after) = Some j
                    ∧ String.length before < j).
  { rewrite <- (string_app_assoc "{" mid), <- (string_app_assoc before).
    rewrite lastIndexOf_app. string_app. cbn [lastIndexOf].
    destruct (lastIndexOf "}" after) as [k|].
    - eexists. split; [done|]. rewrite !string_length_app. cbn. lia.
    - cbn. eexists. split; [done|]. rewrite !string_length_app. cbn. lia. }
  destruct Hi as (i & Hi & Hile), Hj as (j & Hj & Hjlt).
  exists i, j. split; [done|]. split; [done|]. lia.
Qed.

(** The text between the first opening brace and the last closing one. *)
Lemma braces_span (raw : string) i j :
  indexOf "{" raw = Some i → lastIndexOf "}" raw = Some j → i < j →
  ∃ before span after,
    raw = before +:+ "{" +:+ span +:+ "}" +:+ after
    ∧ occurs "{" before = false ∧ occurs "}" after = false
    ∧ slice raw i (j + 1) = "{" +:+ span +:+ "}".
Proof.
  intros Hi Hj Hij.
  destruct (indexOf_split _ _ _ Hi) as (before & rest & -> & Hlen & Hocc).
  rewrite lastIndexOf_app in Hj. cbn [lastIndexOf] in Hj.
  string_app.
  destruct (lastIndexOf "}" rest) as [k|] eqn:Hk.
  - injection Hj as <-.
    destruct (lastIndexOf_split _ _ _ Hk) as (span & after & -> & Hlen' & Hocc').
    exists before, span, after. split; [done|]. split; [done|]. split; [done|].
    unfold slice. rewrite <- Hlen, substring_skip.
    assert (Heq : String "{" (span +:+ String "}" after)
                  = ("{" +:+ span +:+ "}") +:+ after).
    { string_app. rewrite string_app_assoc. by string_app. }
    rewrite Heq.
    replace (String.length before + S k + 1 - String.length before)
      with (String.length ("{" +:+ span +:+ "}")); [apply substring_prefix|].
    string_app. cbn. rewrite string_length_app. cbn. lia.
  - cbn in Hj. apply lastIndexOf_lt in Hj. lia.
Qed.

(** X24. [extractJson] hands to [JSON.parse] the text from the first opening
    brace of the answer to its last closing brace, both included, whatever
    stands before and after; it throws its own error exactly when the answer
    has no opening brace before a closing one. *)
Theorem extractJson_span {J : Type} (JSON_parse_text : string → result J) (raw : string) :
  (∃ before span after,
     raw = before +:+ "{" +:+ span +:+ "}" +:+ after
     ∧ occurs "{" before = false ∧ occurs "}" after = false
     ∧ extractJson JSON_parse_text raw = JSON_parse_text ("{" +:+ span +:+ "}"))
  ∨ (extractJson JSON_parse_text raw = Err no_json
     ∧ ∀ before mid after, raw ≠ before +:+ "{" +:+ mid +:+ "}" +:+ after).
Proof.
  unfold extractJson.
  destruct (indexOf "{" raw) as [i|] eqn:Hi.
  - destruct (lastIndexOf "}" raw) as [j|] eqn:Hj.
    + destruct (j <=? i) eqn:Hle.
      * right. split; [done|]. intros before mid after ->.
        destruct (braces_indices before mid after) as (i' & j' & Hi' & Hj' & Hlt).
        apply Nat.leb_le in Hle. rewrite Hi in Hi'. rewrite Hj in Hj'.
        injection Hi' as <-. injection Hj' as <-. lia.
      * left. apply Nat.leb_gt in Hle.
        destruct (braces_span raw i j Hi Hj Hle) as (before & span & after & H1 & H2 & H3 & H4).
        exists before, span, after. by rewrite H4.
    + right. split; [done|]. intros before mid after ->.
      destruct (braces_indices before mid after) as (i' & j' & _ & Hj' & _). congruence.
  - right. split; [done|]. intros before mid after ->.
    destruct (braces_indices before mid after) as (i' & j' & Hi' & _). congruence.
Qed.

Lemma applyMemoryUpdate_appendTranscriptEntry toLowerCase current e update w :
  applyMemoryUpdate toLowerCase (appendTranscriptEntry current e) update w
  = (set_transcript (transcript current ++ [e])
       (applyMemoryUpdate toLowerCase current update w).1,
     (applyMemoryUpdate toLowerCase current update w).2).
Proof. by rewrite !applyMemoryUpdate_parts. Qed.

Lemma applyMemoryUpdate_no_extraction toLowerCase current w :
  applyMemoryUpdate toLowerCase current no_extraction w = (current, w).
Proof.
  rewrite applyMemoryUpdate_parts.
  destruct current as [[id name email] [[handle url posts] [profileUrl activities]]
                         [l b t r] tr lf ca ua].
  reflexivity.
Qed.

(** X25. The updater of [POST /api/analyze-answer] always records the
    answer: whatever the extraction and the follow-up are, the transcript
    grows by exactly the user's turn, stamped with the first reading of the
    clock, and [createdAt] stays; the profile, the social data and the
    psycho-tree are those [applyMemoryUpdate] gives on the record as it
    was. *)
Theorem analyze_answer_records_turn (toLowerCase : string → string)
    (transcript' : string) (extraction : MemoryUpdate) (followup : FollowupSignal)
    (current : UserMemory) (w : World) :
  let out := analyze_answer_updater toLowerCase transcript' extraction followup current w in
  let merged := applyMemoryUpdate toLowerCase current extraction (now w).2 in
  transcript out.1
  = transcript current
    ++ [{| tr_role := role_user; tr_content := transcript';
           tr_timestamp := (now w).1 |}]
  ∧ (user out.1, social out.1, psychoTree out.1)
    = (user merged.1, social merged.1, psychoTree merged.1)
  ∧ createdAt out.1 = createdAt current
  ∧ out.2 = merged.2.
Proof.
  cbn zeta. unfold analyze_answer_updater. rewrite !sync_bind_unfold.
  rewrite applyMemoryUpdate_appendTranscriptEntry.
  cbn [fst snd mret sync_ret set_lastFollowup set_transcript transcript user social
       psychoTree createdAt].
  split; [done|]. split; [done|]. split; [|done].
  by rewrite applyMemoryUpdate_parts.
Qed.

(** X26. With the extraction [POST /api/analyze-answer] starts from, which
    it keeps when there is no API key and when the model's answer cannot be
    used, the request changes nothing of the profile, the social data and
    the psycho-tree, draws no identifier and reads the clock once. *)
Theorem analyze_answer_default_extraction (toLowerCase : string → string)
    (transcript' : string) (followup : FollowupSignal)
    (current : UserMemory) (w : World) :
  let out := analyze_answer_updater toLowerCase transcript' no_extraction followup current w in
  (user out.1, social out.1, psychoTree out.1)
  = (user current, social current, psychoTree current)
  ∧ out.2 = advance 0 1 w.
Proof.
  cbn zeta. unfold analyze_answer_updater. rewrite !sync_bind_unfold.
  rewrite applyMemoryUpdate_appendTranscriptEntry, applyMemoryUpdate_no_extraction.
  split; [done|]. by destruct w.
Qed.

Lemma forEach_push_length {A B : Type} (step : A → option (string * sync B)) l st w :
  length (forEach (push_new step) l st w).1.2 ≤ length st.2 + length l.
Proof.
  revert st w. induction l as [|a l IH]; intros st w; cbn [forEach].
  - cbn. lia.
  - rewrite sync_bind_unfold.
    etransitivity; [apply IH|].
    unfold push_new. destruct (step a) as [[key make]|]; [|cbn; lia].
    case_bool_decide; [cbn; lia|].
    rewrite sync_bind_unfold. cbn. rewrite length_app. cbn. lia.
Qed.

(** X27. The count [countLayer] reports for a layer never goes down in a
    merge, and goes up by at most the number of entries the fragment brings
    to that layer. *)
Theorem countLayer_grows (toLowerCase : string → string)
    (r : UserMemory) (f : MemoryUpdate) (w : World) (layer : PsychoLayer) :
  countLayer r layer ≤ countLayer (applyMemoryUpdate toLowerCase r f w).1 layer
  ∧ countLayer (applyMemoryUpdate toLowerCase r f w).1 layer
    ≤ countLayer r layer + length (incoming_entries f layer).
Proof.
  unfold countLayer.
  destruct (applyMemoryUpdate_lists toLowerCase r f w)
    as (_ & _ & H1 & H2 & H3 & H4 & _).
  destruct layer; cbn [layer_entries]; rewrite ?H1, ?H2, ?H3, ?H4;
    match goal with |- context [merge_entries _ ?la ?l ?i ?w'] =>
      rewrite (merge_entries_unfold toLowerCase la l i w'); cbn [fst snd];
      pose proof (forEach_push_length (entry_step toLowerCase la) i
                    (list_to_set (stored_key toLowerCase <$> l), l) w') as Hlen;
      destruct (forEach_push_extends (entry_step toLowerCase la) i
                  (list_to_set (stored_key toLowerCase <$> l), l) w') as [added Hadd]
    end;
    cbn [fst snd] in Hlen, Hadd; (split; [rewrite Hadd, length_app; lia|exact Hlen]).
Qed.
